(** * EncryptedHighLow: settlement state machine

    A shallow embedding of [contracts/EncryptedHighLow.sol] and the
    properties of its game ledger and settlement engine.

    Conventions of the embedding:
    - [uint256], [uint8], [address] and [bytes32] values are natural numbers
      ([N]);
      Solidity 0.8 checked arithmetic is written out ([checked_add] reverts
      with [Panic] on overflow);
    - Solidity mappings are finite maps ([gmap]) read with a default value
      (the zero value of the struct);
    - a reverting call is [Err e], where [e] names the revert string of the
      source; a revert discards every write of the call, so an entry point is
      a function [Contract -> Result (_ * Contract)];
    - the FHE library, [keccak256], [abi.decode] and the recipients of value
      transfers are collaborators outside the contract: they are taken as
      parameters (class [External], variable [call_value]); a recipient that
      calls back into the contract is a [Script].

    The model comes first, then the vocabulary of the properties (the ledger
    invariant, what a call can never undo, example rounds), then the proofs:
    every successful call is a step that keeps the invariant ([dispatch_ok]),
    and the properties of settlement, of the pot and of the claims follow. *)

From Stdlib Require Import ZArith List Bool Lia.
From stdpp Require Import base option list gmap relations.

Open Scope N_scope.

(** ** Results of calls *)

Inductive Error : Type :=
  | EndTimeTooSoon            (* "end time too soon" *)
  | MinStakeTooLow            (* "min stake too low" *)
  | RewardTooSmall            (* "reward too small" *)
  | RewardFundingMismatch     (* "reward funding mismatch" *)
  | GameNotFound              (* "game not found" *)
  | MatchAlreadyClosed        (* "match already closed" *)
  | SettlementInProgress      (* "settlement in progress" *)
  | CreatorCannotJoin         (* "creator cannot join" *)
  | AlreadyJoined             (* "already joined" *)
  | InsufficientStake         (* "insufficient stake" *)
  | RoundStillActive          (* "round still active" *)
  | AlreadySettled            (* "already settled" *)
  | RevealAlreadyPending      (* "reveal pending" *)
  | NoPendingReveal           (* "no pending reveal" *)
  | DebugDisabled             (* "debug disabled" *)
  | RoundActive               (* "round active" *)
  | MismatchGuesses           (* "mismatch guesses" *)
  | OnlyCreatorCanReveal      (* "only creator can reveal" *)
  | HashMismatch              (* "hash mismatch" *)
  | NotSettled                (* "not settled" *)
  | NotCreator                (* "not creator" *)
  | NotChallenger             (* "not a challenger" *)
  | NotEligible               (* "not eligible" *)
  | AlreadyClaimed            (* "already claimed" *)
  | NothingToClaim            (* "nothing to claim" *)
  | TransferFailed            (* "transfer failed" *)
  | ReentrancyGuardReentrantCall
  | InvalidInputProof         (* FHE.fromExternal rejects the proof *)
  | InvalidKMSSignatures      (* FHE.checkSignatures rejects the proof *)
  | AbiDecodeFailure          (* abi.decode on malformed data *)
  | Panic.                    (* arithmetic overflow, index out of bounds *)

Inductive Result (A : Type) : Type :=
  | Ok (a : A)
  | Err (e : Error).
Arguments Ok {A} a.
Arguments Err {A} e.

Definition bind {A B : Type} (m : Result A) (k : A -> Result B) : Result B :=
  match m with
  | Ok a => k a
  | Err e => Err e
  end.

Notation "x <- m ;; k" := (bind m (fun x => k))
  (at level 100, m at next level, right associativity).
Notation "'require' c 'orelse' e ;; k" := (if c then k else Err e)
  (at level 100, c at next level, e at next level, right associativity).

(** ** Machine integers *)

Abbreviation address := N (only parsing).
Abbreviation bytes32 := N (only parsing).
Abbreviation bytes := (list Byte.byte) (only parsing).

Definition MAX_UINT256 : N := 2 ^ 256 - 1.

Definition checked_add (a b : N) : Result N :=
  if a + b <=? MAX_UINT256 then Ok (a + b) else Err Panic.

Definition MIN_CREATOR_REWARD : N := 1.
Definition MIN_STAKE : N := 1000000000000000.
Definition MIN_DURATION : N := 60.

(** ** Storage *)

Record Participant : Type := {
  choice : bytes32;
  stake : N;
  exists_ : bool;
  won : bool;
  claimed : bool;
  choiceRevealed : bool;
  guessedBig : bool
}.

Record Game : Type := {
  creator : address;
  minStake : N;
  endTime : N;
  createdAt : N;
  rewardPool : N;
  totalPot : N;
  secretNumber : bytes32;
  secretNumberHash : bytes32;
  revealPending : bool;
  settled : bool;
  autoSettleEnabled : bool;
  requestId : N;
  revealedNumber : N;
  numberIsBig : bool;
  winnersCount : N;
  creatorShare : N;
  payoutPerWinner : N;
  creatorBonusRemainder : N;
  creatorClaimed : bool;
  participantList : list address;
  participants : gmap address Participant
}.

Record GameSummary : Type := {
  gs_creator : address;
  gs_minStake : N;
  gs_createdAt : N;
  gs_endTime : N;
  gs_rewardPool : N;
  gs_totalPot : N;
  gs_revealPending : bool;
  gs_settled : bool;
  gs_autoSettleEnabled : bool;
  gs_revealedNumber : N;
  gs_numberIsBig : bool;
  gs_winnersCount : N;
  gs_creatorShare : N;
  gs_payoutPerWinner : N;
  gs_participantCount : N;
  gs_creatorClaimed : bool
}.

Record ParticipantView : Type := {
  pv_stake : N;
  pv_exists : bool;
  pv_won : bool;
  pv_claimed : bool;
  pv_choiceRevealed : bool;
  pv_guessedBig : bool
}.

Inductive Event : Type :=
  | GameCreated (gameId : N) (creator : address) (minStake endTime rewardPool : N)
  | GameJoined (gameId : N) (player : address) (stake : N)
  | RevealRequested (gameId requestId : N)
  | GameSettled (gameId revealedNumber : N) (numberIsBig : bool)
      (winnersCount creatorShare payoutPerWinner : N)
  | CreatorClaimed (gameId : N) (creator : address) (amount : N)
  | WinningsClaimed (gameId : N) (player : address) (amount : N).

(** [_status] is the flag of OpenZeppelin's ReentrancyGuard: [true] while a
    [nonReentrant] function is running. [events] is the log of emitted events,
    latest first. *)
Record Contract : Type := {
  nextGameId : N;
  _games : gmap N Game;
  _requestToGame : gmap N N;
  _status : bool;
  events : list Event
}.

(** Field updates ([g.field = v] on a storage reference). *)

Definition set_choice (v : N) (p : Participant) : Participant :=
  Build_Participant v (stake p) (exists_ p) (won p) (claimed p) (choiceRevealed p)
    (guessedBig p).

Definition set_stake (v : N) (p : Participant) : Participant :=
  Build_Participant (choice p) v (exists_ p) (won p) (claimed p) (choiceRevealed p)
    (guessedBig p).

Definition set_exists (v : bool) (p : Participant) : Participant :=
  Build_Participant (choice p) (stake p) v (won p) (claimed p) (choiceRevealed p)
    (guessedBig p).

Definition set_claimed (v : bool) (p : Participant) : Participant :=
  Build_Participant (choice p) (stake p) (exists_ p) (won p) v (choiceRevealed p)
    (guessedBig p).

Definition set_choiceRevealed (v : bool) (p : Participant) : Participant :=
  Build_Participant (choice p) (stake p) (exists_ p) (won p) (claimed p) v (guessedBig p).

Definition set_guessedBig (v : bool) (p : Participant) : Participant :=
  Build_Participant (choice p) (stake p) (exists_ p) (won p) (claimed p) (choiceRevealed p)
    v.

Definition set_creator (v : N) (g : Game) : Game :=
  Build_Game v (minStake g) (endTime g) (createdAt g) (rewardPool g) (totalPot g)
    (secretNumber g) (secretNumberHash g) (revealPending g) (settled g)
    (autoSettleEnabled g) (requestId g) (revealedNumber g) (numberIsBig g) (winnersCount g)
    (creatorShare g) (payoutPerWinner g) (creatorBonusRemainder g) (creatorClaimed g)
    (participantList g) (participants g).

Definition set_minStake (v : N) (g : Game) : Game :=
  Build_Game (creator g) v (endTime g) (createdAt g) (rewardPool g) (totalPot g)
    (secretNumber g) (secretNumberHash g) (revealPending g) (settled g)
    (autoSettleEnabled g) (requestId g) (revealedNumber g) (numberIsBig g) (winnersCount g)
    (creatorShare g) (payoutPerWinner g) (creatorBonusRemainder g) (creatorClaimed g)
    (participantList g) (participants g).

Definition set_endTime (v : N) (g : Game) : Game :=
  Build_Game (creator g) (minStake g) v (createdAt g) (rewardPool g) (totalPot g)
    (secretNumber g) (secretNumberHash g) (revealPending g) (settled g)
    (autoSettleEnabled g) (requestId g) (revealedNumber g) (numberIsBig g) (winnersCount g)
    (creatorShare g) (payoutPerWinner g) (creatorBonusRemainder g) (creatorClaimed g)
    (participantList g) (participants g).

Definition set_createdAt (v : N) (g : Game) : Game :=
  Build_Game (creator g) (minStake g) (endTime g) v (rewardPool g) (totalPot g)
    (secretNumber g) (secretNumberHash g) (revealPending g) (settled g)
    (autoSettleEnabled g) (requestId g) (revealedNumber g) (numberIsBig g) (winnersCount g)
    (creatorShare g) (payoutPerWinner g) (creatorBonusRemainder g) (creatorClaimed g)
    (participantList g) (participants g).

Definition set_rewardPool (v : N) (g : Game) : Game :=
  Build_Game (creator g) (minStake g) (endTime g) (createdAt g) v (totalPot g)
    (secretNumber g) (secretNumberHash g) (revealPending g) (settled g)
    (autoSettleEnabled g) (requestId g) (revealedNumber g) (numberIsBig g) (winnersCount g)
    (creatorShare g) (payoutPerWinner g) (creatorBonusRemainder g) (creatorClaimed g)
    (participantList g) (participants g).

Definition set_totalPot (v : N) (g : Game) : Game :=
  Build_Game (creator g) (minStake g) (endTime g) (createdAt g) (rewardPool g) v
    (secretNumber g) (secretNumberHash g) (revealPending g) (settled g)
    (autoSettleEnabled g) (requestId g) (revealedNumber g) (numberIsBig g) (winnersCount g)
    (creatorShare g) (payoutPerWinner g) (creatorBonusRemainder g) (creatorClaimed g)
    (participantList g) (participants g).

Definition set_secretNumber (v : N) (g : Game) : Game :=
  Build_Game (creator g) (minStake g) (endTime g) (createdAt g) (rewardPool g) (totalPot g)
    v (secretNumberHash g) (revealPending g) (settled g) (autoSettleEnabled g)
    (requestId g) (revealedNumber g) (numberIsBig g) (winnersCount g) (creatorShare g)
    (payoutPerWinner g) (creatorBonusRemainder g) (creatorClaimed g) (participantList g)
    (participants g).

Definition set_secretNumberHash (v : N) (g : Game) : Game :=
  Build_Game (creator g) (minStake g) (endTime g) (createdAt g) (rewardPool g) (totalPot g)
    (secretNumber g) v (revealPending g) (settled g) (autoSettleEnabled g) (requestId g)
    (revealedNumber g) (numberIsBig g) (winnersCount g) (creatorShare g)
    (payoutPerWinner g) (creatorBonusRemainder g) (creatorClaimed g) (participantList g)
    (participants g).

Definition set_revealPending (v : bool) (g : Game) : Game :=
  Build_Game (creator g) (minStake g) (endTime g) (createdAt g) (rewardPool g) (totalPot g)
    (secretNumber g) (secretNumberHash g) v (settled g) (autoSettleEnabled g) (requestId g)
    (revealedNumber g) (numberIsBig g) (winnersCount g) (creatorShare g)
    (payoutPerWinner g) (creatorBonusRemainder g) (creatorClaimed g) (participantList g)
    (participants g).

Definition set_settled (v : bool) (g : Game) : Game :=
  Build_Game (creator g) (minStake g) (endTime g) (createdAt g) (rewardPool g) (totalPot g)
    (secretNumber g) (secretNumberHash g) (revealPending g) v (autoSettleEnabled g)
    (requestId g) (revealedNumber g) (numberIsBig g) (winnersCount g) (creatorShare g)
    (payoutPerWinner g) (creatorBonusRemainder g) (creatorClaimed g) (participantList g)
    (participants g).

Definition set_autoSettleEnabled (v : bool) (g : Game) : Game :=
  Build_Game (creator g) (minStake g) (endTime g) (createdAt g) (rewardPool g) (totalPot g)
    (secretNumber g) (secretNumberHash g) (revealPending g) (settled g) v (requestId g)
    (revealedNumber g) (numberIsBig g) (winnersCount g) (creatorShare g)
    (payoutPerWinner g) (creatorBonusRemainder g) (creatorClaimed g) (participantList g)
    (participants g).

Definition set_requestId (v : N) (g : Game) : Game :=
  Build_Game (creator g) (minStake g) (endTime g) (createdAt g) (rewardPool g) (totalPot g)
    (secretNumber g) (secretNumberHash g) (revealPending g) (settled g)
    (autoSettleEnabled g) v (revealedNumber g) (numberIsBig g) (winnersCount g)
    (creatorShare g) (payoutPerWinner g) (creatorBonusRemainder g) (creatorClaimed g)
    (participantList g) (participants g).

Definition set_revealedNumber (v : N) (g : Game) : Game :=
  Build_Game (creator g) (minStake g) (endTime g) (createdAt g) (rewardPool g) (totalPot g)
    (secretNumber g) (secretNumberHash g) (revealPending g) (settled g)
    (autoSettleEnabled g) (requestId g) v (numberIsBig g) (winnersCount g) (creatorShare g)
    (payoutPerWinner g) (creatorBonusRemainder g) (creatorClaimed g) (participantList g)
    (participants g).

Definition set_numberIsBig (v : bool) (g : Game) : Game :=
  Build_Game (creator g) (minStake g) (endTime g) (createdAt g) (rewardPool g) (totalPot g)
    (secretNumber g) (secretNumberHash g) (revealPending g) (settled g)
    (autoSettleEnabled g) (requestId g) (revealedNumber g) v (winnersCount g)
    (creatorShare g) (payoutPerWinner g) (creatorBonusRemainder g) (creatorClaimed g)
    (participantList g) (participants g).

Definition set_winnersCount (v : N) (g : Game) : Game :=
  Build_Game (creator g) (minStake g) (endTime g) (createdAt g) (rewardPool g) (totalPot g)
    (secretNumber g) (secretNumberHash g) (revealPending g) (settled g)
    (autoSettleEnabled g) (requestId g) (revealedNumber g) (numberIsBig g) v
    (creatorShare g) (payoutPerWinner g) (creatorBonusRemainder g) (creatorClaimed g)
    (participantList g) (participants g).

Definition set_creatorShare (v : N) (g : Game) : Game :=
  Build_Game (creator g) (minStake g) (endTime g) (createdAt g) (rewardPool g) (totalPot g)
    (secretNumber g) (secretNumberHash g) (revealPending g) (settled g)
    (autoSettleEnabled g) (requestId g) (revealedNumber g) (numberIsBig g) (winnersCount g)
    v (payoutPerWinner g) (creatorBonusRemainder g) (creatorClaimed g) (participantList g)
    (participants g).

Definition set_payoutPerWinner (v : N) (g : Game) : Game :=
  Build_Game (creator g) (minStake g) (endTime g) (createdAt g) (rewardPool g) (totalPot g)
    (secretNumber g) (secretNumberHash g) (revealPending g) (settled g)
    (autoSettleEnabled g) (requestId g) (revealedNumber g) (numberIsBig g) (winnersCount g)
    (creatorShare g) v (creatorBonusRemainder g) (creatorClaimed g) (participantList g)
    (participants g).

Definition set_creatorBonusRemainder (v : N) (g : Game) : Game :=
  Build_Game (creator g) (minStake g) (endTime g) (createdAt g) (rewardPool g) (totalPot g)
    (secretNumber g) (secretNumberHash g) (revealPending g) (settled g)
    (autoSettleEnabled g) (requestId g) (revealedNumber g) (numberIsBig g) (winnersCount g)
    (creatorShare g) (payoutPerWinner g) v (creatorClaimed g) (participantList g)
    (participants g).

Definition set_creatorClaimed (v : bool) (g : Game) : Game :=
  Build_Game (creator g) (minStake g) (endTime g) (createdAt g) (rewardPool g) (totalPot g)
    (secretNumber g) (secretNumberHash g) (revealPending g) (settled g)
    (autoSettleEnabled g) (requestId g) (revealedNumber g) (numberIsBig g) (winnersCount g)
    (creatorShare g) (payoutPerWinner g) (creatorBonusRemainder g) v (participantList g)
    (participants g).

Definition set_participantList (v : list N) (g : Game) : Game :=
  Build_Game (creator g) (minStake g) (endTime g) (createdAt g) (rewardPool g) (totalPot g)
    (secretNumber g) (secretNumberHash g) (revealPending g) (settled g)
    (autoSettleEnabled g) (requestId g) (revealedNumber g) (numberIsBig g) (winnersCount g)
    (creatorShare g) (payoutPerWinner g) (creatorBonusRemainder g) (creatorClaimed g) v
    (participants g).

Definition set_participants (v : gmap N Participant) (g : Game) : Game :=
  Build_Game (creator g) (minStake g) (endTime g) (createdAt g) (rewardPool g) (totalPot g)
    (secretNumber g) (secretNumberHash g) (revealPending g) (settled g)
    (autoSettleEnabled g) (requestId g) (revealedNumber g) (numberIsBig g) (winnersCount g)
    (creatorShare g) (payoutPerWinner g) (creatorBonusRemainder g) (creatorClaimed g)
    (participantList g) v.

Definition set_nextGameId (v : N) (s : Contract) : Contract :=
  Build_Contract v (_games s) (_requestToGame s) (_status s) (events s).

Definition set_games (v : gmap N Game) (s : Contract) : Contract :=
  Build_Contract (nextGameId s) v (_requestToGame s) (_status s) (events s).

Definition set_requestToGame (v : gmap N N) (s : Contract) : Contract :=
  Build_Contract (nextGameId s) (_games s) v (_status s) (events s).

Definition set_status (v : bool) (s : Contract) : Contract :=
  Build_Contract (nextGameId s) (_games s) (_requestToGame s) v (events s).

Definition set_events (v : list Event) (s : Contract) : Contract :=
  Build_Contract (nextGameId s) (_games s) (_requestToGame s) (_status s) v.

(** Zero values of the structs: what a mapping holds at a key never written. *)

Definition empty_participant : Participant :=
  Build_Participant 0 0 false false false false false.

Definition empty_game : Game :=
  Build_Game 0 0 0 0 0 0 0 0 false false false 0 0 false 0 0 0 0 false [] ∅.

#[global] Instance Participant_inhabited : Inhabited Participant :=
  populate empty_participant.
#[global] Instance Game_inhabited : Inhabited Game := populate empty_game.

Definition initial : Contract := Build_Contract 0 ∅ ∅ false [].

(** [g.participants[a]] and [_games[gameId]], read and written. *)

Definition participant (g : Game) (a : address) : Participant :=
  participants g !!! a.

Definition set_participant (a : address) (p : Participant) (g : Game) : Game :=
  set_participants (<[a := p]> (participants g)) g.

Definition game (s : Contract) (gameId : N) : Game := _games s !!! gameId.

Definition set_game (gameId : N) (g : Game) (s : Contract) : Contract :=
  set_games (<[gameId := g]> (_games s)) s.

Definition requestToGame (s : Contract) (rid : N) : N :=
  default 0 (_requestToGame s !! rid).

Definition emit (e : Event) (s : Contract) : Contract :=
  set_events (e :: events s) s.

(** ** Call context and external collaborators *)

(** What a call sees of its transaction and block. [oracle_requestId] is the
    identifier [FHE.requestDecryption] hands back if the call asks for a
    decryption. Only payable functions take a [msg_value]. *)
Record Env : Type := {
  msg_sender : address;
  block_timestamp : N;
  block_chainid : N;
  oracle_requestId : N
}.

(** The library functions the contract calls. [FHE.fromExternal] and
    [FHE.checkSignatures] revert on an invalid proof, [abi.decode] on
    malformed data; [keccak256_packed n salt] stands for
    [keccak256(abi.encodePacked(n, salt))] with [n : uint8].
    [FHE.toBytes32] is the identity on handles; [FHE.allowThis] and
    [FHE.allow] write the access-control list of the FHE library only and
    are left out. *)
Class External : Type := {
  keccak256_packed : N -> bytes32 -> bytes32;
  FHE_fromExternal_euint8 : bytes32 -> bytes -> address -> option bytes32;
  FHE_fromExternal_ebool : bytes32 -> bytes -> address -> option bytes32;
  FHE_checkSignatures : N -> bytes -> bytes -> bool;
  abi_decode_uint8 : bytes -> option N;
  abi_decode_uint8_bools : bytes -> option (N * list bool)
}.

Definition of_option {A : Type} (o : option A) (e : Error) : Result A :=
  match o with
  | Some a => Ok a
  | None => Err e
  end.

(** ** Modifiers *)

Definition gameExists {A : Type} (gameId : N) (body : Contract -> Result A)
    (s : Contract) : Result A :=
  require (gameId <? nextGameId s) orelse GameNotFound ;;
  body s.

(** [nonReentrant] is OpenZeppelin's ReentrancyGuard, which the contract
    imports: the call reverts if the flag is set, the body runs with the flag
    set, and the flag is cleared when the body returns. *)
Definition nonReentrant (body : Contract -> Result Contract) (s : Contract)
    : Result Contract :=
  require (negb (_status s)) orelse ReentrancyGuardReentrantCall ;;
  s' <- body (set_status true s) ;;
  Ok (set_status false s').

(** ** Settlement *)

(** The loop of [_completeSettlement]: for [i] from [i] up, [remaining]
    iterations, [p.choiceRevealed = true; p.guessedBig = guesses[i]] for
    [p = g.participants[g.participantList[i]]]. *)
Fixpoint reveal_loop (remaining : nat) (i : nat) (guesses : list bool) (g : Game)
    : Result Game :=
  match remaining with
  | O => Ok g
  | S remaining' =>
      participantAddress <- of_option (participantList g !! i) Panic ;;
      guessedBig <- of_option (guesses !! i) Panic ;;
      let p := participant g participantAddress in
      let p := set_choiceRevealed true p in
      let p := set_guessedBig guessedBig p in
      reveal_loop remaining' (S i) guesses (set_participant participantAddress p g)
  end.

(** [_completeSettlement(g, revealedNumber, guesses)] on the game behind the
    storage reference [g]; returns [(winnersCount, creatorPayout, perWinner)]
    and the game as written. *)
Definition _completeSettlement (g : Game) (revealedNumber : N) (guesses : list bool)
    : Result (N * N * N * Game) :=
  let g := set_revealPending false g in
  let g := set_settled true g in
  let g := set_revealedNumber revealedNumber g in
  let isBig := 5 <? revealedNumber in
  let g := set_numberIsBig isBig g in
  let participantCount := length (participantList g) in
  if (participantCount =? 0)%nat then
    let g := set_winnersCount 0 g in
    let g := set_creatorShare (totalPot g) g in
    let g := set_payoutPerWinner 0 g in
    let g := set_creatorBonusRemainder 0 g in
    Ok (0, totalPot g, 0, g)
  else
    require (length guesses =? participantCount)%nat orelse MismatchGuesses ;;
    g <- reveal_loop participantCount 0 guesses g ;;
    let g := set_winnersCount 0 g in
    let g := set_creatorShare (totalPot g) g in
    let g := set_payoutPerWinner 0 g in
    let g := set_creatorBonusRemainder 0 g in
    let creatorPayout := totalPot g in
    Ok (0, creatorPayout, 0, g).

(** The handles sent to the oracle: the secret first, then every
    participant's choice in [participantList] order. *)
Definition decryption_handles (g : Game) : list bytes32 :=
  secretNumber g :: map (fun a => choice (participant g a)) (participantList g).

(** The loop of [fairReveal] over a fresh [bool[]]: [guesses[i] = true],
    an index out of range being a panic. *)
Fixpoint assume_big (remaining : nat) (i : nat) (guesses : list bool)
    : Result (list bool) :=
  match remaining with
  | O => Ok guesses
  | S remaining' =>
      require (i <? length guesses)%nat orelse Panic ;;
      assume_big remaining' (S i) (<[i := true]> guesses)
  end.

(** ** Entry points *)

Section Contract.
Context `{External}.

(** [call_value env to amount s]: what the low-level call
    [to.call{value: amount}("")] made under [env] does. The recipient's
    code runs on the contract state [s] as written so far and may call back
    into the contract; [Some s'] is a successful call leaving state [s'],
    [None] a failed one. *)
Variable call_value : Env -> address -> N -> Contract -> option Contract.

Definition _safeTransfer (env : Env) (to : address) (amount : N) (s : Contract)
    : Result Contract :=
  of_option (call_value env to amount s) TransferFailed.

Definition createGame (env : Env) (msg_value : N) (secretNumberHandle : bytes32)
    (inputProof : bytes) (secretNumberHash' : bytes32) (minStake' endTime' rewardPool' : N)
    (enableAutoSettle : bool) (s : Contract) : Result (N * Contract) :=
  limit <- checked_add (block_timestamp env) MIN_DURATION ;;
  require (limit <? endTime') orelse EndTimeTooSoon ;;
  require (MIN_STAKE <=? minStake') orelse MinStakeTooLow ;;
  require (MIN_CREATOR_REWARD <=? rewardPool') orelse RewardTooSmall ;;
  require (msg_value =? rewardPool') orelse RewardFundingMismatch ;;
  let gameId := nextGameId s in
  next <- checked_add (nextGameId s) 1 ;;
  let s := set_nextGameId next s in
  let g := game s gameId in
  let g := set_creator (msg_sender env) g in
  let g := set_minStake minStake' g in
  let g := set_endTime endTime' g in
  let g := set_createdAt (block_timestamp env) g in
  let g := set_rewardPool rewardPool' g in
  let g := set_totalPot rewardPool' g in
  let g := set_secretNumberHash secretNumberHash' g in
  handle <- of_option (FHE_fromExternal_euint8 secretNumberHandle inputProof (msg_sender env))
              InvalidInputProof ;;
  let g := set_secretNumber handle g in
  let g := set_autoSettleEnabled enableAutoSettle g in
  let s := set_game gameId g s in
  Ok (gameId, emit (GameCreated gameId (msg_sender env) minStake' endTime' rewardPool') s).

Definition joinGame (env : Env) (msg_value : N) (gameId : N) (guessHandle : bytes32)
    (inputProof : bytes) : Contract -> Result Contract :=
  gameExists gameId (fun s =>
    let g := game s gameId in
    require (block_timestamp env <? endTime g) orelse MatchAlreadyClosed ;;
    require (negb (revealPending g) && negb (settled g)) orelse SettlementInProgress ;;
    require (negb (msg_sender env =? creator g)) orelse CreatorCannotJoin ;;
    let p := participant g (msg_sender env) in
    require (negb (exists_ p)) orelse AlreadyJoined ;;
    require (minStake g <=? msg_value) orelse InsufficientStake ;;
    pot <- checked_add (totalPot g) msg_value ;;
    let g := set_totalPot pot g in
    handle <- of_option (FHE_fromExternal_ebool guessHandle inputProof (msg_sender env))
                InvalidInputProof ;;
    let p := set_choice handle p in
    let p := set_stake msg_value p in
    let p := set_exists true p in
    let g := set_participant (msg_sender env) p g in
    let g := set_participantList (participantList g ++ [msg_sender env]) g in
    Ok (emit (GameJoined gameId (msg_sender env) msg_value) (set_game gameId g s))).

Definition requestReveal (env : Env) (gameId : N) : Contract -> Result Contract :=
  gameExists gameId (fun s =>
    let g := game s gameId in
    require (endTime g <=? block_timestamp env) orelse RoundStillActive ;;
    require (negb (settled g)) orelse AlreadySettled ;;
    require (negb (revealPending g)) orelse RevealAlreadyPending ;;
    let g := set_revealPending true g in
    let participantCount := N.of_nat (length (participantList g)) in
    handleCount <- checked_add participantCount 1 ;;
    let handles := decryption_handles g in
    let requestId' := oracle_requestId env in
    let g := set_requestId requestId' g in
    let s := set_game gameId g s in
    let s := set_requestToGame (<[requestId' := gameId]> (_requestToGame s)) s in
    Ok (emit (RevealRequested gameId requestId') s)).

(** [_autoDistributeRewards(g, gameId)]: pushes the creator payout. The
    game is written back before the transfer, as the storage reference
    does; [g.creator] in the event is read after the transfer. *)
Definition _autoDistributeRewards (env : Env) (gameId : N) (s : Contract)
    : Result Contract :=
  let g := game s gameId in
  creatorPayout <- checked_add (creatorShare g) (creatorBonusRemainder g) ;;
  if (0 <? creatorPayout) && negb (creatorClaimed g) then
    let s := set_game gameId (set_creatorClaimed true g) s in
    s <- _safeTransfer env (creator g) creatorPayout s ;;
    Ok (emit (CreatorClaimed gameId (creator (game s gameId)) creatorPayout) s)
  else Ok s.

Definition revealCallback (env : Env) (requestId' : N) (cleartexts decryptionProof : bytes)
    (s : Contract) : Result (bool * Contract) :=
  let gameId := requestToGame s requestId' in
  let g := game s gameId in
  require (revealPending g) orelse NoPendingReveal ;;
  require (FHE_checkSignatures requestId' cleartexts decryptionProof)
    orelse InvalidKMSSignatures ;;
  let participantCount := length (participantList g) in
  r <- (if (participantCount =? 0)%nat then
          revealed <- of_option (abi_decode_uint8 cleartexts) AbiDecodeFailure ;;
          _completeSettlement g revealed []
        else
          d <- of_option (abi_decode_uint8_bools cleartexts) AbiDecodeFailure ;;
          _completeSettlement g (fst d) (snd d)) ;;
  let '(winnersCount', creatorPayout, perWinner, g) := r in
  let s := set_game gameId g s in
  let s := emit (GameSettled gameId (revealedNumber g) (numberIsBig g)
                   winnersCount' creatorPayout perWinner) s in
  s <- (if autoSettleEnabled g then _autoDistributeRewards env gameId s else Ok s) ;;
  Ok (true, s).

Definition debugReveal (env : Env) (gameId : N) (revealedNumber' : N) (guesses : list bool)
    : Contract -> Result (bool * Contract) :=
  gameExists gameId (fun s =>
    require ((block_chainid env =? 31337) || (block_chainid env =? 1337))
      orelse DebugDisabled ;;
    let g := game s gameId in
    require (negb (settled g)) orelse AlreadySettled ;;
    require (endTime g <=? block_timestamp env) orelse RoundActive ;;
    require (length (participantList g) =? length guesses)%nat orelse MismatchGuesses ;;
    let actualRevealedNumber := revealedNumber' in
    r <- _completeSettlement g actualRevealedNumber guesses ;;
    let '(winnersCount', creatorPayout, perWinner, g) := r in
    let s := set_game gameId g s in
    Ok (true, emit (GameSettled gameId actualRevealedNumber (5 <? actualRevealedNumber)
                      winnersCount' creatorPayout perWinner) s)).

Definition fairReveal (env : Env) (gameId : N) (originalSecretNumber : N) (salt : bytes32)
    : Contract -> Result (bool * Contract) :=
  gameExists gameId (fun s =>
    let g := game s gameId in
    require (negb (settled g)) orelse AlreadySettled ;;
    require (endTime g <=? block_timestamp env) orelse RoundActive ;;
    require (msg_sender env =? creator g) orelse OnlyCreatorCanReveal ;;
    let computedHash := keccak256_packed originalSecretNumber salt in
    require (computedHash =? secretNumberHash g) orelse HashMismatch ;;
    let participantCount := length (participantList g) in
    let guesses := replicate participantCount false in
    guesses <- assume_big participantCount 0 guesses ;;
    r <- _completeSettlement g originalSecretNumber guesses ;;
    let '(winnersCount', creatorPayout, perWinner, g) := r in
    let s := set_game gameId g s in
    Ok (true, emit (GameSettled gameId originalSecretNumber (5 <? originalSecretNumber)
                      winnersCount' creatorPayout perWinner) s)).

(** The decryption request of [autoSettle], the same in both of its
    branches. *)
Definition autoSettle_request (env : Env) (gameId : N) (s : Contract) : Result Contract :=
  let g := game s gameId in
  if negb (revealPending g) then
    let participantCount := N.of_nat (length (participantList g)) in
    handleCount <- checked_add participantCount 1 ;;
    let handles := decryption_handles g in
    let requestId' := oracle_requestId env in
    let g := set_requestId requestId' g in
    let g := set_revealPending true g in
    let s := set_game gameId g s in
    let s := set_requestToGame (<[requestId' := gameId]> (_requestToGame s)) s in
    Ok (emit (RevealRequested gameId requestId') s)
  else Ok s.

Definition autoSettle (env : Env) (gameId : N) : Contract -> Result (bool * Contract) :=
  gameExists gameId (fun s =>
    let g := game s gameId in
    require (negb (settled g)) orelse AlreadySettled ;;
    require (endTime g <=? block_timestamp env) orelse RoundStillActive ;;
    if (block_chainid env =? 31337) || (block_chainid env =? 1337) then
      s <- autoSettle_request env gameId s ;;
      Ok (true, s)
    else
      s <- autoSettle_request env gameId s ;;
      Ok (true, s)).

Definition claimCreator (env : Env) (gameId : N) : Contract -> Result Contract :=
  nonReentrant (gameExists gameId (fun s =>
    let g := game s gameId in
    require (settled g) orelse NotSettled ;;
    require (msg_sender env =? creator g) orelse NotCreator ;;
    require (negb (creatorClaimed g)) orelse AlreadyClaimed ;;
    amount <- checked_add (creatorShare g) (creatorBonusRemainder g) ;;
    let s := set_game gameId (set_creatorClaimed true g) s in
    s <- _safeTransfer env (msg_sender env) amount s ;;
    Ok (emit (CreatorClaimed gameId (msg_sender env) amount) s))).

Definition claimWinnings (env : Env) (gameId : N) : Contract -> Result Contract :=
  nonReentrant (gameExists gameId (fun s =>
    let g := game s gameId in
    require (settled g) orelse NotSettled ;;
    let p := participant g (msg_sender env) in
    require (exists_ p) orelse NotChallenger ;;
    require (won p) orelse NotEligible ;;
    require (negb (claimed p)) orelse AlreadyClaimed ;;
    require (0 <? payoutPerWinner g) orelse NothingToClaim ;;
    let s := set_game gameId (set_participant (msg_sender env) (set_claimed true p) g) s in
    s <- _safeTransfer env (msg_sender env) (payoutPerWinner g) s ;;
    Ok (emit (WinningsClaimed gameId (msg_sender env)
                (payoutPerWinner (game s gameId))) s))).

(** Views. *)

Definition getGame (gameId : N) : Contract -> Result GameSummary :=
  gameExists gameId (fun s =>
    let g := game s gameId in
    total <- checked_add (creatorShare g) (creatorBonusRemainder g) ;;
    Ok {| gs_creator := creator g;
          gs_minStake := minStake g;
          gs_createdAt := createdAt g;
          gs_endTime := endTime g;
          gs_rewardPool := rewardPool g;
          gs_totalPot := totalPot g;
          gs_revealPending := revealPending g;
          gs_settled := settled g;
          gs_autoSettleEnabled := autoSettleEnabled g;
          gs_revealedNumber := revealedNumber g;
          gs_numberIsBig := numberIsBig g;
          gs_winnersCount := winnersCount g;
          gs_creatorShare := total;
          gs_payoutPerWinner := payoutPerWinner g;
          gs_participantCount := N.of_nat (length (participantList g));
          gs_creatorClaimed := creatorClaimed g |}).

Definition getParticipant (gameId : N) (account : address)
    : Contract -> Result ParticipantView :=
  gameExists gameId (fun s =>
    let p := participant (game s gameId) account in
    Ok {| pv_stake := stake p;
          pv_exists := exists_ p;
          pv_won := won p;
          pv_claimed := claimed p;
          pv_choiceRevealed := choiceRevealed p;
          pv_guessedBig := guessedBig p |}).

Definition listParticipants (gameId : N) : Contract -> Result (list address) :=
  gameExists gameId (fun s => Ok (participantList (game s gameId))).

Definition getEncryptedSecret (gameId : N) : Contract -> Result bytes32 :=
  gameExists gameId (fun s => Ok (secretNumber (game s gameId))).

Definition totalGames (s : Contract) : N := nextGameId s.

(** [_completeSettlementWithAutoPayout] is private and called from
    nowhere; it is given for completeness and is no part of [dispatch]. *)
Definition _completeSettlementWithAutoPayout (env : Env) (gameId : N) (revealedNumber' : N)
    (guesses : list bool) (s : Contract) : Result (N * N * N * Contract) :=
  r <- _completeSettlement (game s gameId) revealedNumber' guesses ;;
  let '(winnersCount', creatorPayout, perWinner, g) := r in
  let s := set_game gameId g s in
  if 0 <? creatorPayout then
    let s := set_game gameId (set_creatorClaimed true (game s gameId)) s in
    s <- _safeTransfer env (creator (game s gameId)) creatorPayout s ;;
    let s := emit (CreatorClaimed gameId (creator (game s gameId)) creatorPayout) s in
    Ok (winnersCount', creatorPayout, perWinner, s)
  else Ok (winnersCount', creatorPayout, perWinner, s).

(** ** Transactions *)

Inductive Call : Type :=
  | CreateGame (msg_value : N) (secretNumberHandle : bytes32) (inputProof : bytes)
      (secretNumberHash' : bytes32) (minStake' endTime' rewardPool' : N)
      (enableAutoSettle : bool)
  | JoinGame (msg_value gameId : N) (guessHandle : bytes32) (inputProof : bytes)
  | RequestReveal (gameId : N)
  | RevealCallback (requestId' : N) (cleartexts decryptionProof : bytes)
  | DebugReveal (gameId revealedNumber' : N) (guesses : list bool)
  | FairReveal (gameId originalSecretNumber : N) (salt : bytes32)
  | AutoSettle (gameId : N)
  | ClaimCreator (gameId : N)
  | ClaimWinnings (gameId : N).

Definition state_of {A : Type} (r : Result (A * Contract)) : Result Contract :=
  x <- r ;; Ok (snd x).

Definition dispatch (env : Env) (c : Call) (s : Contract) : Result Contract :=
  match c with
  | CreateGame v h pr hash ms et rp auto =>
      state_of (createGame env v h pr hash ms et rp auto s)
  | JoinGame v gameId h pr => joinGame env v gameId h pr s
  | RequestReveal gameId => requestReveal env gameId s
  | RevealCallback rid ct pr => state_of (revealCallback env rid ct pr s)
  | DebugReveal gameId n guesses => state_of (debugReveal env gameId n guesses s)
  | FairReveal gameId n salt => state_of (fairReveal env gameId n salt s)
  | AutoSettle gameId => state_of (autoSettle env gameId s)
  | ClaimCreator gameId => claimCreator env gameId s
  | ClaimWinnings gameId => claimWinnings env gameId s
  end.

End Contract.

Arguments Call : clear implicits.

(** Revert semantics: a failing call leaves the state as it was. *)
Definition apply_call `{External}
    (call_value : Env -> address -> N -> Contract -> option Contract)
    (env : Env) (c : Call) (s : Contract) : Contract :=
  match dispatch call_value env c s with
  | Ok s' => s'
  | Err _ => s
  end.

(** ** Recipients that call back *)

(** The code of a recipient of value, as far as the contract can tell:
    [Reenter sender rid c inner rest] calls entry point [c] of the contract
    as [sender] in the same block (a failure of that call is caught; [inner]
    is the recipient of a transfer made during it), then goes on as [rest];
    [Return ok] ends the call, successfully or not. *)
Inductive Script : Type :=
  | Return (ok : bool)
  | Reenter (sender : address) (rid : N) (c : Call) (inner rest : Script).

Definition nested_env (env : Env) (sender : address) (rid : N) : Env :=
  {| msg_sender := sender;
     block_timestamp := block_timestamp env;
     block_chainid := block_chainid env;
     oracle_requestId := rid |}.

Fixpoint run `{External} (sc : Script) (env : Env) (to : address) (amount : N)
    (s : Contract) {struct sc} : option Contract :=
  match sc with
  | Return ok => if ok then Some s else None
  | Reenter sender rid c inner rest =>
      run rest env to amount (apply_call (run inner) (nested_env env sender rid) c s)
  end.

(** An oracle for examples: handles are the plaintexts, every proof is
    accepted, cleartexts are one byte per value. *)
Definition byte_bool (b : Byte.byte) : bool :=
  negb (Byte.to_N b =? 0).

Definition plain_oracle : External := {|
  keccak256_packed n salt := n + 256 * salt;
  FHE_fromExternal_euint8 h _ _ := Some h;
  FHE_fromExternal_ebool h _ _ := Some h;
  FHE_checkSignatures _ _ _ := true;
  abi_decode_uint8 ct :=
    match ct with
    | [b] => Some (Byte.to_N b)
    | _ => None
    end;
  abi_decode_uint8_bools ct :=
    match ct with
    | b :: bs => Some (Byte.to_N b, map byte_bool bs)
    | [] => None
    end
|}.

(** ** Transactions and reachable states *)

(** A top-level transaction: a call, its context, and what the recipient of
    a transfer made during it does. *)
Record Tx : Type := {
  tx_env : Env;
  tx_call : Call;
  tx_recipient : Script
}.

Definition exec `{External} (tx : Tx) (s : Contract) : Result Contract :=
  dispatch (run (tx_recipient tx)) (tx_env tx) (tx_call tx) s.

Definition apply_tx `{External} (tx : Tx) (s : Contract) : Contract :=
  apply_call (run (tx_recipient tx)) (tx_env tx) (tx_call tx) s.

Definition run_txs `{External} (txs : list Tx) (s : Contract) : Contract :=
  foldl (fun s tx => apply_tx tx s) s txs.

(** States reached from deployment by transactions in blocks of
    non-decreasing time; the index is the time of the latest block. *)
Inductive reachable `{External} : N -> Contract -> Prop :=
  | reachable_initial : reachable 0 initial
  | reachable_tx (now : N) (s : Contract) (tx : Tx) :
      reachable now s ->
      now <= block_timestamp (tx_env tx) ->
      reachable (block_timestamp (tx_env tx)) (apply_tx tx s).

Fixpoint ordered (now : N) (txs : list Tx) : bool :=
  match txs with
  | [] => true
  | tx :: rest =>
      (now <=? block_timestamp (tx_env tx)) && ordered (block_timestamp (tx_env tx)) rest
  end.

Definition final_time (now : N) (txs : list Tx) : N :=
  foldl (fun _ tx => block_timestamp (tx_env tx)) now txs.

(** * Vocabulary of the properties *)

(** ** The settlement computation *)

(** A participant as the loop may leave it: only the reveal fields differ. *)
Definition revealed_only (p p' : Participant) : Prop :=
  choice p' = choice p /\ stake p' = stake p /\ exists_ p' = exists_ p /\
  won p' = won p /\ claimed p' = claimed p.

Definition reveal (b : bool) (p : Participant) : Participant :=
  set_guessedBig b (set_choiceRevealed true p).

(** The fields [_completeSettlement] writes on every path. *)
Definition settle_fields (n : N) (g : Game) : Game :=
  set_creatorBonusRemainder 0
    (set_payoutPerWinner 0
       (set_creatorShare (totalPot g)
          (set_winnersCount 0
             (set_numberIsBig (5 <? n)
                (set_revealedNumber n (set_settled true (set_revealPending false g))))))).

(** The split as the specification words it, for pot [P] and [k] winners:
    [(creatorShare, payoutPerWinner, creatorBonusRemainder)]. *)
Definition spec_split (P k : N) : N * N * N :=
  let creatorShare := P / 2 in
  let winnersPortion := P - creatorShare in
  let payoutPerWinner := if 0 <? k then winnersPortion / k else 0 in
  (creatorShare, payoutPerWinner, winnersPortion - payoutPerWinner * k).

(** The split a game records. *)
Definition recorded_split (g : Game) : N * N * N :=
  (creatorShare g, payoutPerWinner g, creatorBonusRemainder g).

(** ** What a call can never undo *)

Record participant_extends (p p' : Participant) : Prop := {
  pe_exists : exists_ p = true -> exists_ p' = true;
  pe_won : won p' = won p;
  pe_claimed : claimed p = true -> claimed p' = true
}.

Record game_extends (g g' : Game) : Prop := {
  ge_creator : creator g' = creator g;
  ge_settled : settled g = true -> settled g' = true;
  ge_creatorClaimed : creatorClaimed g = true -> creatorClaimed g' = true;
  ge_participant : forall a, participant_extends (participant g a) (participant g' a)
}.

(** Games are only ever added, and an existing game only moves forward. *)
Definition grows (s s' : Contract) : Prop :=
  nextGameId s <= nextGameId s' /\
  forall gid, gid < nextGameId s -> game_extends (game s gid) (game s' gid).

(** ** The ledger invariant *)

Definition stakes_of (g : Game) (l : list address) : N :=
  foldr (fun a acc => stake (participant g a) + acc) 0 l.

Abbreviation sum_stakes g := (stakes_of g (participantList g)).

(** What holds of every created game; [now] is the time of the latest
    block. *)
Record game_inv (now : N) (g : Game) : Prop := {
  gi_reward : MIN_CREATOR_REWARD <= rewardPool g;
  gi_minStake : MIN_STAKE <= minStake g;
  gi_joined : forall a, a ∈ participantList g ->
      exists_ (participant g a) = true /\ minStake g <= stake (participant g a);
  gi_nodup : NoDup (participantList g);
  gi_pot : totalPot g = rewardPool g + sum_stakes g;
  gi_pending : settled g = true -> revealPending g = false;
  gi_deadline : settled g = true \/ revealPending g = true -> endTime g <= now;
  gi_split : settled g = true ->
      creatorShare g + winnersCount g * payoutPerWinner g + creatorBonusRemainder g
        = totalPot g /\
      0 < creatorShare g + creatorBonusRemainder g;
  gi_empty : settled g = true -> participantList g = [] ->
      winnersCount g = 0 /\ creatorShare g = totalPot g /\
      payoutPerWinner g = 0 /\ creatorBonusRemainder g = 0
}.

Definition Inv (now : N) (s : Contract) : Prop :=
  (forall gid, gid < nextGameId s -> game_inv now (game s gid)) /\
  (forall gid, nextGameId s <= gid -> _games s !! gid = None).

(** The post-reveal fields, the pot and the participant list of a settled
    game. *)
Definition post_reveal (g : Game) : N * bool * N * N * N * N :=
  (revealedNumber g, numberIsBig g, winnersCount g, creatorShare g,
   payoutPerWinner g, creatorBonusRemainder g).

Definition settled_same (g g' : Game) : Prop :=
  settled g' = true /\ post_reveal g' = post_reveal g /\
  totalPot g' = totalPot g /\ participantList g' = participantList g.

Definition frozen (s s' : Contract) : Prop :=
  forall gid, settled (game s gid) = true -> settled_same (game s gid) (game s' gid).

(** One step, as far as the games go, and with the guard flag restored. *)
Definition step_games (now : N) (s s' : Contract) : Prop :=
  grows s s' /\ (Inv now s -> Inv now s' /\ frozen s s').

Definition step_ok (now : N) (s s' : Contract) : Prop :=
  step_games now s s' /\ _status s' = _status s.

(** ** Ledger moves *)

(** The writes of [createGame], [joinGame] and of a decryption request on
    the game they work on. *)
Definition create_write (c : address) (ms et t rp : N) (hh h : bytes32) (auto : bool)
    (g : Game) : Game :=
  set_autoSettleEnabled auto (set_secretNumber h (set_secretNumberHash hh
    (set_totalPot rp (set_rewardPool rp (set_createdAt t (set_endTime et
       (set_minStake ms (set_creator c g)))))))).

Definition join_write (a : address) (v : N) (h : bytes32) (g : Game) : Game :=
  set_participantList (participantList g ++ [a])
    (set_participant a (set_exists true (set_stake v (set_choice h (participant g a))))
       (set_totalPot (totalPot g + v) g)).

Definition request_write (rid : N) (g : Game) : Game :=
  set_requestId rid (set_revealPending true g).

Definition claim_event (e : Event) : bool :=
  match e with
  | CreatorClaimed _ _ _ | WinningsClaimed _ _ _ => true
  | _ => false
  end.

(** What the entry points do to the storage, one write at a time, with what
    the code has checked before the write; [now] is the time of the block. *)
Inductive move (now : N) (s : Contract) : Contract -> Prop :=
  | move_create (c : address) (ms et rp : N) (hh h : bytes32) (auto : bool) :
      now + MIN_DURATION < et -> MIN_STAKE <= ms -> MIN_CREATOR_REWARD <= rp ->
      move now s
        (emit (GameCreated (nextGameId s) c ms et rp)
           (set_game (nextGameId s)
              (create_write c ms et now rp hh h auto (game s (nextGameId s)))
              (set_nextGameId (nextGameId s + 1) s)))
  | move_join (gid : N) (a : address) (v : N) (h : bytes32) :
      gid < nextGameId s -> now < endTime (game s gid) ->
      revealPending (game s gid) = false -> settled (game s gid) = false ->
      a <> creator (game s gid) -> exists_ (participant (game s gid) a) = false ->
      minStake (game s gid) <= v -> totalPot (game s gid) + v <= MAX_UINT256 ->
      move now s (emit (GameJoined gid a v) (set_game gid (join_write a v h (game s gid)) s))
  | move_request (gid rid : N) :
      gid < nextGameId s -> endTime (game s gid) <= now ->
      settled (game s gid) = false -> revealPending (game s gid) = false ->
      move now s
        (emit (RevealRequested gid rid)
           (set_requestToGame (<[rid := gid]> (_requestToGame s))
              (set_game gid (request_write rid (game s gid)) s)))
  | move_settle (gid n : N) (guesses : list bool) (w c p : N) (g1 : Game) :
      _completeSettlement (game s gid) n guesses = Ok (w, c, p, g1) ->
      revealPending (game s gid) = true \/
        (gid < nextGameId s /\ settled (game s gid) = false /\
         endTime (game s gid) <= now) ->
      move now s (emit (GameSettled gid n (5 <? n) w c p) (set_game gid g1 s))
  | move_pay_creator (gid : N) :
      settled (game s gid) = true -> creatorClaimed (game s gid) = false ->
      move now s (set_game gid (set_creatorClaimed true (game s gid)) s)
  | move_pay_winner (gid : N) (a : address) :
      gid < nextGameId s -> settled (game s gid) = true ->
      exists_ (participant (game s gid) a) = true ->
      won (participant (game s gid) a) = true ->
      claimed (participant (game s gid) a) = false ->
      0 < payoutPerWinner (game s gid) ->
      move now s
        (set_game gid
           (set_participant a (set_claimed true (participant (game s gid) a)) (game s gid))
           s)
  | move_log_claim (e : Event) :
      claim_event e = true -> move now s (emit e s)
  | move_guard (b : bool) : move now s (set_status b s).

Abbreviation moves now := (rtc (move now)).

(** ** What later calls keep *)

(** The parameters a game is created with. *)
Definition game_params (g : Game) : address * N * N * N * N * bytes32 * bytes32 * bool :=
  (creator g, minStake g, endTime g, createdAt g, rewardPool g, secretNumber g,
   secretNumberHash g, autoSettleEnabled g).

(** The reveal outcome recorded for a participant. *)
Definition revealed_guess (p : Participant) : bool * bool :=
  (choiceRevealed p, guessedBig p).

(** What later calls keep of a game; [now] is the time of the earlier
    state. *)
Record game_kept (now : N) (g g' : Game) : Prop := {
  gk_params : game_params g' = game_params g;
  gk_list : participantList g `prefix_of` participantList g';
  gk_pot : totalPot g <= totalPot g';
  gk_closed : endTime g <= now ->
      participantList g' = participantList g /\ totalPot g' = totalPot g;
  gk_joined : forall a, exists_ (participant g a) = true ->
      exists_ (participant g' a) = true /\
      stake (participant g' a) = stake (participant g a) /\
      choice (participant g' a) = choice (participant g a);
  gk_request : revealPending g = true \/ settled g = true ->
      requestId g' = requestId g /\ (revealPending g' = true \/ settled g' = true);
  gk_revealed : settled g = true ->
      settled g' = true /\
      forall a, revealed_guess (participant g' a) = revealed_guess (participant g a)
}.

Definition kept (now : N) (s s' : Contract) : Prop :=
  nextGameId s <= nextGameId s' /\
  forall gid, gid < nextGameId s -> game_kept now (game s gid) (game s' gid).

(** ** Rosters, records and the log *)

(** What holds of every game slot, created or not, beyond the ledger
    invariant: the roster and the participant records agree, nobody is
    recorded as a winner, and the reveal fields are written by settlement
    only. *)
Record game_facts (g : Game) : Prop := {
  gf_listed : forall a, exists_ (participant g a) = true <-> a ∈ participantList g;
  gf_creator : creator g ∉ participantList g;
  gf_absent : forall a,
      exists_ (participant g a) = false -> participant g a = empty_participant;
  gf_nobody_won : forall a,
      won (participant g a) = false /\ claimed (participant g a) = false;
  gf_no_winner :
      winnersCount g = 0 /\ payoutPerWinner g = 0 /\ creatorBonusRemainder g = 0;
  gf_open : settled g = false ->
      revealedNumber g = 0 /\ numberIsBig g = false /\ creatorShare g = 0 /\
      creatorClaimed g = false /\
      forall a, choiceRevealed (participant g a) = false /\
                guessedBig (participant g a) = false;
  gf_settled : settled g = true ->
      numberIsBig g = (5 <? revealedNumber g) /\ creatorShare g = totalPot g /\
      forall a, a ∈ participantList g -> choiceRevealed (participant g a) = true;
  gf_pot : participantList g <> [] -> totalPot g <= MAX_UINT256
}.

Definition Facts (s : Contract) : Prop := forall gid, game_facts (game s gid).

(** The view of an address that never joined. *)
Definition zero_view : ParticipantView :=
  {| pv_stake := 0; pv_exists := false; pv_won := false; pv_claimed := false;
     pv_choiceRevealed := false; pv_guessedBig := false |}.

(** Game [g'] is game [g] settled on the number [n] with [guesses]: the
    outcome is recorded, the pot goes to the creator's share, and the
    participant at index [j] has the guess at index [j]. *)
Definition settled_on (n : N) (guesses : list bool) (g g' : Game) : Prop :=
  settled g' = true /\ revealPending g' = false /\
  revealedNumber g' = n /\ numberIsBig g' = (5 <? n) /\
  winnersCount g' = 0 /\ creatorShare g' = totalPot g /\ payoutPerWinner g' = 0 /\
  totalPot g' = totalPot g /\ participantList g' = participantList g /\
  creatorClaimed g' = creatorClaimed g /\
  forall j a, participantList g !! j = Some a ->
    exists b, guesses !! j = Some b /\
              guessedBig (participant g' a) = b /\
              choiceRevealed (participant g' a) = true /\
              stake (participant g' a) = stake (participant g a).

(** What the events of the ledger report of a game. *)
Definition created_data (g : Game) : address * N * N * N :=
  (creator g, minStake g, endTime g, rewardPool g).

Definition settled_data (g : Game) : N * bool * N * N * N :=
  (revealedNumber g, numberIsBig g, winnersCount g, creatorShare g, payoutPerWinner g).

Definition ledger_event (e : Event) : bool :=
  match e with
  | GameCreated _ _ _ _ _ | GameJoined _ _ _ | GameSettled _ _ _ _ _ _ => true
  | _ => false
  end.

(** The log and the storage tell the same story. *)
Record log_inv (s : Contract) : Prop := {
  li_created : forall gid c ms et rp,
      GameCreated gid c ms et rp ∈ events s <->
      gid < nextGameId s /\ (c, ms, et, rp) = created_data (game s gid);
  li_joined : forall gid a v,
      GameJoined gid a v ∈ events s <->
      a ∈ participantList (game s gid) /\ v = stake (participant (game s gid) a);
  li_settled : forall gid n b w c p,
      GameSettled gid n b w c p ∈ events s <->
      settled (game s gid) = true /\ (n, b, w, c, p) = settled_data (game s gid)
}.

(** The request registry names created games whose reveal was requested. *)
Definition registry_inv (s : Contract) : Prop :=
  forall rid gid, _requestToGame s !! rid = Some gid ->
    gid < nextGameId s /\
    (revealPending (game s gid) = true \/ settled (game s gid) = true).


(** ** Guards of the claims and of the fair reveal *)

(** The body of [claimCreator] once its two modifiers have passed. *)
Definition claimCreator_body `{External}
    (call_value : Env -> address -> N -> Contract -> option Contract)
    (env : Env) (gameId : N) (s : Contract) : Result Contract :=
  let g := game s gameId in
  require (settled g) orelse NotSettled ;;
  require (msg_sender env =? creator g) orelse NotCreator ;;
  require (negb (creatorClaimed g)) orelse AlreadyClaimed ;;
  amount <- checked_add (creatorShare g) (creatorBonusRemainder g) ;;
  s2 <- _safeTransfer call_value env (msg_sender env) amount
          (set_game gameId (set_creatorClaimed true g) (set_status true s)) ;;
  Ok (set_status false (emit (CreatorClaimed gameId (msg_sender env) amount) s2)).

Definition claimWinnings_body `{External}
    (call_value : Env -> address -> N -> Contract -> option Contract)
    (env : Env) (gameId : N) (s : Contract) : Result Contract :=
  let g := game s gameId in
  let p := participant g (msg_sender env) in
  require (settled g) orelse NotSettled ;;
  require (exists_ p) orelse NotChallenger ;;
  require (won p) orelse NotEligible ;;
  require (negb (claimed p)) orelse AlreadyClaimed ;;
  require (0 <? payoutPerWinner g) orelse NothingToClaim ;;
  s2 <- _safeTransfer call_value env (msg_sender env) (payoutPerWinner g)
          (set_game gameId (set_participant (msg_sender env) (set_claimed true p) g)
             (set_status true s)) ;;
  Ok (set_status false
        (emit (WinningsClaimed gameId (msg_sender env)
                 (payoutPerWinner (game s2 gameId))) s2)).

(** The error of a [fairReveal] whose pair does not match the commitment:
    that of the first guard that fails, in the order of the source. *)
Definition mismatch_error (env : Env) (gameId : N) (s : Contract) : Error :=
  let g := game s gameId in
  if negb (gameId <? nextGameId s) then GameNotFound
  else if settled g then AlreadySettled
  else if negb (endTime g <=? block_timestamp env) then RoundActive
  else if negb (msg_sender env =? creator g) then OnlyCreatorCanReveal
  else HashMismatch.

(** ** Example rounds *)

Section ExampleRounds.
#[local] Existing Instance plain_oracle.

Definition host : address := 100.
Definition alice : address := 101.
Definition bob : address := 102.

Definition local_env (sender ts : N) : Env :=
  {| msg_sender := sender; block_timestamp := ts; block_chainid := 31337;
     oracle_requestId := 7 |}.

Definition tx_by (sender ts : N) (c : Call) : Tx :=
  {| tx_env := local_env sender ts; tx_call := c; tx_recipient := Return true |}.

(** The host funds 100 wei and commits to the secret 8 with salt 42; the
    round closes at time 5000. *)
Definition create_round (autoSettle : bool) : Tx :=
  tx_by host 1000
    (CreateGame 100 8 [] (keccak256_packed 8 42) MIN_STAKE 5000 100 autoSettle).

(** Alice bets big, Bob bets small, both with the minimum stake. *)
Definition joined_txs : list Tx :=
  [ create_round false;
    tx_by alice 2000 (JoinGame MIN_STAKE 0 1 []);
    tx_by bob 2000 (JoinGame MIN_STAKE 0 0 []) ].

Definition joined : Contract := run_txs joined_txs initial.

Definition debug_settled_txs : list Tx :=
  joined_txs ++ [ tx_by host 6000 (DebugReveal 0 8 [true; false]) ].

Definition debug_settled : Contract := run_txs debug_settled_txs initial.

(** Nobody joins; the round is settled through the debug path. *)
Definition empty_settled_txs : list Tx :=
  [ create_round false; tx_by host 6000 (DebugReveal 0 8 []) ].

Definition empty_settled : Contract := run_txs empty_settled_txs initial.

(** Settlement through the oracle: request 7, answered with the secret 8
    and Alice's guess. *)
Definition oracle_settled_txs : list Tx :=
  [ create_round false;
    tx_by alice 2000 (JoinGame MIN_STAKE 0 1 []);
    tx_by bob 6000 (RequestReveal 0);
    tx_by 999 6001 (RevealCallback 7 [Byte.x08; Byte.x01] []) ].

Definition oracle_settled : Contract := run_txs oracle_settled_txs initial.

(** Both challengers bet small on a secret of 8: nobody wins. *)
Definition all_wrong_joined_txs : list Tx :=
  [ create_round false;
    tx_by alice 2000 (JoinGame MIN_STAKE 0 0 []);
    tx_by bob 2000 (JoinGame MIN_STAKE 0 0 []) ].

Definition all_wrong_joined : Contract := run_txs all_wrong_joined_txs initial.

Definition all_wrong : Contract :=
  apply_tx (tx_by host 6000 (DebugReveal 0 8 [false; false])) all_wrong_joined.

(** A storage state in which Alice is recorded as a winner of a payout of
    5 wei; no call of the contract writes [won], so it is given by hand. *)
Definition winner_recorded : Contract :=
  set_game 0
    (set_payoutPerWinner 5
       (set_participant alice
          {| choice := 1; stake := MIN_STAKE; exists_ := true; won := true;
             claimed := false; choiceRevealed := true; guessedBig := true |}
          (game debug_settled 0)))
    debug_settled.

(** A recipient of value, seen from the contract: the low-level call
    succeeds, leaving the state as it is, when it is a call to [to] with
    value [amount], and fails otherwise. *)
Definition pays_exactly (to amount : N) : Env -> address -> N -> Contract -> option Contract :=
  fun _ to' amount' s => if (to' =? to) && (amount' =? amount) then Some s else None.

(** The round of [joined], with a reveal requested by Bob under request
    id 7. *)
Definition pending_txs : list Tx :=
  joined_txs ++ [ tx_by bob 6000 (RequestReveal 0) ].

Definition pending : Contract := run_txs pending_txs initial.

(** A round with auto-settle enabled: Alice joins, Bob requests the reveal. *)
Definition auto_pending_txs : list Tx :=
  [ create_round true;
    tx_by alice 2000 (JoinGame MIN_STAKE 0 1 []);
    tx_by bob 6000 (RequestReveal 0) ].

Definition auto_pending : Contract := run_txs auto_pending_txs initial.

End ExampleRounds.

(** * Properties *)

(** ** Reading results *)

Lemma bind_Ok {A B : Type} (m : Result A) (k : A -> Result B) (b : B) :
  bind m k = Ok b -> exists a, m = Ok a /\ k a = Ok b.
Proof. destruct m as [a|e]; cbn; [eauto | discriminate]. Qed.

Lemma require_Ok {A : Type} (c : bool) (e : Error) (k : Result A) (a : A) :
  (if c then k else Err e) = Ok a -> c = true /\ k = Ok a.
Proof. destruct c; [auto | discriminate]. Qed.

Lemma of_option_Ok {A : Type} (o : option A) (e : Error) (a : A) :
  of_option o e = Ok a -> o = Some a.
Proof. destruct o; cbn; congruence. Qed.

Lemma checked_add_Ok (a b c : N) :
  checked_add a b = Ok c -> c = a + b /\ a + b <= MAX_UINT256.
Proof.
  unfold checked_add. destruct (a + b <=? MAX_UINT256) eqn:E; [|discriminate].
  intros [= <-]. apply N.leb_le in E. auto.
Qed.

Lemma checked_add_small (a b : N) :
  a + b <= MAX_UINT256 -> checked_add a b = Ok (a + b).
Proof. intros Hle. unfold checked_add. apply N.leb_le in Hle. now rewrite Hle. Qed.

Lemma state_of_Ok {A : Type} (r : Result (A * Contract)) (s' : Contract) :
  state_of r = Ok s' -> exists a, r = Ok (a, s').
Proof.
  unfold state_of. intros Hb. apply bind_Ok in Hb as ([a s1] & -> & [= <-]). eauto.
Qed.

(** Peel one [require], [bind] or conversion off a successful run [H]. *)
Ltac peel H :=
  let c := fresh "Hc" in
  let x := fresh "x" in
  let Hx := fresh "Hx" in
  lazymatch type of H with
  | (if _ then _ else Err _) = Ok _ => apply require_Ok in H as [c H]
  | bind _ _ = Ok _ => apply bind_Ok in H as (x & Hx & H); cbv beta in H
  | Ok _ = Ok _ => injection H as H
  end.

(** Reduce field reads of field writes, and nothing else. *)
Ltac fields :=
  cbn [choice stake exists_ won claimed choiceRevealed guessedBig
       set_choice set_stake set_exists set_claimed set_choiceRevealed set_guessedBig
       creator minStake endTime createdAt rewardPool totalPot secretNumber
       secretNumberHash revealPending settled autoSettleEnabled requestId
       revealedNumber numberIsBig winnersCount creatorShare payoutPerWinner
       creatorBonusRemainder creatorClaimed participantList participants
       set_creator set_minStake set_endTime set_createdAt set_rewardPool set_totalPot
       set_secretNumber set_secretNumberHash set_revealPending set_settled
       set_autoSettleEnabled set_requestId set_revealedNumber set_numberIsBig
       set_winnersCount set_creatorShare set_payoutPerWinner set_creatorBonusRemainder
       set_creatorClaimed set_participantList set_participants
       nextGameId _games _requestToGame _status events
       set_nextGameId set_games set_requestToGame set_status set_events] in *.

(** ** Storage reads after writes *)

Lemma game_set_game_eq (gid : N) (g : Game) (s : Contract) :
  game (set_game gid g s) gid = g.
Proof. unfold game, set_game. cbn. apply lookup_total_insert_eq. Qed.

Lemma game_set_game_ne (gid gid' : N) (g : Game) (s : Contract) :
  gid <> gid' -> game (set_game gid g s) gid' = game s gid'.
Proof. intros Hne. unfold game, set_game. cbn. now apply lookup_total_insert_ne. Qed.

Lemma participant_set_participant_eq (a : address) (p : Participant) (g : Game) :
  participant (set_participant a p g) a = p.
Proof. unfold participant, set_participant. cbn. apply lookup_total_insert_eq. Qed.

Lemma participant_set_participant_ne (a b : address) (p : Participant) (g : Game) :
  a <> b -> participant (set_participant a p g) b = participant g b.
Proof.
  intros Hne. unfold participant, set_participant. cbn.
  now apply lookup_total_insert_ne.
Qed.

Lemma game_fresh (s : Contract) (gid : N) :
  _games s !! gid = None -> game s gid = empty_game.
Proof. intros Hn. unfold game. rewrite lookup_total_alt, Hn. reflexivity. Qed.

(** ** The settlement loop *)

Lemma revealed_only_refl (p : Participant) : revealed_only p p.
Proof. repeat split. Qed.

Lemma revealed_only_trans (p q r : Participant) :
  revealed_only p q -> revealed_only q r -> revealed_only p r.
Proof. unfold revealed_only. intuition congruence. Qed.

Lemma reveal_loop_spec (remaining : nat) :
  forall (i : nat) (guesses : list bool) (g g' : Game),
    reveal_loop remaining i guesses g = Ok g' ->
    g' = set_participants (participants g') g /\
    forall a,
      (participant g' a = participant g a /\
       forall j, (i <= j < i + remaining)%nat -> participantList g !! j <> Some a) \/
      (exists j b, (i <= j < i + remaining)%nat /\ participantList g !! j = Some a /\
                   guesses !! j = Some b /\
                   participant g' a = reveal b (participant g a)).
Proof.
  induction remaining as [|remaining IH]; intros i guesses g g' Hrun; cbn in Hrun.
  - injection Hrun as <-. split; [now destruct g|].
    intros a. left. split; [reflexivity|]. intros j Hj. lia.
  - apply bind_Ok in Hrun as (addr & Haddr & Hrun). apply of_option_Ok in Haddr.
    apply bind_Ok in Hrun as (b & Hb & Hrun). apply of_option_Ok in Hb.
    cbv zeta in Hrun. apply IH in Hrun as [Hsame Hpart].
    split; [rewrite Hsame; reflexivity|].
    intros a. destruct (Hpart a) as [[Heq Hnot] | (j & b' & Hj & Hat & Hg & Heq)].
    + destruct (decide (addr = a)) as [->|Hne].
      * right. exists i, b. rewrite Heq, participant_set_participant_eq.
        repeat split; [lia | lia | assumption | assumption].
      * left. rewrite Heq, participant_set_participant_ne by assumption.
        split; [reflexivity|]. intros j Hj.
        destruct (decide (j = i)) as [->|Hji]; [congruence|].
        apply (Hnot j). lia.
    + right. exists j, b'. cbn in Hat. rewrite Heq.
      repeat split; [lia | lia | assumption | assumption |].
      destruct (decide (addr = a)) as [->|Hne].
      * now rewrite participant_set_participant_eq.
      * now rewrite participant_set_participant_ne.
Qed.

(** The loop runs to its end when both arrays are long enough. *)
Lemma reveal_loop_total (remaining : nat) :
  forall (i : nat) (guesses : list bool) (g : Game),
    (i + remaining <= length (participantList g))%nat ->
    (i + remaining <= length guesses)%nat ->
    exists g', reveal_loop remaining i guesses g = Ok g'.
Proof.
  induction remaining as [|remaining IH]; intros i guesses g Hl Hg; cbn.
  - eauto.
  - destruct (lookup_lt_is_Some_2 (participantList g) i) as [a Ha]; [lia|].
    destruct (lookup_lt_is_Some_2 guesses i) as [b Hb]; [lia|].
    rewrite Ha, Hb. cbn. apply IH; cbn; lia.
Qed.

Lemma revealed_only_reveal (b : bool) (p : Participant) : revealed_only p (reveal b p).
Proof. repeat split. Qed.

Lemma reveal_loop_revealed_only (remaining i : nat) (guesses : list bool) (g g' : Game) :
  reveal_loop remaining i guesses g = Ok g' ->
  forall a, revealed_only (participant g a) (participant g' a).
Proof.
  intros Hrun a. apply reveal_loop_spec in Hrun as [_ Hpart].
  destruct (Hpart a) as [[-> _] | (j & b & _ & _ & _ & ->)].
  - apply revealed_only_refl.
  - apply revealed_only_reveal.
Qed.

(** ** The shared settlement computation *)

Lemma completeSettlement_spec (g : Game) (n : N) (guesses : list bool)
    (w c p : N) (g' : Game) :
  _completeSettlement g n guesses = Ok (w, c, p, g') ->
  w = 0 /\ c = totalPot g /\ p = 0 /\
  g' = settle_fields n (set_participants (participants g') g) /\
  (forall a, revealed_only (participant g a) (participant g' a)) /\
  (participantList g = [] -> participants g' = participants g) /\
  (participantList g <> [] -> length guesses = length (participantList g)).
Proof.
  unfold _completeSettlement. cbv zeta.
  change (participantList (set_numberIsBig _ _)) with (participantList g).
  destruct (length (participantList g) =? 0)%nat eqn:Hlen.
  - intros [= <- <- <- <-]. apply Nat.eqb_eq in Hlen.
    split; [reflexivity|]. split; [reflexivity|]. split; [reflexivity|].
    split; [reflexivity|]. split; [intros a; apply revealed_only_refl|].
    split; [reflexivity|].
    intros Hne. now destruct (participantList g).
  - intros Hrun. peel Hrun. peel Hrun. injection Hrun as <- <- <- <-.
    apply Nat.eqb_eq in Hc.
    pose proof (reveal_loop_revealed_only _ _ _ _ _ Hx) as Hrev.
    apply reveal_loop_spec in Hx as [Hsame _].
    split; [reflexivity|]. split; [rewrite Hsame; reflexivity|]. split; [reflexivity|].
    split; [rewrite Hsame; reflexivity|].
    split; [intros a; apply (Hrev a)|].
    split; [intros Hnil; rewrite Hnil in Hlen; discriminate|].
    intros _. exact Hc.
Qed.

(** Settlement succeeds whenever the guesses are aligned with the
    participants (and always when nobody joined). *)
Lemma completeSettlement_total (g : Game) (n : N) (guesses : list bool) :
  participantList g = [] \/ length guesses = length (participantList g) ->
  exists g', _completeSettlement g n guesses = Ok (0, totalPot g, 0, g').
Proof.
  intros Hlen. unfold _completeSettlement. cbv zeta.
  change (participantList (set_numberIsBig _ _)) with (participantList g).
  destruct (length (participantList g) =? 0)%nat eqn:Hz; [eauto|].
  destruct Hlen as [Hnil | Hlen]; [rewrite Hnil in Hz; discriminate|].
  rewrite Hlen, Nat.eqb_refl.
  destruct (reveal_loop_total (length (participantList g)) 0 guesses
              (set_numberIsBig (5 <? n) (set_revealedNumber n
                 (set_settled true (set_revealPending false g)))))
    as [g1 Hg1]; [cbn; lia | cbn; lia |].
  rewrite Hg1. cbn [bind].
  apply reveal_loop_spec in Hg1 as [Hsame _].
  assert (Hpot : totalPot g1 = totalPot g) by (rewrite Hsame; reflexivity).
  cbn. rewrite Hpot. eauto.
Qed.

(** ** What a call can never undo *)

Lemma participant_extends_refl (p : Participant) : participant_extends p p.
Proof. now constructor. Qed.

Lemma participant_extends_trans (p q r : Participant) :
  participant_extends p q -> participant_extends q r -> participant_extends p r.
Proof. intros [] []. constructor; intros; try congruence; auto. Qed.

Lemma revealed_only_extends (p p' : Participant) :
  revealed_only p p' -> participant_extends p p'.
Proof. intros (_ & _ & He & Hw & Hc). constructor; congruence. Qed.

Lemma game_extends_refl (g : Game) : game_extends g g.
Proof. constructor; auto using participant_extends_refl. Qed.

Lemma game_extends_trans (g h k : Game) :
  game_extends g h -> game_extends h k -> game_extends g k.
Proof.
  intros [] []. constructor; intros; try congruence; auto.
  eapply participant_extends_trans; eauto.
Qed.

Lemma grows_refl (s : Contract) : grows s s.
Proof. split; [lia | intros; apply game_extends_refl]. Qed.

Lemma grows_trans (s t u : Contract) : grows s t -> grows t u -> grows s u.
Proof.
  intros [Hn1 Hg1] [Hn2 Hg2]. split; [lia|].
  intros gid Hlt. eapply game_extends_trans; [apply Hg1 | apply Hg2]; lia.
Qed.

(** ** The ledger invariant *)

Lemma frozen_refl (s : Contract) : frozen s s.
Proof. intros gid Hs. repeat split; assumption. Qed.

Lemma frozen_trans (s t u : Contract) : frozen s t -> frozen t u -> frozen s u.
Proof.
  intros H1 H2 gid Hs. destruct (H1 gid Hs) as (Hs' & Hp & Ht & Hl).
  destruct (H2 gid Hs') as (Hs'' & Hp' & Ht' & Hl').
  repeat split; congruence.
Qed.

Lemma step_games_refl (now : N) (s : Contract) : step_games now s s.
Proof. split; [apply grows_refl | intros; split; [assumption | apply frozen_refl]]. Qed.

Lemma step_games_trans (now : N) (s t u : Contract) :
  step_games now s t -> step_games now t u -> step_games now s u.
Proof.
  intros [Hg1 Hi1] [Hg2 Hi2]. split; [eapply grows_trans; eauto|].
  intros Hinv. destruct (Hi1 Hinv) as [Hinv' Hf1]. destruct (Hi2 Hinv') as [Hinv'' Hf2].
  split; [assumption | eapply frozen_trans; eauto].
Qed.

Lemma step_ok_refl (now : N) (s : Contract) : step_ok now s s.
Proof. split; [apply step_games_refl | reflexivity]. Qed.

Lemma step_ok_trans (now : N) (s t u : Contract) :
  step_ok now s t -> step_ok now t u -> step_ok now s u.
Proof.
  intros [H1 E1] [H2 E2]. split; [eapply step_games_trans; eauto | congruence].
Qed.

Lemma game_inv_mono (now now' : N) (g : Game) :
  now <= now' -> game_inv now g -> game_inv now' g.
Proof. intros Hle []. constructor; auto. intros Hs. specialize (gi_deadline0 Hs). lia. Qed.

Lemma Inv_mono (now now' : N) (s : Contract) : now <= now' -> Inv now s -> Inv now' s.
Proof.
  intros Hle [Hg Hf]. split; [|assumption].
  intros gid Hlt. eapply game_inv_mono; eauto.
Qed.

Lemma Inv_initial (now : N) : Inv now initial.
Proof. split; [intros gid Hlt; cbn in Hlt; lia | intros; apply lookup_empty]. Qed.

(** A settled or pending game has been created. *)
Lemma Inv_created (now : N) (s : Contract) (gid : N) :
  Inv now s ->
  settled (game s gid) = true \/ revealPending (game s gid) = true ->
  gid < nextGameId s.
Proof.
  intros [_ Hf] Hflag. destruct (N.lt_ge_cases gid (nextGameId s)) as [|Hge]; [assumption|].
  rewrite (game_fresh s gid (Hf gid Hge)) in Hflag. cbn in Hflag. intuition discriminate.
Qed.

(** ** The invariant, game by game *)

Lemma stakes_of_ext (g g' : Game) (l : list address) :
  (forall a, a ∈ l -> stake (participant g' a) = stake (participant g a)) ->
  stakes_of g' l = stakes_of g l.
Proof.
  unfold stakes_of. induction l as [|a l IH]; intros Hs; cbn; [reflexivity|].
  rewrite Hs by apply list_elem_of_here.
  rewrite IH; [reflexivity|]. intros b Hb. apply Hs. now apply list_elem_of_further.
Qed.

Lemma stakes_of_app (g : Game) (l1 l2 : list address) :
  stakes_of g (l1 ++ l2) = stakes_of g l1 + stakes_of g l2.
Proof.
  unfold stakes_of. induction l1 as [|a l1 IH]; cbn; [reflexivity | rewrite IH; lia].
Qed.

(** A game whose money, list and lifecycle fields are those of [g]. *)
Lemma game_inv_same (now : N) (g g' : Game) :
  game_inv now g ->
  rewardPool g' = rewardPool g -> minStake g' = minStake g ->
  totalPot g' = totalPot g -> participantList g' = participantList g ->
  endTime g' = endTime g -> settled g' = settled g ->
  revealPending g' = revealPending g -> post_reveal g' = post_reveal g ->
  (forall a, stake (participant g' a) = stake (participant g a) /\
             exists_ (participant g' a) = exists_ (participant g a)) ->
  game_inv now g'.
Proof.
  intros [] Hr Hm Ht Hl He Hs Hp Hpost Hpart.
  injection Hpost as _ _ Hw Hcs Hpp Hcb.
  assert (Hsum : stakes_of g' (participantList g) = sum_stakes g).
  { apply stakes_of_ext. intros a _. apply Hpart. }
  constructor; rewrite ?Hr, ?Hm, ?Ht, ?Hl, ?He, ?Hs, ?Hp, ?Hw, ?Hcs, ?Hpp, ?Hcb, ?Hsum;
    try assumption.
  intros a Ha. destruct (Hpart a) as [-> ->]. auto.
Qed.

Lemma game_inv_request (now : N) (g : Game) (rid : N) :
  game_inv now g -> settled g = false -> endTime g <= now ->
  game_inv now (set_requestId rid (set_revealPending true g)) /\
  game_inv now (set_revealPending true (set_requestId rid g)).
Proof.
  intros [] Hs Hd.
  split; constructor; fields; try assumption; rewrite ?Hs; try discriminate; auto.
Qed.

Lemma game_inv_settle (now : N) (g : Game) (n : N) (ps' : gmap address Participant) :
  game_inv now g -> endTime g <= now ->
  (forall a, revealed_only (participant g a) (ps' !!! a)) ->
  game_inv now (settle_fields n (set_participants ps' g)).
Proof.
  intros [] Hd Hrev.
  assert (Hsum : sum_stakes (settle_fields n (set_participants ps' g)) = sum_stakes g).
  { change (participantList (settle_fields n (set_participants ps' g)))
      with (participantList g).
    apply stakes_of_ext. intros a _. apply (Hrev a). }
  constructor; unfold settle_fields in *; fields; try assumption; auto.
  - intros a Ha. destruct (Hrev a) as (_ & Hst & Hex & _).
    change (participant _ a) with (ps' !!! a).
    rewrite Hst, Hex. now apply gi_joined0.
  - rewrite Hsum. assumption.
  - intros _. unfold MIN_CREATOR_REWARD in *. lia.
Qed.

Lemma game_inv_join (now : N) (g : Game) (a : address) (v h : N) :
  game_inv now g -> settled g = false -> revealPending g = false ->
  exists_ (participant g a) = false -> minStake g <= v ->
  game_inv now
    (set_participantList (participantList g ++ [a])
       (set_participant a
          (set_exists true (set_stake v (set_choice h (participant g a))))
          (set_totalPot (totalPot g + v) g))).
Proof.
  intros [] Hs Hp Hex Hv.
  assert (Hnot : a ∉ participantList g).
  { intros Hin. destruct (gi_joined0 a Hin) as [He _]. congruence. }
  set (p' := set_exists true (set_stake v (set_choice h (participant g a)))).
  set (g1 := set_participant a p' (set_totalPot (totalPot g + v) g)).
  set (g2 := set_participantList (participantList g ++ [a]) g1).
  assert (Hsame : forall b, b <> a -> participant g2 b = participant g b).
  { intros b Hb. change (participant g2 b) with (participant g1 b). unfold g1.
    rewrite participant_set_participant_ne by congruence. reflexivity. }
  assert (Hnew : participant g2 a = p').
  { change (participant g2 a) with (participant g1 a).
    apply participant_set_participant_eq. }
  assert (Hstake : stake p' = v) by reflexivity.
  assert (Hexists : exists_ p' = true) by reflexivity.
  assert (Hlist : participantList g2 = participantList g ++ [a]) by reflexivity.
  assert (Hpot : totalPot g2 = totalPot g + v) by reflexivity.
  assert (Hset : settled g2 = false) by exact Hs.
  assert (Hpen : revealPending g2 = false) by exact Hp.
  assert (Hrew : rewardPool g2 = rewardPool g) by reflexivity.
  assert (Hmin : minStake g2 = minStake g) by reflexivity.
  clearbody g2 p'. clear g1.
  constructor; rewrite ?Hlist, ?Hpot, ?Hset, ?Hpen, ?Hrew, ?Hmin;
    try assumption; try discriminate.
  - intros b Hb. apply elem_of_app in Hb as [Hb | Hb].
    + rewrite Hsame by (intros ->; contradiction). now apply gi_joined0.
    + apply list_elem_of_singleton in Hb as ->. rewrite Hnew, Hstake, Hexists. auto.
  - apply NoDup_app. repeat split; [assumption | | apply NoDup_singleton].
    intros b Hb Hb'. apply list_elem_of_singleton in Hb' as ->. contradiction.
  - rewrite stakes_of_app.
    rewrite (stakes_of_ext g);
      [|intros b Hb; rewrite Hsame; [reflexivity | intros ->; contradiction]].
    unfold stakes_of at 2. cbn [foldr]. rewrite Hnew, Hstake. lia.
  - intros [|]; discriminate.
Qed.

Lemma game_inv_create (now : N) (c ms et t rp hh h : N) (e : bool) :
  MIN_CREATOR_REWARD <= rp -> MIN_STAKE <= ms ->
  game_inv now
    (set_autoSettleEnabled e (set_secretNumber h (set_secretNumberHash hh
       (set_totalPot rp (set_rewardPool rp (set_createdAt t (set_endTime et
          (set_minStake ms (set_creator c empty_game))))))))).
Proof.
  intros Hr Hm. constructor; unfold empty_game; fields; try assumption; try discriminate.
  - intros a Ha. apply elem_of_nil in Ha. contradiction.
  - apply NoDup_nil_2.
  - unfold stakes_of. cbn [foldr]. lia.
  - intros [|]; discriminate.
Qed.

(** ** Steps of the contract *)

Lemma step_games_set_game (now : N) (s : Contract) (gid : N) (g' : Game) :
  (gid < nextGameId s -> game_extends (game s gid) g') ->
  (Inv now s ->
   gid < nextGameId s /\ game_inv now g' /\
   (settled (game s gid) = true -> settled_same (game s gid) g')) ->
  step_games now s (set_game gid g' s).
Proof.
  intros Hext Hinv.
  assert (Hnext : nextGameId (set_game gid g' s) = nextGameId s) by reflexivity.
  split.
  - split; [rewrite Hnext; lia|]. intros gid' Hlt.
    destruct (decide (gid = gid')) as [<-|Hne].
    + rewrite game_set_game_eq. auto.
    + rewrite game_set_game_ne by assumption. apply game_extends_refl.
  - intros HI. destruct (Hinv HI) as (Hlt & Hg' & Hfrozen). destruct HI as [Hgames Hfresh].
    split; [split|].
    + intros gid' Hlt'. rewrite Hnext in Hlt'.
      destruct (decide (gid = gid')) as [<-|Hne].
      * now rewrite game_set_game_eq.
      * rewrite game_set_game_ne by assumption. auto.
    + intros gid' Hge. rewrite Hnext in Hge.
      unfold set_game. fields. rewrite lookup_insert_ne by lia. auto.
    + intros gid' Hs. destruct (decide (gid = gid')) as [<-|Hne].
      * rewrite game_set_game_eq. auto.
      * rewrite game_set_game_ne by assumption. repeat split; assumption.
Qed.

(** Writes outside [nextGameId] and [_games] do not matter to [step_games]. *)
Lemma step_games_wrap (now : N) (s s1 s1' : Contract) :
  nextGameId s1' = nextGameId s1 -> _games s1' = _games s1 ->
  step_games now s s1 -> step_games now s s1'.
Proof.
  unfold step_games, grows, Inv, frozen, game. intros -> ->. auto.
Qed.

Lemma step_games_wrap_l (now : N) (s s0 s1 : Contract) :
  nextGameId s0 = nextGameId s -> _games s0 = _games s ->
  step_games now s0 s1 -> step_games now s s1.
Proof.
  unfold step_games, grows, Inv, frozen, game. intros -> ->. auto.
Qed.

Lemma participant_extends_set_claimed (p : Participant) :
  participant_extends p (set_claimed true p).
Proof. constructor; fields; auto. Qed.

Section Steps.
Context `{External}.
Variable call_value : Env -> address -> N -> Contract -> option Contract.

(** Whatever the recipients of value do, they do it through the entry
    points of the contract. *)
Hypothesis call_value_ok : forall env to amount s s',
  call_value env to amount s = Some s' -> step_ok (block_timestamp env) s s'.

Lemma safeTransfer_ok (env : Env) (to : address) (amount : N) (s s' : Contract) :
  _safeTransfer call_value env to amount s = Ok s' ->
  step_ok (block_timestamp env) s s'.
Proof.
  unfold _safeTransfer. intros Hrun. apply of_option_Ok in Hrun. eauto.
Qed.

Lemma createGame_ok (env : Env) (v h : N) (pr : bytes) (hh ms et rp : N) (e : bool)
    (s : Contract) (gid : N) (s' : Contract) :
  createGame env v h pr hh ms et rp e s = Ok (gid, s') ->
  step_ok (block_timestamp env) s s'.
Proof.
  unfold createGame. intros Hrun. cbv zeta in Hrun.
  do 5 peel Hrun. peel Hrun. peel Hrun. injection Hrun as <- <-.
  apply checked_add_Ok in Hx0 as [-> Hmax].
  apply N.leb_le in Hc0, Hc1.
  set (g' := set_autoSettleEnabled e _).
  assert (Hnext : forall s1, nextGameId (emit (GameCreated (nextGameId s) (msg_sender env) ms et rp)
              (set_game (nextGameId s) g' (set_nextGameId (nextGameId s + 1) s1)))
              = nextGameId s + 1) by reflexivity.
  assert (Hgame : forall gid', gid' <> nextGameId s ->
            game (emit (GameCreated (nextGameId s) (msg_sender env) ms et rp)
                    (set_game (nextGameId s) g' (set_nextGameId (nextGameId s + 1) s)))
                 gid' = game s gid').
  { intros gid' Hne. unfold game, emit, set_game. fields.
    now rewrite lookup_total_insert_ne. }
  assert (Hnew : game (emit (GameCreated (nextGameId s) (msg_sender env) ms et rp)
                    (set_game (nextGameId s) g' (set_nextGameId (nextGameId s + 1) s)))
                 (nextGameId s) = g').
  { unfold game, emit, set_game. fields. apply lookup_total_insert_eq. }
  assert (Hlook : forall gid', gid' <> nextGameId s ->
            _games (emit (GameCreated (nextGameId s) (msg_sender env) ms et rp)
                    (set_game (nextGameId s) g' (set_nextGameId (nextGameId s + 1) s)))
                 !! gid' = _games s !! gid').
  { intros gid' Hne. unfold emit, set_game. fields. now rewrite lookup_insert_ne. }
  split; [|reflexivity]. split.
  - split; [rewrite Hnext; lia|]. intros gid' Hlt.
    rewrite Hgame by lia. apply game_extends_refl.
  - intros [Hgames Hfresh]. split; [split|].
    + intros gid' Hlt. rewrite Hnext in Hlt.
      destruct (decide (gid' = nextGameId s)) as [->|Hne].
      * rewrite Hnew. unfold g'.
        change (game (set_nextGameId (nextGameId s + 1) s) (nextGameId s))
          with (game s (nextGameId s)).
        rewrite (game_fresh s (nextGameId s)) by (apply Hfresh; lia).
        now apply game_inv_create.
      * rewrite Hgame by assumption. apply Hgames. lia.
    + intros gid' Hge. rewrite Hnext in Hge. rewrite Hlook by lia. apply Hfresh. lia.
    + intros gid' Hs.
      assert (gid' < nextGameId s) by (eapply Inv_created; [split|]; eauto).
      rewrite Hgame by lia. repeat split; assumption.
Qed.

(** A write to one game, however the rest of the state is touched. *)
Lemma step_ok_set_game (now : N) (s s' : Contract) (gid : N) (g' : Game) :
  nextGameId s' = nextGameId s -> _games s' = <[gid := g']> (_games s) ->
  _status s' = _status s ->
  (gid < nextGameId s -> game_extends (game s gid) g') ->
  (Inv now s ->
   gid < nextGameId s /\ game_inv now g' /\
   (settled (game s gid) = true -> settled_same (game s gid) g')) ->
  step_ok now s s'.
Proof.
  intros Hn Hg Hst Hext Hinv. split; [|assumption].
  apply (step_games_wrap now s (set_game gid g' s)); [assumption | assumption |].
  now apply step_games_set_game.
Qed.

Lemma settle_ok (now : N) (s s' : Contract) (gid n : N) (guesses : list bool)
    (w c p : N) (g1 : Game) :
  _completeSettlement (game s gid) n guesses = Ok (w, c, p, g1) ->
  nextGameId s' = nextGameId s -> _games s' = <[gid := g1]> (_games s) ->
  _status s' = _status s ->
  (Inv now s ->
   gid < nextGameId s /\ endTime (game s gid) <= now /\ settled (game s gid) = false) ->
  step_ok now s s'.
Proof.
  intros Hrun Hn Hg Hst Hpre.
  apply completeSettlement_spec in Hrun as (_ & _ & _ & Hg1 & Hrev & _).
  apply (step_ok_set_game now s s' gid g1); try assumption.
  - intros _. constructor.
    + rewrite Hg1. reflexivity.
    + intros _. rewrite Hg1. reflexivity.
    + rewrite Hg1. auto.
    + intros a. apply revealed_only_extends, Hrev.
  - intros HI. destruct (Hpre HI) as (Hlt & Hend & Hs). destruct HI as [Hgames _].
    split; [assumption|]. split; [|rewrite Hs; discriminate].
    rewrite Hg1. apply game_inv_settle; auto.
Qed.

Lemma joinGame_ok (env : Env) (v gid h : N) (pr : bytes) (s s' : Contract) :
  joinGame env v gid h pr s = Ok s' -> step_ok (block_timestamp env) s s'.
Proof.
  unfold joinGame, gameExists. intros Hrun. cbv zeta in Hrun.
  do 6 peel Hrun. do 2 peel Hrun. injection Hrun as <-.
  apply andb_true_iff in Hc1 as [Hpen Hset]. apply negb_true_iff in Hpen, Hset, Hc3.
  apply N.leb_le in Hc4. apply checked_add_Ok in Hx as [-> _].
  eapply step_ok_set_game; [reflexivity | reflexivity | reflexivity | |].
  - intros _. constructor; fields; auto.
    intros a. unfold participant, set_participant. fields.
    destruct (decide (msg_sender env = a)) as [<-|Hne].
    + rewrite lookup_total_insert_eq. constructor; fields; auto.
    + rewrite lookup_total_insert_ne by assumption. apply participant_extends_refl.
  - intros [Hgames _]. apply N.ltb_lt in Hc.
    split; [assumption|]. split; [|rewrite Hset; discriminate].
    apply game_inv_join; auto.
Qed.

Lemma requestReveal_ok (env : Env) (gid : N) (s s' : Contract) :
  requestReveal env gid s = Ok s' -> step_ok (block_timestamp env) s s'.
Proof.
  unfold requestReveal, gameExists. intros Hrun. cbv zeta in Hrun.
  do 5 peel Hrun. injection Hrun as <-.
  apply negb_true_iff in Hc1, Hc2. apply N.leb_le in Hc0. apply N.ltb_lt in Hc.
  eapply step_ok_set_game; [reflexivity | reflexivity | reflexivity | |].
  - intros _. constructor; fields; auto using participant_extends_refl.
  - intros [Hgames _]. split; [assumption|]. split; [|rewrite Hc1; discriminate].
    apply game_inv_request; auto.
Qed.

Lemma autoSettle_request_ok (env : Env) (gid : N) (s s' : Contract) :
  gid < nextGameId s -> settled (game s gid) = false ->
  endTime (game s gid) <= block_timestamp env ->
  autoSettle_request env gid s = Ok s' -> step_ok (block_timestamp env) s s'.
Proof.
  unfold autoSettle_request. intros Hlt Hset Hend Hrun. cbv zeta in Hrun.
  destruct (negb (revealPending (game s gid))) eqn:Hpen.
  - peel Hrun. injection Hrun as <-.
    eapply step_ok_set_game; [reflexivity | reflexivity | reflexivity | |].
    + intros _. constructor; fields; auto using participant_extends_refl.
    + intros [Hgames _]. split; [assumption|]. split; [|rewrite Hset; discriminate].
      apply game_inv_request; auto.
  - injection Hrun as <-. apply step_ok_refl.
Qed.

Lemma autoSettle_ok (env : Env) (gid : N) (s : Contract) (b : bool) (s' : Contract) :
  autoSettle env gid s = Ok (b, s') -> step_ok (block_timestamp env) s s'.
Proof.
  unfold autoSettle, gameExists. intros Hrun. cbv zeta in Hrun.
  do 3 peel Hrun.
  apply negb_true_iff in Hc0. apply N.leb_le in Hc1. apply N.ltb_lt in Hc.
  destruct (_ || _); peel Hrun; injection Hrun as <- <-;
    eapply autoSettle_request_ok; eauto.
Qed.

Lemma debugReveal_ok (env : Env) (gid n : N) (guesses : list bool) (s : Contract)
    (b : bool) (s' : Contract) :
  debugReveal env gid n guesses s = Ok (b, s') -> step_ok (block_timestamp env) s s'.
Proof.
  unfold debugReveal, gameExists. intros Hrun. cbv zeta in Hrun.
  do 5 peel Hrun. peel Hrun. destruct x as [[[w c] p] g1]. injection Hrun as <- <-.
  apply negb_true_iff in Hc1. apply N.leb_le in Hc2. apply N.ltb_lt in Hc.
  eapply settle_ok; [exact Hx | reflexivity | reflexivity | reflexivity | auto].
Qed.

Lemma fairReveal_ok (env : Env) (gid n salt : N) (s : Contract)
    (b : bool) (s' : Contract) :
  fairReveal env gid n salt s = Ok (b, s') -> step_ok (block_timestamp env) s s'.
Proof.
  unfold fairReveal, gameExists. intros Hrun. cbv zeta in Hrun.
  do 5 peel Hrun. do 2 peel Hrun. destruct x0 as [[[w c] p] g1].
  injection Hrun as <- <-.
  apply negb_true_iff in Hc0. apply N.leb_le in Hc1. apply N.ltb_lt in Hc.
  eapply settle_ok; [exact Hx0 | reflexivity | reflexivity | reflexivity | auto].
Qed.

(** Setting a claimed flag of a game, creator's or participant's. *)
Lemma mark_creator_ok (now : N) (s : Contract) (gid : N) :
  (Inv now s -> gid < nextGameId s) ->
  step_games now s (set_game gid (set_creatorClaimed true (game s gid)) s).
Proof.
  intros Hlt. apply step_games_set_game.
  - intros _. constructor; fields; auto using participant_extends_refl.
  - intros HI. specialize (Hlt HI). destruct HI as [Hgames _].
    split; [assumption|]. split.
    + apply (game_inv_same now (game s gid)); auto.
    + intros Hs. repeat split; assumption.
Qed.

Lemma mark_participant_ok (now : N) (s : Contract) (gid : N) (a : address) :
  gid < nextGameId s ->
  step_games now s
    (set_game gid
       (set_participant a (set_claimed true (participant (game s gid) a)) (game s gid))
       s).
Proof.
  intros Hlt.
  assert (Hpart : forall b,
            stake (participant (set_participant a
              (set_claimed true (participant (game s gid) a)) (game s gid)) b)
              = stake (participant (game s gid) b) /\
            exists_ (participant (set_participant a
              (set_claimed true (participant (game s gid) a)) (game s gid)) b)
              = exists_ (participant (game s gid) b)).
  { intros b. destruct (decide (a = b)) as [<-|Hne].
    - rewrite participant_set_participant_eq. split; reflexivity.
    - rewrite participant_set_participant_ne by assumption. split; reflexivity. }
  apply step_games_set_game.
  - intros _. constructor; unfold set_participant; fields; auto.
    intros b. unfold participant. fields.
    destruct (decide (a = b)) as [<-|Hne].
    + rewrite lookup_total_insert_eq. apply participant_extends_set_claimed.
    + rewrite lookup_total_insert_ne by assumption. apply participant_extends_refl.
  - intros [Hgames _]. split; [assumption|]. split.
    + apply (game_inv_same now (game s gid)); auto.
    + intros Hs. repeat split; assumption.
Qed.

Lemma autoDistributeRewards_ok (env : Env) (gid : N) (s s' : Contract) :
  (Inv (block_timestamp env) s -> gid < nextGameId s) ->
  _autoDistributeRewards call_value env gid s = Ok s' ->
  step_ok (block_timestamp env) s s'.
Proof.
  unfold _autoDistributeRewards. intros Hlt Hrun. cbv zeta in Hrun.
  peel Hrun. destruct (_ && _).
  - peel Hrun. injection Hrun as <-.
    apply safeTransfer_ok in Hx0 as [Hstep Hst].
    split; [|exact Hst].
    apply (step_games_wrap _ _ x0); [reflexivity | reflexivity |].
    eapply step_games_trans; [|exact Hstep]. now apply mark_creator_ok.
  - injection Hrun as <-. apply step_ok_refl.
Qed.

Lemma revealCallback_ok (env : Env) (rid : N) (ct pr : bytes) (s : Contract)
    (b : bool) (s' : Contract) :
  revealCallback call_value env rid ct pr s = Ok (b, s') ->
  step_ok (block_timestamp env) s s'.
Proof.
  unfold revealCallback. intros Hrun. cbv zeta in Hrun.
  do 3 peel Hrun. destruct x as [[[w c] p] g1]. peel Hrun. injection Hrun as <- <-.
  set (gid := requestToGame s rid) in *.
  set (s1 := emit _ (set_game gid g1 s)) in *.
  assert (Hsettle : exists n guesses,
            _completeSettlement (game s gid) n guesses = Ok (w, c, p, g1)).
  { destruct (_ =? _)%nat; peel Hx; eauto. }
  destruct Hsettle as (n & guesses & Hsettle).
  assert (Hstep1 : step_ok (block_timestamp env) s s1).
  { eapply settle_ok; [exact Hsettle | reflexivity | reflexivity | reflexivity |].
    intros HI. pose proof (Inv_created _ _ gid HI (or_intror Hc)) as Hlt.
    destruct HI as [Hgames _]. destruct (Hgames gid Hlt).
    split; [assumption|]. split; [auto|].
    destruct (settled (game s gid)); [|reflexivity].
    rewrite gi_pending0 in Hc by reflexivity. discriminate. }
  destruct (autoSettleEnabled g1).
  - eapply step_ok_trans; [exact Hstep1|].
    eapply autoDistributeRewards_ok; [|exact Hx0].
    intros HI. apply (Inv_created _ _ gid HI). left.
    unfold s1. change (game (emit ?e ?x) gid) with (game x gid).
    rewrite game_set_game_eq.
    apply completeSettlement_spec in Hsettle as (_ & _ & _ & -> & _). reflexivity.
  - injection Hx0 as <-. exact Hstep1.
Qed.

Lemma nonReentrant_ok (now : N) (body : Contract -> Result Contract) (s s' : Contract) :
  (forall s1 s1', body s1 = Ok s1' -> step_games now s1 s1') ->
  nonReentrant body s = Ok s' -> step_ok now s s'.
Proof.
  unfold nonReentrant. intros Hbody Hrun. do 2 peel Hrun. injection Hrun as <-.
  apply negb_true_iff in Hc. split; [|now rewrite Hc].
  apply (step_games_wrap _ _ x); [reflexivity | reflexivity |].
  apply (step_games_wrap_l _ _ (set_status true s)); [reflexivity | reflexivity |].
  now apply Hbody.
Qed.

Lemma claimCreator_ok (env : Env) (gid : N) (s s' : Contract) :
  claimCreator call_value env gid s = Ok s' -> step_ok (block_timestamp env) s s'.
Proof.
  unfold claimCreator. apply nonReentrant_ok.
  unfold gameExists. intros s1 s1' Hrun. cbv zeta in Hrun.
  do 6 peel Hrun. injection Hrun as <-. apply N.ltb_lt in Hc.
  apply safeTransfer_ok in Hx0 as [Hstep _].
  apply (step_games_wrap _ _ x0); [reflexivity | reflexivity |].
  eapply step_games_trans; [|exact Hstep]. apply mark_creator_ok. auto.
Qed.

Lemma claimWinnings_ok (env : Env) (gid : N) (s s' : Contract) :
  claimWinnings call_value env gid s = Ok s' -> step_ok (block_timestamp env) s s'.
Proof.
  unfold claimWinnings. apply nonReentrant_ok.
  unfold gameExists. intros s1 s1' Hrun. cbv zeta in Hrun.
  do 7 peel Hrun. injection Hrun as <-. apply N.ltb_lt in Hc.
  apply safeTransfer_ok in Hx as [Hstep _].
  apply (step_games_wrap _ _ x); [reflexivity | reflexivity |].
  eapply step_games_trans; [|exact Hstep]. now apply mark_participant_ok.
Qed.

(** Every successful call is a step. *)
Theorem dispatch_ok (env : Env) (c : Call) (s s' : Contract) :
  dispatch call_value env c s = Ok s' -> step_ok (block_timestamp env) s s'.
Proof.
  destruct c; cbn [dispatch]; intros Hrun;
    try (apply state_of_Ok in Hrun as [r Hrun]).
  - eapply createGame_ok; eauto.
  - eapply joinGame_ok; eauto.
  - eapply requestReveal_ok; eauto.
  - eapply revealCallback_ok; eauto.
  - eapply debugReveal_ok; eauto.
  - eapply fairReveal_ok; eauto.
  - eapply autoSettle_ok; eauto.
  - eapply claimCreator_ok; eauto.
  - eapply claimWinnings_ok; eauto.
Qed.

Lemma apply_call_ok (env : Env) (c : Call) (s : Contract) :
  step_ok (block_timestamp env) s (apply_call call_value env c s).
Proof.
  unfold apply_call. destruct (dispatch call_value env c s) eqn:Hrun.
  - now apply dispatch_ok in Hrun.
  - apply step_ok_refl.
Qed.
End Steps.

(** Recipients built from calls into the contract satisfy the hypothesis of
    section [Steps], however deep the re-entrancy. *)
Lemma run_ok `{External} (sc : Script) :
  forall env to amount s s',
    run sc env to amount s = Some s' -> step_ok (block_timestamp env) s s'.
Proof.
  induction sc as [ok | sender rid c inner IHinner rest IHrest];
    intros env to amount s s' Hrun; cbn in Hrun.
  - destruct ok; [|discriminate]. injection Hrun as <-. apply step_ok_refl.
  - eapply step_ok_trans; [|eapply IHrest; exact Hrun].
    apply (apply_call_ok (run inner) IHinner (nested_env env sender rid)).
Qed.

(** ** Transactions and reachable states *)

Lemma reachable_run_txs `{External} (txs : list Tx) :
  forall now s, reachable now s -> ordered now txs = true ->
    reachable (final_time now txs) (run_txs txs s).
Proof.
  induction txs as [|tx txs IH]; intros now s Hr Ho; cbn in *; [assumption|].
  apply andb_true_iff in Ho as [Hle Ho]. apply N.leb_le in Hle.
  apply IH; [|assumption]. now apply (reachable_tx now).
Qed.

Lemma apply_tx_ok `{External} (tx : Tx) (s : Contract) :
  step_ok (block_timestamp (tx_env tx)) s (apply_tx tx s).
Proof. apply apply_call_ok. intros env to amount. apply run_ok. Qed.

Lemma exec_ok `{External} (tx : Tx) (s s' : Contract) :
  exec tx s = Ok s' -> step_ok (block_timestamp (tx_env tx)) s s'.
Proof. apply dispatch_ok. intros env to amount. apply run_ok. Qed.

Lemma reachable_inv `{External} (now : N) (s : Contract) :
  reachable now s -> Inv now s /\ _status s = false.
Proof.
  induction 1 as [|now s tx Hr [HI Hst] Hle].
  - split; [apply Inv_initial | reflexivity].
  - destruct (apply_tx_ok tx s) as [[_ Hstep] Hstatus].
    split; [|congruence].
    apply Hstep. eapply Inv_mono; eauto.
Qed.

Lemma run_txs_grows `{External} (txs : list Tx) :
  forall s, grows s (run_txs txs s) /\ _status (run_txs txs s) = _status s.
Proof.
  induction txs as [|tx txs IH]; intros s.
  - split; [apply grows_refl | reflexivity].
  - change (run_txs (tx :: txs) s) with (run_txs txs (apply_tx tx s)).
    destruct (IH (apply_tx tx s)) as [Hg Hs].
    destruct (apply_tx_ok tx s) as [[Hg1 _] Hs1].
    split; [eapply grows_trans; eauto | congruence].
Qed.

(** ** Ledger moves *)

(** What the invariant gives of a game with a reveal pending, and of a
    settled game. *)
Lemma Inv_pending (now : N) (s : Contract) (gid : N) :
  Inv now s -> revealPending (game s gid) = true ->
  gid < nextGameId s /\ settled (game s gid) = false /\ endTime (game s gid) <= now.
Proof.
  intros HI Hp. pose proof (Inv_created _ _ gid HI (or_intror Hp)) as Hlt.
  destruct HI as [Hgames _]. destruct (Hgames gid Hlt) as [_ _ _ _ _ Hpen Hdl _ _].
  split; [assumption|]. split; [|auto].
  destruct (settled (game s gid)); [|reflexivity].
  rewrite Hpen in Hp by reflexivity. discriminate.
Qed.

Lemma Inv_settled (now : N) (s : Contract) (gid : N) :
  Inv now s -> settled (game s gid) = true ->
  gid < nextGameId s /\ revealPending (game s gid) = false /\
  endTime (game s gid) <= now /\
  0 < creatorShare (game s gid) + creatorBonusRemainder (game s gid).
Proof.
  intros HI Hs. pose proof (Inv_created _ _ gid HI (or_introl Hs)) as Hlt.
  destruct HI as [Hgames _]. destruct (Hgames gid Hlt) as [_ _ _ _ _ Hpen Hdl Hsplit _].
  split; [assumption|]. split; [auto|]. split; [auto|]. now apply Hsplit.
Qed.

Lemma game_emit (e : Event) (s : Contract) (gid : N) : game (emit e s) gid = game s gid.
Proof. reflexivity. Qed.

Lemma move_step_games (now : N) (s s' : Contract) :
  move now s s' -> step_games now s s'.
Proof.
  intros Hm. destruct Hm.
  - (* create *)
    set (g' := create_write _ _ _ _ _ _ _ _ _).
    set (s' := emit _ _).
    assert (Hnext : nextGameId s' = nextGameId s + 1) by reflexivity.
    assert (Hgame : forall gid', gid' <> nextGameId s -> game s' gid' = game s gid').
    { intros gid' Hne. unfold s', game, emit, set_game. fields.
      now rewrite lookup_total_insert_ne. }
    assert (Hnew : game s' (nextGameId s) = g').
    { unfold s', game, emit, set_game. fields. apply lookup_total_insert_eq. }
    assert (Hlook : forall gid', gid' <> nextGameId s -> _games s' !! gid' = _games s !! gid').
    { intros gid' Hne. unfold s', emit, set_game. fields. now rewrite lookup_insert_ne. }
    clearbody s'.
    split.
    + split; [rewrite Hnext; lia|]. intros gid' Hlt.
      rewrite Hgame by lia. apply game_extends_refl.
    + intros [Hgames Hfresh]. split; [split|].
      * intros gid' Hlt. rewrite Hnext in Hlt.
        destruct (decide (gid' = nextGameId s)) as [->|Hne].
        -- rewrite Hnew. unfold g'.
           rewrite (game_fresh s (nextGameId s)) by (apply Hfresh; lia).
           now apply game_inv_create.
        -- rewrite Hgame by assumption. apply Hgames. lia.
      * intros gid' Hge. rewrite Hnext in Hge. rewrite Hlook by lia. apply Hfresh. lia.
      * intros gid' Hs.
        assert (gid' < nextGameId s) by (eapply Inv_created; [split|]; eauto).
        rewrite Hgame by lia. repeat split; assumption.
  - (* join *)
    apply (step_games_wrap _ _ (set_game gid (join_write a v h (game s gid)) s));
      [reflexivity | reflexivity |].
    apply step_games_set_game.
    + intros _. constructor; unfold join_write; fields; auto.
      intros b. unfold participant, set_participant. fields.
      destruct (decide (a = b)) as [<-|Hne].
      * rewrite lookup_total_insert_eq. constructor; fields; auto.
      * rewrite lookup_total_insert_ne by assumption. apply participant_extends_refl.
    + intros [Hgames _]. split; [assumption|]. split; [|congruence].
      apply game_inv_join; auto.
  - (* request *)
    apply (step_games_wrap _ _ (set_game gid (request_write rid (game s gid)) s));
      [reflexivity | reflexivity |].
    apply step_games_set_game.
    + intros _. constructor; unfold request_write; fields; auto using participant_extends_refl.
    + intros [Hgames _]. split; [assumption|]. split; [|congruence].
      apply game_inv_request; auto.
  - (* settle *)
    apply (step_games_wrap _ _ (set_game gid g1 s)); [reflexivity | reflexivity |].
    pose proof H as Hrun.
    apply completeSettlement_spec in H as (_ & _ & _ & Hg1 & Hrev & _).
    apply step_games_set_game.
    + intros _. constructor.
      * rewrite Hg1. reflexivity.
      * intros _. rewrite Hg1. reflexivity.
      * rewrite Hg1. auto.
      * intros a. apply revealed_only_extends, Hrev.
    + intros HI.
      assert (Hpre : gid < nextGameId s /\ settled (game s gid) = false /\
                     endTime (game s gid) <= now).
      { destruct H0 as [Hp | ?]; [|assumption]. now apply Inv_pending. }
      destruct Hpre as (Hlt & Hs & Hend). destruct HI as [Hgames _].
      split; [assumption|]. split; [|congruence].
      rewrite Hg1. apply game_inv_settle; auto.
  - (* pay creator *)
    apply mark_creator_ok. intros HI. apply (Inv_created _ _ gid HI). now left.
  - (* pay winner *)
    now apply mark_participant_ok.
  - apply (step_games_wrap _ _ s); [reflexivity | reflexivity | apply step_games_refl].
  - apply (step_games_wrap _ _ s); [reflexivity | reflexivity | apply step_games_refl].
Qed.

Lemma moves_step_games (now : N) (s s' : Contract) :
  moves now s s' -> step_games now s s'.
Proof.
  induction 1 as [|s t u Hm _ IH]; [apply step_games_refl|].
  eapply step_games_trans; [apply move_step_games; exact Hm | exact IH].
Qed.

Lemma moves_Inv (now : N) (s s' : Contract) :
  moves now s s' -> Inv now s -> Inv now s'.
Proof. intros Hm HI. apply moves_step_games in Hm as [_ Hinv]. now apply Hinv. Qed.

Section MovesOfCalls.
Context `{External}.
Variable call_value : Env -> address -> N -> Contract -> option Contract.

Hypothesis call_value_moves : forall env to amount s s',
  call_value env to amount s = Some s' -> moves (block_timestamp env) s s'.

Lemma safeTransfer_moves (env : Env) (to : address) (amount : N) (s s' : Contract) :
  _safeTransfer call_value env to amount s = Ok s' -> moves (block_timestamp env) s s'.
Proof. unfold _safeTransfer. intros Hrun. apply of_option_Ok in Hrun. eauto. Qed.

Lemma createGame_moves (env : Env) (v h : N) (pr : bytes) (hh ms et rp : N) (e : bool)
    (s : Contract) (gid : N) (s' : Contract) :
  createGame env v h pr hh ms et rp e s = Ok (gid, s') ->
  move (block_timestamp env) s s'.
Proof.
  unfold createGame. intros Hrun. cbv zeta in Hrun.
  do 5 peel Hrun. peel Hrun. peel Hrun. injection Hrun as <- <-.
  apply checked_add_Ok in Hx as [-> _]. apply checked_add_Ok in Hx0 as [-> _].
  apply N.ltb_lt in Hc. apply N.leb_le in Hc0, Hc1.
  apply (move_create (block_timestamp env) s (msg_sender env) ms et rp hh x1 e);
    assumption.
Qed.

Lemma joinGame_moves (env : Env) (v gid h : N) (pr : bytes) (s s' : Contract) :
  joinGame env v gid h pr s = Ok s' -> move (block_timestamp env) s s'.
Proof.
  unfold joinGame, gameExists. intros Hrun. cbv zeta in Hrun.
  do 6 peel Hrun. do 2 peel Hrun. injection Hrun as <-.
  apply andb_true_iff in Hc1 as [Hpen Hset]. apply negb_true_iff in Hpen, Hset, Hc3.
  apply negb_true_iff, N.eqb_neq in Hc2.
  apply N.leb_le in Hc4. apply checked_add_Ok in Hx as [-> Hmax].
  apply N.ltb_lt in Hc, Hc0.
  apply (move_join (block_timestamp env) s gid (msg_sender env) v x0); assumption.
Qed.

Lemma requestReveal_moves (env : Env) (gid : N) (s s' : Contract) :
  requestReveal env gid s = Ok s' -> move (block_timestamp env) s s'.
Proof.
  unfold requestReveal, gameExists. intros Hrun. cbv zeta in Hrun.
  do 5 peel Hrun. injection Hrun as <-.
  apply negb_true_iff in Hc1, Hc2. apply N.leb_le in Hc0. apply N.ltb_lt in Hc.
  apply (move_request (block_timestamp env) s gid (oracle_requestId env)); assumption.
Qed.

Lemma autoSettle_moves (env : Env) (gid : N) (s : Contract) (b : bool) (s' : Contract) :
  autoSettle env gid s = Ok (b, s') -> moves (block_timestamp env) s s'.
Proof.
  unfold autoSettle, gameExists. intros Hrun. cbv zeta in Hrun.
  do 3 peel Hrun.
  apply negb_true_iff in Hc0. apply N.leb_le in Hc1. apply N.ltb_lt in Hc.
  assert (Hreq : forall s1, autoSettle_request env gid s = Ok s1 ->
                   moves (block_timestamp env) s s1).
  { unfold autoSettle_request. intros s1 Hreq. cbv zeta in Hreq.
    destruct (negb (revealPending (game s gid))) eqn:Hpen.
    - peel Hreq. injection Hreq as <-. apply negb_true_iff in Hpen.
      apply rtc_once.
      apply (move_request (block_timestamp env) s gid (oracle_requestId env)); assumption.
    - injection Hreq as <-. apply rtc_refl. }
  destruct (_ || _); peel Hrun; injection Hrun as <- <-; auto.
Qed.

Lemma settle_moves (env : Env) (gid n : N) (guesses : list bool) (s : Contract)
    (w c p : N) (g1 : Game) :
  _completeSettlement (game s gid) n guesses = Ok (w, c, p, g1) ->
  revealPending (game s gid) = true \/
    (gid < nextGameId s /\ settled (game s gid) = false /\
     endTime (game s gid) <= block_timestamp env) ->
  move (block_timestamp env) s
    (emit (GameSettled gid (revealedNumber g1) (numberIsBig g1) w c p) (set_game gid g1 s)).
Proof.
  intros Hrun Hpre.
  assert (Hn : revealedNumber g1 = n /\ numberIsBig g1 = (5 <? n)).
  { apply completeSettlement_spec in Hrun as (_ & _ & _ & -> & _). split; reflexivity. }
  destruct Hn as [-> ->]. now apply (move_settle _ _ gid n guesses).
Qed.

Lemma debugReveal_moves (env : Env) (gid n : N) (guesses : list bool) (s : Contract)
    (b : bool) (s' : Contract) :
  debugReveal env gid n guesses s = Ok (b, s') -> move (block_timestamp env) s s'.
Proof.
  unfold debugReveal, gameExists. intros Hrun. cbv zeta in Hrun.
  do 5 peel Hrun. peel Hrun. destruct x as [[[w c] p] g1]. injection Hrun as <- <-.
  apply negb_true_iff in Hc1. apply N.leb_le in Hc2. apply N.ltb_lt in Hc.
  apply (move_settle _ _ gid n guesses); auto.
Qed.

Lemma fairReveal_moves (env : Env) (gid n salt : N) (s : Contract)
    (b : bool) (s' : Contract) :
  fairReveal env gid n salt s = Ok (b, s') -> move (block_timestamp env) s s'.
Proof.
  unfold fairReveal, gameExists. intros Hrun. cbv zeta in Hrun.
  do 5 peel Hrun. do 2 peel Hrun. destruct x0 as [[[w c] p] g1].
  injection Hrun as <- <-.
  apply negb_true_iff in Hc0. apply N.leb_le in Hc1. apply N.ltb_lt in Hc.
  apply (move_settle _ _ gid n x); auto.
Qed.

Lemma autoDistributeRewards_moves (env : Env) (gid : N) (s s' : Contract) :
  settled (game s gid) = true ->
  _autoDistributeRewards call_value env gid s = Ok s' ->
  moves (block_timestamp env) s s'.
Proof.
  unfold _autoDistributeRewards. intros Hs Hrun. cbv zeta in Hrun.
  peel Hrun. destruct (_ && _) eqn:Hpay.
  - peel Hrun. injection Hrun as <-.
    apply andb_true_iff in Hpay as [_ Hcl]. apply negb_true_iff in Hcl.
    apply safeTransfer_moves in Hx0.
    eapply rtc_l; [apply (move_pay_creator _ _ gid); assumption|].
    eapply rtc_trans; [exact Hx0|].
    apply rtc_once. now apply move_log_claim.
  - injection Hrun as <-. apply rtc_refl.
Qed.

Lemma revealCallback_moves (env : Env) (rid : N) (ct pr : bytes) (s : Contract)
    (b : bool) (s' : Contract) :
  revealCallback call_value env rid ct pr s = Ok (b, s') ->
  moves (block_timestamp env) s s'.
Proof.
  unfold revealCallback. intros Hrun. cbv zeta in Hrun.
  do 3 peel Hrun. destruct x as [[[w c] p] g1]. peel Hrun. injection Hrun as <- <-.
  set (gid := requestToGame s rid) in *.
  assert (Hsettle : exists n guesses,
            _completeSettlement (game s gid) n guesses = Ok (w, c, p, g1)).
  { destruct (_ =? _)%nat; peel Hx; eauto. }
  destruct Hsettle as (n & guesses & Hsettle).
  pose proof (settle_moves env gid n guesses s w c p g1 Hsettle (or_introl Hc)) as Hm.
  eapply rtc_l; [exact Hm|].
  destruct (autoSettleEnabled g1).
  - eapply autoDistributeRewards_moves; [|exact Hx0].
    rewrite game_emit, game_set_game_eq.
    apply completeSettlement_spec in Hsettle as (_ & _ & _ & -> & _). reflexivity.
  - injection Hx0 as <-. apply rtc_refl.
Qed.

Lemma nonReentrant_moves (now : N) (body : Contract -> Result Contract) (s s' : Contract) :
  (forall s1 s1', body s1 = Ok s1' -> moves now s1 s1') ->
  nonReentrant body s = Ok s' -> moves now s s'.
Proof.
  unfold nonReentrant. intros Hbody Hrun. do 2 peel Hrun. injection Hrun as <-.
  eapply rtc_l; [apply (move_guard _ _ true)|].
  eapply rtc_trans; [apply Hbody; exact Hx|].
  apply rtc_once, move_guard.
Qed.

Lemma claimCreator_moves (env : Env) (gid : N) (s s' : Contract) :
  claimCreator call_value env gid s = Ok s' -> moves (block_timestamp env) s s'.
Proof.
  unfold claimCreator. apply nonReentrant_moves.
  unfold gameExists. intros s1 s1' Hrun. cbv zeta in Hrun.
  do 6 peel Hrun. injection Hrun as <-. apply negb_true_iff in Hc2.
  apply safeTransfer_moves in Hx0.
  eapply rtc_l; [apply (move_pay_creator _ _ gid); assumption|].
  eapply rtc_trans; [exact Hx0|].
  apply rtc_once. now apply move_log_claim.
Qed.

Lemma claimWinnings_moves (env : Env) (gid : N) (s s' : Contract) :
  claimWinnings call_value env gid s = Ok s' -> moves (block_timestamp env) s s'.
Proof.
  unfold claimWinnings. apply nonReentrant_moves.
  unfold gameExists. intros s1 s1' Hrun. cbv zeta in Hrun.
  do 7 peel Hrun. injection Hrun as <-. apply negb_true_iff in Hc3.
  apply N.ltb_lt in Hc, Hc4.
  apply safeTransfer_moves in Hx.
  eapply rtc_l; [apply (move_pay_winner _ _ gid (msg_sender env)); assumption|].
  eapply rtc_trans; [exact Hx|].
  apply rtc_once. now apply move_log_claim.
Qed.

(** Every successful call is a sequence of moves. *)
Lemma dispatch_moves (env : Env) (c : Call) (s s' : Contract) :
  dispatch call_value env c s = Ok s' -> moves (block_timestamp env) s s'.
Proof.
  destruct c; cbn [dispatch]; intros Hrun;
    try (apply state_of_Ok in Hrun as [r Hrun]).
  - apply rtc_once. eapply createGame_moves; eauto.
  - apply rtc_once. eapply joinGame_moves; eauto.
  - apply rtc_once. eapply requestReveal_moves; eauto.
  - eapply revealCallback_moves; eauto.
  - apply rtc_once. eapply debugReveal_moves; eauto.
  - apply rtc_once. eapply fairReveal_moves; eauto.
  - eapply autoSettle_moves; eauto.
  - eapply claimCreator_moves; eauto.
  - eapply claimWinnings_moves; eauto.
Qed.

Lemma apply_call_moves (env : Env) (c : Call) (s : Contract) :
  moves (block_timestamp env) s (apply_call call_value env c s).
Proof.
  unfold apply_call. destruct (dispatch call_value env c s) eqn:Hrun.
  - now apply dispatch_moves in Hrun.
  - apply rtc_refl.
Qed.
End MovesOfCalls.

Lemma run_moves `{External} (sc : Script) :
  forall env to amount s s',
    run sc env to amount s = Some s' -> moves (block_timestamp env) s s'.
Proof.
  induction sc as [ok | sender rid c inner IHinner rest IHrest];
    intros env to amount s s' Hrun; cbn in Hrun.
  - destruct ok; [|discriminate]. injection Hrun as <-. apply rtc_refl.
  - eapply rtc_trans; [|eapply IHrest; exact Hrun].
    apply (apply_call_moves (run inner) IHinner (nested_env env sender rid)).
Qed.

Lemma exec_moves `{External} (tx : Tx) (s s' : Contract) :
  exec tx s = Ok s' -> moves (block_timestamp (tx_env tx)) s s'.
Proof. apply dispatch_moves. intros env to amount. apply run_moves. Qed.

Lemma apply_tx_moves `{External} (tx : Tx) (s : Contract) :
  moves (block_timestamp (tx_env tx)) s (apply_tx tx s).
Proof. apply apply_call_moves. intros env to amount. apply run_moves. Qed.

(** Induction on reachable states, move by move. *)
Lemma moves_preserve (J : N -> Contract -> Prop) (now : N) :
  (forall s s', Inv now s -> J now s -> move now s s' -> J now s') ->
  forall s s', moves now s s' -> Inv now s -> J now s -> J now s'.
Proof.
  intros Hstep s s' Hm. induction Hm as [|s t u Hmv _ IH]; [auto|].
  intros HI HJ. apply IH.
  - apply (moves_Inv _ s); [now apply rtc_once | assumption].
  - eauto.
Qed.

Lemma reachable_moves_ind `{External} (J : N -> Contract -> Prop) :
  J 0 initial ->
  (forall now now' s, now <= now' -> Inv now s -> J now s -> J now' s) ->
  (forall now s s', Inv now s -> J now s -> move now s s' -> J now s') ->
  forall now s, reachable now s -> J now s.
Proof.
  intros Hinit Hmono Hstep now s Hr.
  induction Hr as [|now s tx Hr IH Hle]; [assumption|].
  apply reachable_inv in Hr as [HI _].
  apply (moves_preserve J _ (Hstep _) s).
  - apply apply_tx_moves.
  - eapply Inv_mono; eauto.
  - eauto.
Qed.


(** ** What later calls keep *)

Lemma game_kept_refl (now : N) (g : Game) : game_kept now g g.
Proof. constructor; auto; reflexivity. Qed.

Lemma game_kept_trans (now now' : N) (g h k : Game) :
  now <= now' -> game_kept now g h -> game_kept now' h k -> game_kept now g k.
Proof.
  intros Hle [] [].
  assert (Hend : endTime h = endTime g).
  { unfold game_params in gk_params0. congruence. }
  constructor.
  - congruence.
  - etrans; eauto.
  - lia.
  - intros Hd. destruct (gk_closed0 Hd) as [<- <-]. apply gk_closed1. lia.
  - intros a Ha. destruct (gk_joined0 a Ha) as (Ha' & <- & <-). now apply gk_joined1.
  - intros Hp. destruct (gk_request0 Hp) as [<- Hp']. now apply gk_request1.
  - intros Hs. destruct (gk_revealed0 Hs) as [Hs' Hrev].
    destruct (gk_revealed1 Hs') as [Hs'' Hrev'].
    split; [assumption|]. intros a. now rewrite Hrev'.
Qed.

Lemma kept_refl (now : N) (s : Contract) : kept now s s.
Proof. split; [lia | intros; apply game_kept_refl]. Qed.

Lemma kept_trans (now now' : N) (s t u : Contract) :
  now <= now' -> kept now s t -> kept now' t u -> kept now s u.
Proof.
  intros Hle [Hn1 Hg1] [Hn2 Hg2]. split; [lia|].
  intros gid Hlt. eapply game_kept_trans; [exact Hle | apply Hg1 | apply Hg2]; lia.
Qed.

Lemma kept_set_game (now : N) (s s' : Contract) (gid : N) (g' : Game) :
  nextGameId s' = nextGameId s -> _games s' = <[gid := g']> (_games s) ->
  game_kept now (game s gid) g' -> kept now s s'.
Proof.
  intros Hn Hg Hk. split; [lia|]. intros gid' _. unfold game at 2. rewrite Hg.
  destruct (decide (gid = gid')) as [<-|Hne].
  - now rewrite lookup_total_insert_eq.
  - rewrite lookup_total_insert_ne by assumption. apply game_kept_refl.
Qed.

Lemma kept_same_games (now : N) (s s' : Contract) :
  nextGameId s' = nextGameId s -> _games s' = _games s -> kept now s s'.
Proof.
  intros Hn Hg. split; [lia|]. intros gid _. unfold game. rewrite Hg.
  apply game_kept_refl.
Qed.

Lemma move_kept (now : N) (s s' : Contract) :
  Inv now s -> move now s s' -> kept now s s'.
Proof.
  intros HI Hm. destruct Hm.
  - (* create *)
    split; [cbn; lia|]. intros gid Hlt.
    rewrite game_emit, game_set_game_ne by lia. apply game_kept_refl.
  - (* join *)
    eapply kept_set_game; [reflexivity | reflexivity |].
    constructor; unfold join_write, set_participant, participant; fields; auto;
      try congruence.
    + now apply prefix_app_r.
    + lia.
    + lia.
    + intros b Hb. destruct (decide (a = b)) as [<-|Hne]; [unfold participant in *; congruence|].
      rewrite lookup_total_insert_ne by assumption. auto.
  - (* request *)
    eapply kept_set_game; [reflexivity | reflexivity |].
    constructor; unfold request_write; fields; auto; try congruence; try reflexivity.
    intros [?|?]; congruence.
  - (* settle *)
    eapply kept_set_game; [reflexivity | reflexivity |].
    apply completeSettlement_spec in H as (_ & _ & _ & Hg1 & Hrev & _).
    assert (Hfields : game_params g1 = game_params (game s gid) /\
                      participantList g1 = participantList (game s gid) /\
                      totalPot g1 = totalPot (game s gid) /\
                      requestId g1 = requestId (game s gid) /\ settled g1 = true)
      by (rewrite Hg1; repeat split).
    destruct Hfields as (Hpar & Hl & Hpot & Hrid & Hset). clear Hg1.
    constructor; rewrite ?Hl, ?Hpot; auto; try reflexivity.
    + intros a Ha. destruct (Hrev a) as (-> & -> & -> & _). auto.
    + intros Hs. exfalso.
      destruct H0 as [Hp | (_ & Hs' & _)]; [|congruence].
      destruct (Inv_pending now s gid HI Hp) as (_ & Hs' & _). congruence.
  - (* pay creator *)
    eapply kept_set_game; [reflexivity | reflexivity |].
    constructor; fields; auto; reflexivity.
  - (* pay winner *)
    eapply kept_set_game; [reflexivity | reflexivity |].
    constructor; unfold set_participant; fields; auto; try reflexivity.
    + intros b Hb. unfold participant. fields.
      destruct (decide (a = b)) as [<-|Hne].
      * rewrite lookup_total_insert_eq. auto.
      * rewrite lookup_total_insert_ne by assumption. auto.
    + intros _. split; [assumption|]. intros b. unfold participant. fields.
      destruct (decide (a = b)) as [<-|Hne].
      * rewrite lookup_total_insert_eq. reflexivity.
      * rewrite lookup_total_insert_ne by assumption. reflexivity.
  - now apply kept_same_games.
  - now apply kept_same_games.
Qed.

Lemma moves_kept (now : N) (s s' : Contract) :
  moves now s s' -> Inv now s -> kept now s s'.
Proof.
  induction 1 as [|s t u Hm _ IH]; intros HI; [apply kept_refl|].
  apply (kept_trans now now s t u); [lia | now apply move_kept |].
  apply IH. apply (moves_Inv _ s); [now apply rtc_once | assumption].
Qed.

(** What the transactions that follow a reachable state keep of it. *)
Lemma later_kept `{External} (txs : list Tx) :
  forall now s, reachable now s -> ordered now txs = true -> kept now s (run_txs txs s).
Proof.
  induction txs as [|tx txs IH]; intros now s Hr Ho; [apply kept_refl|].
  cbn in Ho. apply andb_true_iff in Ho as [Hle Ho]. apply N.leb_le in Hle.
  change (run_txs (tx :: txs) s) with (run_txs txs (apply_tx tx s)).
  pose proof (reachable_inv now s Hr) as [HI _].
  apply (kept_trans now (block_timestamp (tx_env tx)) s (apply_tx tx s)); [assumption | |].
  - apply (kept_trans now (block_timestamp (tx_env tx)) s s); [assumption | apply kept_refl|].
    apply moves_kept; [apply apply_tx_moves | eapply Inv_mono; eauto].
  - apply IH; [|assumption]. now apply (reachable_tx now).
Qed.

(** ** Example rounds *)

Section ExampleFacts.
#[local] Existing Instance plain_oracle.

Lemma joined_reachable : reachable 2000 joined.
Proof. exact (reachable_run_txs joined_txs 0 initial reachable_initial eq_refl). Qed.

Lemma debug_settled_reachable : reachable 6000 debug_settled.
Proof.
  exact (reachable_run_txs debug_settled_txs 0 initial reachable_initial eq_refl).
Qed.

Lemma empty_settled_reachable : reachable 6000 empty_settled.
Proof.
  exact (reachable_run_txs empty_settled_txs 0 initial reachable_initial eq_refl).
Qed.

Lemma oracle_settled_reachable : reachable 6001 oracle_settled.
Proof.
  exact (reachable_run_txs oracle_settled_txs 0 initial reachable_initial eq_refl).
Qed.

Example joined_pot :
  totalPot (game joined 0) = 100 + 2 * MIN_STAKE /\
  participantList (game joined 0) = [alice; bob].
Proof. vm_compute. split; reflexivity. Qed.

Example oracle_settled_game :
  settled (game oracle_settled 0) = true /\
  revealedNumber (game oracle_settled 0) = 8 /\
  guessedBig (participant (game oracle_settled 0) alice) = true.
Proof. vm_compute. repeat split; reflexivity. Qed.
End ExampleFacts.

(** * The claims *)

(** ** Pot split *)

(** C1, as amended: for every settlement of a game with at least one
    participant that records no winner ([winnersCount = 0]), the shared
    settlement computation makes the entire pot the creator's share:
    [creatorShare = totalPot], [payoutPerWinner = 0] and
    [creatorBonusRemainder = 0], the pot itself being unchanged. *)
Theorem settlement_split_without_winners (g : Game) (n : N) (guesses : list bool)
    (w c p : N) (g' : Game) :
  participantList g <> [] ->
  _completeSettlement g n guesses = Ok (w, c, p, g') ->
  winnersCount g' = 0 ->
  recorded_split g' = (totalPot g', 0, 0) /\ totalPot g' = totalPot g /\
  (w, c, p) = (winnersCount g', creatorShare g', payoutPerWinner g').
Proof.
  intros Hne Hrun Hk.
  apply completeSettlement_spec in Hrun as (-> & -> & -> & Hg' & _).
  rewrite Hg'. repeat split.
Qed.

Section PotSplitExamples.
#[local] Existing Instance plain_oracle.

Lemma settlement_split_without_winners_witness :
  let g' := game all_wrong 0 in
  participantList (game all_wrong_joined 0) <> [] /\
  _completeSettlement (game all_wrong_joined 0) 8 [false; false]
    = Ok (0, totalPot (game all_wrong_joined 0), 0, g') /\
  winnersCount g' = 0 /\
  recorded_split g' = (totalPot g', 0, 0).
Proof.
  intros g'.
  assert (Hne : participantList (game all_wrong_joined 0) <> [])
    by (vm_compute; discriminate).
  assert (Hrun : _completeSettlement (game all_wrong_joined 0) 8 [false; false]
                 = Ok (0, totalPot (game all_wrong_joined 0), 0, g'))
    by (vm_compute; reflexivity).
  assert (Hk : winnersCount g' = 0) by (vm_compute; reflexivity).
  split; [exact Hne|]. split; [exact Hrun|]. split; [exact Hk|].
  exact (proj1 (settlement_split_without_winners _ _ _ _ _ _ _ Hne Hrun Hk)).
Defined.

(** C1 as stated fails: after a settlement with two participants and no
    winner the recorded creator share is the whole pot (2000000000000100),
    not half of it. *)
Lemma settlement_split_counterexample :
  let g := game all_wrong 0 in
  settled g = true /\ participantList g = [alice; bob] /\
  recorded_split g = (2000000000000100, 0, 0) /\
  spec_split (totalPot g) (winnersCount g) = (1000000000000050, 0, 1000000000000050) /\
  recorded_split g <> spec_split (totalPot g) (winnersCount g).
Proof. vm_compute. repeat split; try reflexivity. discriminate. Qed.
End PotSplitExamples.

(** ** Winners *)

(** Settlement writes the reveal fields of the participants and nothing
    else of them; it records no winner. *)
Lemma completeSettlement_marks_no_winner (g : Game) (n : N) (guesses : list bool)
    (w c p : N) (g' : Game) :
  _completeSettlement g n guesses = Ok (w, c, p, g') ->
  winnersCount g' = 0 /\ forall a, won (participant g' a) = won (participant g a).
Proof.
  intros Hrun. apply completeSettlement_spec in Hrun as (_ & _ & _ & Hg' & Hrev & _).
  split; [rewrite Hg'; reflexivity|]. intros a. apply (Hrev a).
Qed.

Section WinnerExamples.
#[local] Existing Instance plain_oracle.

(** C2 fails on the code: Alice bet big and the secret 8 is big, yet after
    [debugReveal(0, 8, [true, false])] her [won] flag is still false, no
    winner is counted and her claim is refused. *)
Lemma debug_reveal_marks_no_winner :
  let g := game debug_settled 0 in
  settled g = true /\ numberIsBig g = true /\
  choiceRevealed (participant g alice) = true /\
  guessedBig (participant g alice) = true /\
  won (participant g alice) = false /\
  winnersCount g = 0 /\
  claimWinnings (run (Return true)) (local_env alice 7000) 0 debug_settled
    = Err NotEligible.
Proof. vm_compute. repeat split; reflexivity. Qed.
End WinnerExamples.

(** ** Conservation of the pot *)

(** C3: a settlement of a game with pot [P] leaves
    [creatorShare + winnersCount * payoutPerWinner + creatorBonusRemainder = P],
    with [P] the pot of the game as it was before the settlement, which the
    settlement does not change: nothing is lost to integer division.  It is
    so of every run of the settlement computation (whose results are the
    recorded [winnersCount], [creatorShare] and [payoutPerWinner]), of every
    settled game of every reachable state, and of every transaction that
    settles a game, whatever else the transaction does. *)
Theorem settlement_conserves_pot `{External} :
  (forall g n guesses w c p g',
     _completeSettlement g n guesses = Ok (w, c, p, g') ->
     creatorShare g' + winnersCount g' * payoutPerWinner g' + creatorBonusRemainder g'
     = totalPot g /\
     totalPot g' = totalPot g /\
     (w, c, p) = (winnersCount g', creatorShare g', payoutPerWinner g')) /\
  (forall now s gid,
     reachable now s ->
     settled (game s gid) = true ->
     creatorShare (game s gid)
       + winnersCount (game s gid) * payoutPerWinner (game s gid)
       + creatorBonusRemainder (game s gid)
     = totalPot (game s gid)) /\
  (forall now s tx gid,
     reachable now s -> now <= block_timestamp (tx_env tx) ->
     gid < nextGameId s ->
     settled (game s gid) = false ->
     settled (game (apply_tx tx s) gid) = true ->
     let g' := game (apply_tx tx s) gid in
     creatorShare g' + winnersCount g' * payoutPerWinner g' + creatorBonusRemainder g'
     = totalPot (game s gid) /\
     totalPot g' = totalPot (game s gid)).
Proof.
  split; [|split].
  - intros g n guesses w c p g' Hrun.
    apply completeSettlement_spec in Hrun as (-> & -> & -> & -> & _).
    unfold settle_fields. fields. split; [lia|]. split; reflexivity.
  - intros now s gid Hr Hs. apply reachable_inv in Hr as [HI _].
    pose proof (Inv_created _ _ gid HI (or_introl Hs)) as Hlt.
    destruct HI as [Hgames _]. destruct (Hgames gid Hlt). now apply gi_split0.
  - intros now s tx gid Hr Hle Hlt Hopen Hset g'.
    pose proof (reachable_inv now s Hr) as [HI _].
    apply (Inv_mono _ _ _ Hle) in HI.
    destruct (moves_kept _ _ _ (apply_tx_moves tx s) HI) as [Hn Hk].
    destruct (Hk gid Hlt) as [Hpar _ _ Hclosed _ _ _].
    injection Hpar as _ _ Hend _ _ _ _ _.
    pose proof (reachable_inv _ _ (reachable_tx now s tx Hr Hle)) as [HI' _].
    destruct (Inv_settled _ _ gid HI' Hset) as (Hlt' & _ & Hdl & _).
    destruct HI' as [Hgames' _].
    destruct (Hgames' gid Hlt') as [_ _ _ _ _ _ _ Hsplit _].
    destruct Hclosed as [_ Hpot]; [rewrite <- Hend; exact Hdl|].
    fold g' in Hpot. split; [|exact Hpot].
    rewrite <- Hpot. now apply Hsplit.
Qed.

Section ConservationExamples.
#[local] Existing Instance plain_oracle.

(** The round of Alice and Bob, settled by a debug reveal: the split of the
    settled game adds up to the pot the game had before. *)
Lemma settlement_conserves_pot_witness :
  let tx := tx_by host 6000 (DebugReveal 0 8 [true; false]) in
  let g' := game (apply_tx tx joined) 0 in
  settled (game joined 0) = false /\ settled g' = true /\
  creatorShare g' + winnersCount g' * payoutPerWinner g' + creatorBonusRemainder g'
  = totalPot (game joined 0) /\
  totalPot g' = totalPot (game joined 0).
Proof.
  intros tx g'.
  assert (Hle : 2000 <= block_timestamp (tx_env tx)) by (vm_compute; discriminate).
  assert (Hlt : 0 < nextGameId joined) by (vm_compute; reflexivity).
  assert (Hopen : settled (game joined 0) = false) by (vm_compute; reflexivity).
  assert (Hset : settled g' = true) by (vm_compute; reflexivity).
  split; [exact Hopen|]. split; [exact Hset|].
  exact (proj2 (proj2 (@settlement_conserves_pot plain_oracle)) 2000 joined tx 0
           joined_reachable Hle Hlt Hopen Hset).
Defined.
End ConservationExamples.

(** ** Settled is terminal *)

(** Facts a reachable state gives about a settled game. *)
Lemma settled_facts `{External} (now : N) (s : Contract) (gid : N) :
  reachable now s -> settled (game s gid) = true ->
  gid < nextGameId s /\ revealPending (game s gid) = false /\
  endTime (game s gid) <= now.
Proof.
  intros Hr Hs. apply reachable_inv in Hr as [HI _].
  pose proof (Inv_created _ _ gid HI (or_introl Hs)) as Hlt.
  destruct HI as [Hgames _]. destruct (Hgames gid Hlt). auto.
Qed.

Lemma pending_facts `{External} (now : N) (s : Contract) (gid : N) :
  reachable now s -> revealPending (game s gid) = true ->
  gid < nextGameId s /\ settled (game s gid) = false /\
  endTime (game s gid) <= now.
Proof.
  intros Hr Hp. apply reachable_inv in Hr as [HI _].
  pose proof (Inv_created _ _ gid HI (or_intror Hp)) as Hlt.
  destruct HI as [Hgames _]. destruct (Hgames gid Hlt).
  split; [assumption|]. split; [|auto].
  destruct (settled (game s gid)); [|reflexivity].
  rewrite gi_pending0 in Hp by reflexivity. discriminate.
Qed.

(** No transaction changes what settlement wrote. *)
Lemma settled_frozen `{External} (now : N) (s : Contract) (gid : N) (tx : Tx) :
  reachable now s -> settled (game s gid) = true ->
  now <= block_timestamp (tx_env tx) ->
  settled_same (game s gid) (game (apply_tx tx s) gid).
Proof.
  intros Hr Hs Hle. apply reachable_inv in Hr as [HI _].
  destruct (apply_tx_ok tx s) as [[_ Hstep] _].
  destruct Hstep as [_ Hfrozen]; [eapply Inv_mono; eauto|]. now apply Hfrozen.
Qed.

(** C4, as amended: once a game is settled, every later reveal entry point
    fails, and no transaction changes a post-reveal field.  [requestReveal],
    [autoSettle] and [fairReveal] fail with [AlreadySettled]; [debugReveal]
    fails with [AlreadySettled] on a local chain and with [DebugDisabled]
    elsewhere; the oracle callback, which checks [revealPending] and not
    [settled], fails with [NoPendingReveal].  While a reveal is pending,
    [requestReveal] fails with [RevealAlreadyPending]. *)
Theorem settled_is_terminal `{External} (now : N) (s : Contract) (env : Env) :
  reachable now s ->
  now <= block_timestamp env ->
  (forall gid, settled (game s gid) = true ->
     requestReveal env gid s = Err AlreadySettled /\
     autoSettle env gid s = Err AlreadySettled /\
     (forall n salt, fairReveal env gid n salt s = Err AlreadySettled) /\
     (forall n guesses,
        debugReveal env gid n guesses s
        = Err (if (block_chainid env =? 31337) || (block_chainid env =? 1337)
               then AlreadySettled else DebugDisabled)) /\
     (forall sc rid ct pr,
        requestToGame s rid = gid ->
        revealCallback (run sc) env rid ct pr s = Err NoPendingReveal) /\
     (forall c sc,
        let s' := apply_tx {| tx_env := env; tx_call := c; tx_recipient := sc |} s in
        settled (game s' gid) = true /\
        post_reveal (game s' gid) = post_reveal (game s gid))) /\
  (forall gid, revealPending (game s gid) = true ->
     requestReveal env gid s = Err RevealAlreadyPending).
Proof.
  intros Hr Hle. split.
  - intros gid Hs. destruct (settled_facts now s gid Hr Hs) as (Hlt & Hpen & Hend).
    apply N.ltb_lt in Hlt.
    assert (Hend' : (endTime (game s gid) <=? block_timestamp env) = true)
      by (apply N.leb_le; lia).
    split; [|split; [|split; [|split; [|split]]]].
    + unfold requestReveal, gameExists. rewrite Hlt. cbv zeta. now rewrite Hend', Hs.
    + unfold autoSettle, gameExists. rewrite Hlt. cbv zeta. now rewrite Hs.
    + intros n salt. unfold fairReveal, gameExists. rewrite Hlt. cbv zeta. now rewrite Hs.
    + intros n guesses. unfold debugReveal, gameExists. rewrite Hlt. cbv zeta.
      destruct (_ || _); [now rewrite Hs | reflexivity].
    + intros sc rid ct pr <-. unfold revealCallback. cbv zeta. now rewrite Hpen.
    + intros c sc s'.
      destruct (settled_frozen now s gid {| tx_env := env; tx_call := c; tx_recipient := sc |}
                  Hr Hs Hle) as (Hs' & Hpost & _).
      auto.
  - intros gid Hp. destruct (pending_facts now s gid Hr Hp) as (Hlt & Hs & Hend).
    apply N.ltb_lt in Hlt.
    assert (Hend' : (endTime (game s gid) <=? block_timestamp env) = true)
      by (apply N.leb_le; lia).
    unfold requestReveal, gameExists. rewrite Hlt. cbv zeta. now rewrite Hend', Hs, Hp.
Qed.

Section TerminalExamples.
#[local] Existing Instance plain_oracle.

Lemma settled_is_terminal_witness :
  settled (game oracle_settled 0) = true /\
  requestReveal (local_env bob 6002) 0 oracle_settled = Err AlreadySettled /\
  fairReveal (local_env host 6002) 0 8 42 oracle_settled = Err AlreadySettled /\
  debugReveal (local_env host 6002) 0 3 [false] oracle_settled = Err AlreadySettled /\
  revealCallback (run (Return true)) (local_env 999 6002) 7 [Byte.x03; Byte.x00] []
    oracle_settled = Err NoPendingReveal /\
  post_reveal (game (apply_tx (tx_by host 6002 (ClaimCreator 0)) oracle_settled) 0)
    = post_reveal (game oracle_settled 0).
Proof.
  assert (Hs : settled (game oracle_settled 0) = true) by reflexivity.
  assert (Hle : forall a, 6001 <= block_timestamp (local_env a 6002))
    by (intros a; vm_compute; discriminate).
  destruct (proj1 (settled_is_terminal 6001 oracle_settled (local_env bob 6002)
                     oracle_settled_reachable (Hle bob)) 0 Hs) as (Hreq & _).
  destruct (proj1 (settled_is_terminal 6001 oracle_settled (local_env host 6002)
                     oracle_settled_reachable (Hle host)) 0 Hs)
    as (_ & _ & Hfair & Hdebug & _ & Hfrozen).
  destruct (proj1 (settled_is_terminal 6001 oracle_settled (local_env 999 6002)
                     oracle_settled_reachable (Hle 999)) 0 Hs)
    as (_ & _ & _ & _ & Hcallback & _).
  split; [exact Hs|]. split; [exact Hreq|]. split; [exact (Hfair 8 42)|].
  split; [exact (Hdebug 3 [false])|].
  split; [exact (Hcallback (Return true) 7 [Byte.x03; Byte.x00] [] eq_refl)|].
  exact (proj2 (Hfrozen (ClaimCreator 0) (Return true))).
Defined.

(** C4 as stated fails: on a settled game a second delivery of the oracle
    callback fails with [NoPendingReveal], and [debugReveal] on a chain
    that is not a local test chain fails with [DebugDisabled]; neither
    fails with [AlreadySettled]. *)
Lemma settled_reveal_counterexample :
  settled (game oracle_settled 0) = true /\
  requestToGame oracle_settled 7 = 0 /\
  revealCallback (run (Return true)) (local_env 999 6002) 7 [Byte.x08; Byte.x01] []
    oracle_settled = Err NoPendingReveal /\
  debugReveal {| msg_sender := host; block_timestamp := 6002; block_chainid := 1;
                 oracle_requestId := 8 |} 0 8 [true] oracle_settled
    = Err DebugDisabled /\
  @Err (bool * Contract) NoPendingReveal <> Err AlreadySettled /\
  @Err (bool * Contract) DebugDisabled <> Err AlreadySettled.
Proof. vm_compute. repeat split; try reflexivity; discriminate. Qed.
End TerminalExamples.

(** ** The pot *)

Lemma createGame_new_game `{External} (env : Env) (v h : N) (pr : bytes)
    (hh ms et rp : N) (e : bool) (s : Contract) (gid : N) (s' : Contract) :
  createGame env v h pr hh ms et rp e s = Ok (gid, s') ->
  gid = nextGameId s /\ v = rp /\
  totalPot (game s' gid) = rp /\ rewardPool (game s' gid) = rp /\
  participantList (game s' gid) = participantList (game s gid).
Proof.
  unfold createGame. intros Hrun. cbv zeta in Hrun.
  do 5 peel Hrun. peel Hrun. peel Hrun. injection Hrun as <- <-.
  apply N.eqb_eq in Hc2.
  change (game (emit ?e ?x) ?i) with (game x i). rewrite game_set_game_eq.
  repeat split; assumption.
Qed.

Lemma joinGame_new_stake `{External} (env : Env) (v gid h : N) (pr : bytes)
    (s s' : Contract) :
  joinGame env v gid h pr s = Ok s' ->
  totalPot (game s' gid) = totalPot (game s gid) + v /\
  stake (participant (game s' gid) (msg_sender env)) = v /\
  participantList (game s' gid) = participantList (game s gid) ++ [msg_sender env].
Proof.
  unfold joinGame, gameExists. intros Hrun. cbv zeta in Hrun.
  do 6 peel Hrun. do 2 peel Hrun. injection Hrun as <-.
  apply checked_add_Ok in Hx as [-> _].
  change (game (emit ?e ?x) ?i) with (game x i). rewrite game_set_game_eq.
  split; [reflexivity|]. split; [|reflexivity].
  unfold participant, set_participant. fields. now rewrite lookup_total_insert_eq.
Qed.

(** C5: in every reachable state the pot of every game is its reward pool
    plus the stakes of its participants; [createGame] starts the pot at
    [rewardPool], each successful [joinGame] adds exactly the joiner's stake,
    and no transaction changes the pot of a settled game. *)
Theorem pot_is_reward_plus_stakes `{External} (now : N) (s : Contract) :
  reachable now s ->
  (forall gid,
     totalPot (game s gid) = rewardPool (game s gid) + sum_stakes (game s gid)) /\
  (forall env v h pr hh ms et rp e gid s',
     createGame env v h pr hh ms et rp e s = Ok (gid, s') ->
     totalPot (game s' gid) = rp /\ rewardPool (game s' gid) = rp /\
     participantList (game s' gid) = []) /\
  (forall env v gid h pr s',
     joinGame env v gid h pr s = Ok s' ->
     totalPot (game s' gid) = totalPot (game s gid) + v /\
     stake (participant (game s' gid) (msg_sender env)) = v /\
     participantList (game s' gid) = participantList (game s gid) ++ [msg_sender env]) /\
  (forall gid env c sc,
     settled (game s gid) = true -> now <= block_timestamp env ->
     totalPot (game (apply_tx {| tx_env := env; tx_call := c; tx_recipient := sc |} s) gid)
     = totalPot (game s gid)).
Proof.
  intros Hr. pose proof (reachable_inv now s Hr) as [[Hgames Hfresh] _].
  split; [|split; [|split]].
  - intros gid. destruct (N.lt_ge_cases gid (nextGameId s)) as [Hlt|Hge].
    + destruct (Hgames gid Hlt). assumption.
    + rewrite (game_fresh s gid) by auto. reflexivity.
  - intros env v h pr hh ms et rp e gid s' Hrun.
    apply createGame_new_game in Hrun as (-> & _ & Hpot & Hrew & Hlist).
    rewrite Hlist, (game_fresh s (nextGameId s)) by (apply Hfresh; lia). auto.
  - intros env v gid h pr s'. apply joinGame_new_stake.
  - intros gid env c sc Hs Hle.
    destruct (settled_frozen now s gid {| tx_env := env; tx_call := c; tx_recipient := sc |}
                Hr Hs Hle) as (_ & _ & Hpot & _).
    exact Hpot.
Qed.

Lemma pot_is_reward_plus_stakes_witness :
  totalPot (game joined 0)
  = rewardPool (game joined 0) + sum_stakes (game joined 0).
Proof.
  exact (proj1 (@pot_is_reward_plus_stakes plain_oracle 2000 joined joined_reachable) 0).
Defined.

(** ** Claims *)

Lemma claimCreator_eq `{External}
    (call_value : Env -> address -> N -> Contract -> option Contract)
    (env : Env) (gid : N) (s : Contract) :
  _status s = false -> gid < nextGameId s ->
  claimCreator call_value env gid s = claimCreator_body call_value env gid s.
Proof.
  intros Hst Hlt. apply N.ltb_lt in Hlt.
  unfold claimCreator, claimCreator_body, nonReentrant, gameExists.
  rewrite Hst. fields. rewrite Hlt. cbv zeta.
  change (game (set_status true s) gid) with (game s gid).
  destruct (settled (game s gid)); [|reflexivity].
  destruct (msg_sender env =? creator (game s gid)); [|reflexivity].
  destruct (negb (creatorClaimed (game s gid))); [|reflexivity].
  destruct (checked_add _ _); [|reflexivity]. cbn [bind negb].
  destruct (_safeTransfer _ _ _ _ _); reflexivity.
Qed.

Lemma claimWinnings_eq `{External}
    (call_value : Env -> address -> N -> Contract -> option Contract)
    (env : Env) (gid : N) (s : Contract) :
  _status s = false -> gid < nextGameId s ->
  claimWinnings call_value env gid s = claimWinnings_body call_value env gid s.
Proof.
  intros Hst Hlt. apply N.ltb_lt in Hlt.
  unfold claimWinnings, claimWinnings_body, nonReentrant, gameExists.
  rewrite Hst. fields. rewrite Hlt. cbv zeta.
  change (game (set_status true s) gid) with (game s gid).
  destruct (settled (game s gid)); [|reflexivity].
  destruct (exists_ _); [|reflexivity].
  destruct (won _); [|reflexivity].
  destruct (negb (claimed _)); [|reflexivity].
  destruct (0 <? _); [|reflexivity]. cbn [bind negb].
  destruct (_safeTransfer _ _ _ _ _); reflexivity.
Qed.

(** A successful claim passed both modifiers. *)
Lemma claimCreator_entered `{External}
    (call_value : Env -> address -> N -> Contract -> option Contract)
    (env : Env) (gid : N) (s s' : Contract) :
  claimCreator call_value env gid s = Ok s' -> _status s = false /\ gid < nextGameId s.
Proof.
  unfold claimCreator, nonReentrant, gameExists. intros Hrun. do 2 peel Hrun.
  peel Hx. apply negb_true_iff in Hc. apply N.ltb_lt in Hc0. auto.
Qed.

Lemma claimWinnings_entered `{External}
    (call_value : Env -> address -> N -> Contract -> option Contract)
    (env : Env) (gid : N) (s s' : Contract) :
  claimWinnings call_value env gid s = Ok s' -> _status s = false /\ gid < nextGameId s.
Proof.
  unfold claimWinnings, nonReentrant, gameExists. intros Hrun. do 2 peel Hrun.
  peel Hx. apply negb_true_iff in Hc. apply N.ltb_lt in Hc0. auto.
Qed.

(** ** Zero participants *)

(** C6: a game settled with no participant has [winnersCount = 0],
    [creatorShare = totalPot] and [payoutPerWinner = 0]; settling it reads no
    guess (whatever [guesses] holds, the computation succeeds, gives the
    whole pot to the creator's share and touches no participant); and the
    creator's payout, when the creator has not been paid yet, is one
    low-level call whose recipient is the creator and whose value is exactly
    [totalPot], whether it is claimed with [claimCreator] or pushed by
    [_autoDistributeRewards] at the end of the oracle callback, and whatever
    the recipient does.  (The pot is a [uint256], hence the bound.) *)
Theorem zero_participant_settlement `{External} (now : N) (s : Contract) (gid : N) :
  reachable now s ->
  settled (game s gid) = true ->
  participantList (game s gid) = [] ->
  (winnersCount (game s gid) = 0 /\
   creatorShare (game s gid) = totalPot (game s gid) /\
   payoutPerWinner (game s gid) = 0) /\
  (forall g0 n guesses,
     participantList g0 = [] ->
     exists g', _completeSettlement g0 n guesses = Ok (0, totalPot g0, 0, g') /\
                participants g' = participants g0 /\
                winnersCount g' = 0 /\ creatorShare g' = totalPot g0 /\
                payoutPerWinner g' = 0 /\ creatorBonusRemainder g' = 0 /\
                totalPot g' = totalPot g0) /\
  (forall (call_value : Env -> address -> N -> Contract -> option Contract) env,
     msg_sender env = creator (game s gid) ->
     creatorClaimed (game s gid) = false ->
     totalPot (game s gid) <= MAX_UINT256 ->
     claimCreator call_value env gid s
     = match call_value env (creator (game s gid)) (totalPot (game s gid))
               (set_game gid (set_creatorClaimed true (game s gid)) (set_status true s))
       with
       | Some s2 =>
           Ok (set_status false
                 (emit (CreatorClaimed gid (creator (game s gid)) (totalPot (game s gid)))
                    s2))
       | None => Err TransferFailed
       end) /\
  (forall (call_value : Env -> address -> N -> Contract -> option Contract) env,
     creatorClaimed (game s gid) = false ->
     totalPot (game s gid) <= MAX_UINT256 ->
     _autoDistributeRewards call_value env gid s
     = match call_value env (creator (game s gid)) (totalPot (game s gid))
               (set_game gid (set_creatorClaimed true (game s gid)) s)
       with
       | Some s2 =>
           Ok (emit (CreatorClaimed gid (creator (game s2 gid)) (totalPot (game s gid)))
                 s2)
       | None => Err TransferFailed
       end).
Proof.
  intros Hr Hs Hnil.
  pose proof (reachable_inv now s Hr) as [HI Hst].
  pose proof (Inv_created _ _ gid HI (or_introl Hs)) as Hlt.
  destruct HI as [Hgames _]. destruct (Hgames gid Hlt).
  destruct (gi_empty0 Hs Hnil) as (Hw & Hcs & Hpp & Hrem).
  destruct (gi_split0 Hs) as [_ Hpos].
  rewrite Hcs, Hrem, N.add_0_r in Hpos. apply N.ltb_lt in Hpos.
  split; [auto|]. split; [|split].
  - intros g0 n guesses Hnil0.
    destruct (completeSettlement_total g0 n guesses (or_introl Hnil0)) as [g' Hg'].
    exists g'. split; [assumption|].
    apply completeSettlement_spec in Hg' as (_ & _ & _ & Hfields & _ & Hsame & _).
    split; [auto|]. rewrite Hfields. repeat split.
  - intros call_value env Hsender Hclaimed Hmax.
    rewrite claimCreator_eq by assumption. unfold claimCreator_body. cbv zeta.
    rewrite Hs, Hsender, N.eqb_refl, Hclaimed, Hcs, Hrem. cbn [negb].
    rewrite checked_add_small by (rewrite N.add_0_r; assumption).
    cbn [bind]. rewrite N.add_0_r. unfold _safeTransfer.
    destruct (call_value _ _ _ _); reflexivity.
  - intros call_value env Hclaimed Hmax.
    unfold _autoDistributeRewards. cbv zeta.
    rewrite Hclaimed, Hcs, Hrem.
    rewrite checked_add_small by (rewrite N.add_0_r; assumption).
    cbn [bind negb]. rewrite N.add_0_r, Hpos. cbn [andb]. unfold _safeTransfer.
    destruct (call_value _ _ _ _); reflexivity.
Qed.

Section ZeroParticipantExamples.
#[local] Existing Instance plain_oracle.

(** The host's claim on the round nobody joined: it goes through when the
    call made is a call to the host with the whole pot of 100 wei, and with
    no other recipient or value. *)
Lemma zero_participant_settlement_witness :
  settled (game empty_settled 0) = true /\
  participantList (game empty_settled 0) = [] /\
  creatorShare (game empty_settled 0) = totalPot (game empty_settled 0) /\
  claimCreator (pays_exactly host 100) (local_env host 7000) 0 empty_settled
  = Ok (set_status false
          (emit (CreatorClaimed 0 host 100)
             (set_game 0 (set_creatorClaimed true (game empty_settled 0))
                (set_status true empty_settled)))) /\
  claimCreator (pays_exactly host 99) (local_env host 7000) 0 empty_settled
  = Err TransferFailed /\
  claimCreator (pays_exactly alice 100) (local_env host 7000) 0 empty_settled
  = Err TransferFailed.
Proof.
  assert (Hs : settled (game empty_settled 0) = true) by reflexivity.
  assert (Hnil : participantList (game empty_settled 0) = []) by reflexivity.
  assert (Hsender : msg_sender (local_env host 7000) = creator (game empty_settled 0))
    by reflexivity.
  assert (Hclaimed : creatorClaimed (game empty_settled 0) = false) by reflexivity.
  assert (Hmax : totalPot (game empty_settled 0) <= MAX_UINT256)
    by (vm_compute; discriminate).
  pose proof (zero_participant_settlement 6000 empty_settled 0
                empty_settled_reachable Hs Hnil) as (Hfields & _ & Hclaim & _).
  split; [exact Hs|]. split; [exact Hnil|]. split; [exact (proj1 (proj2 Hfields))|].
  split; [|split].
  - rewrite (Hclaim (pays_exactly host 100) (local_env host 7000) Hsender Hclaimed Hmax).
    reflexivity.
  - rewrite (Hclaim (pays_exactly host 99) (local_env host 7000) Hsender Hclaimed Hmax).
    reflexivity.
  - rewrite (Hclaim (pays_exactly alice 100) (local_env host 7000) Hsender Hclaimed Hmax).
    reflexivity.
Defined.
End ZeroParticipantExamples.

(** ** Fair reveal *)

(** C7, as amended: a [fairReveal] whose [(claimedSecret, salt)] pair does
    not hash to the stored commitment always fails and leaves the state
    unchanged ([settled] keeps its value).  It fails with [HashMismatch] when
    the guards checked before the commitment pass (the game exists, is not
    settled, its end time has come, the caller is the creator), and with the
    error of the first failing guard otherwise. *)
Theorem fairReveal_mismatch `{External} (env : Env) (gid n salt : N) (s : Contract) :
  keccak256_packed n salt <> secretNumberHash (game s gid) ->
  fairReveal env gid n salt s = Err (mismatch_error env gid s) /\
  (forall sc,
     apply_tx {| tx_env := env; tx_call := FairReveal gid n salt; tx_recipient := sc |} s
     = s) /\
  (gid < nextGameId s -> settled (game s gid) = false ->
   endTime (game s gid) <= block_timestamp env -> msg_sender env = creator (game s gid) ->
   fairReveal env gid n salt s = Err HashMismatch).
Proof.
  intros Hne.
  assert (Hrun : fairReveal env gid n salt s = Err (mismatch_error env gid s)).
  { unfold fairReveal, mismatch_error, gameExists. cbv zeta.
    destruct (gid <? nextGameId s); [|reflexivity]. cbn [negb].
    destruct (settled (game s gid)); [reflexivity|]. cbn [negb].
    destruct (endTime (game s gid) <=? block_timestamp env); [|reflexivity]. cbn [negb].
    destruct (msg_sender env =? creator (game s gid)); [|reflexivity]. cbn [negb].
    destruct (keccak256_packed n salt =? secretNumberHash (game s gid)) eqn:Heq;
      [|reflexivity].
    apply N.eqb_eq in Heq. contradiction. }
  split; [exact Hrun|]. split.
  - intros sc. unfold apply_tx, apply_call. cbn [tx_env tx_call tx_recipient dispatch].
    now rewrite Hrun.
  - intros Hlt Hs Hend Hsender. rewrite Hrun. unfold mismatch_error. cbv zeta.
    apply N.ltb_lt in Hlt. apply N.leb_le in Hend.
    now rewrite Hlt, Hs, Hend, Hsender, N.eqb_refl.
Qed.

Section FairRevealExamples.
#[local] Existing Instance plain_oracle.

Lemma fairReveal_mismatch_witness :
  keccak256_packed 8 41 <> secretNumberHash (game joined 0) /\
  fairReveal (local_env host 6000) 0 8 41 joined = Err HashMismatch /\
  apply_tx (tx_by host 6000 (FairReveal 0 8 41)) joined = joined.
Proof.
  assert (Hne : keccak256_packed 8 41 <> secretNumberHash (game joined 0))
    by (vm_compute; discriminate).
  pose proof (fairReveal_mismatch (local_env host 6000) 0 8 41 joined Hne)
    as (_ & Hsame & Hhash).
  split; [exact Hne|]. split.
  - apply Hhash; [reflexivity | reflexivity | vm_compute; discriminate | reflexivity].
  - exact (Hsame (Return true)).
Defined.

(** C7 as stated fails: Alice, who is not the creator, calls [fairReveal]
    with a pair that does not match the commitment; the call fails with
    [OnlyCreatorCanReveal], not [HashMismatch]. *)
Lemma fairReveal_guard_counterexample :
  keccak256_packed 3 7 <> secretNumberHash (game joined 0) /\
  fairReveal (local_env alice 6000) 0 3 7 joined = Err OnlyCreatorCanReveal /\
  fairReveal (local_env alice 6000) 0 3 7 joined <> Err HashMismatch.
Proof. vm_compute. repeat split; try reflexivity; discriminate. Qed.
End FairRevealExamples.

(** ** Preconditions of the claims *)

(** C8: a claim succeeds only when the game is settled, the caller has the
    role (the creator; a participant whose [won] flag is set), the caller has
    not claimed yet, and the amount is positive; when one of these fails the
    call fails with the error of the first that does: [NotSettled], then
    [NotCreator] / [NotChallenger] / [NotEligible], then [AlreadyClaimed],
    then [NothingToClaim].  [claimCreator] has no check of the amount: in a
    reachable state the amount of a settled game is positive. *)
Theorem claim_preconditions `{External} (s : Contract) (sc : Script) (env : Env) (gid : N) :
  _status s = false ->
  gid < nextGameId s ->
  let g := game s gid in
  let p := participant g (msg_sender env) in
  ((forall s', claimCreator (run sc) env gid s = Ok s' ->
      settled g = true /\ msg_sender env = creator g /\ creatorClaimed g = false /\
      ((exists now, reachable now s) -> 0 < creatorShare g + creatorBonusRemainder g)) /\
   (settled g = false -> claimCreator (run sc) env gid s = Err NotSettled) /\
   (settled g = true -> msg_sender env <> creator g ->
    claimCreator (run sc) env gid s = Err NotCreator) /\
   (settled g = true -> msg_sender env = creator g -> creatorClaimed g = true ->
    claimCreator (run sc) env gid s = Err AlreadyClaimed)) /\
  ((forall s', claimWinnings (run sc) env gid s = Ok s' ->
      settled g = true /\ exists_ p = true /\ won p = true /\ claimed p = false /\
      0 < payoutPerWinner g) /\
   (settled g = false -> claimWinnings (run sc) env gid s = Err NotSettled) /\
   (settled g = true -> exists_ p = false ->
    claimWinnings (run sc) env gid s = Err NotChallenger) /\
   (settled g = true -> exists_ p = true -> won p = false ->
    claimWinnings (run sc) env gid s = Err NotEligible) /\
   (settled g = true -> exists_ p = true -> won p = true -> claimed p = true ->
    claimWinnings (run sc) env gid s = Err AlreadyClaimed) /\
   (settled g = true -> exists_ p = true -> won p = true -> claimed p = false ->
    payoutPerWinner g = 0 ->
    claimWinnings (run sc) env gid s = Err NothingToClaim)).
Proof.
  intros Hst Hlt g p. split.
  - rewrite claimCreator_eq by assumption. unfold claimCreator_body. cbv zeta. fold g.
    split; [|split; [|split]].
    + intros s' Hrun. do 3 peel Hrun.
      apply N.eqb_eq in Hc0. apply negb_true_iff in Hc1.
      split; [assumption|]. split; [assumption|]. split; [assumption|].
      intros [now Hr]. apply reachable_inv in Hr as [[Hgames _] _].
      destruct (Hgames gid Hlt). now apply gi_split0.
    + intros ->. reflexivity.
    + intros -> Hne. apply N.eqb_neq in Hne. now rewrite Hne.
    + intros -> -> ->. now rewrite N.eqb_refl.
  - rewrite claimWinnings_eq by assumption. unfold claimWinnings_body. cbv zeta.
    fold g. fold p.
    split; [|split; [|split; [|split; [|split]]]].
    + intros s' Hrun. do 5 peel Hrun.
      apply negb_true_iff in Hc2. apply N.ltb_lt in Hc3. auto.
    + intros ->. reflexivity.
    + intros -> ->. reflexivity.
    + intros -> -> ->. reflexivity.
    + intros -> -> -> ->. reflexivity.
    + intros -> -> -> -> ->. reflexivity.
Qed.

Section ClaimExamples.
#[local] Existing Instance plain_oracle.

Lemma claim_preconditions_witness :
  claimCreator (run (Return true)) (local_env host 7000) 0 joined = Err NotSettled /\
  claimWinnings (run (Return true)) (local_env host 7000) 0 joined = Err NotSettled /\
  claimCreator (run (Return true)) (local_env bob 7000) 0 debug_settled = Err NotCreator /\
  claimWinnings (run (Return true)) (local_env host 7000) 0 debug_settled
    = Err NotChallenger /\
  claimWinnings (run (Return true)) (local_env bob 7000) 0 debug_settled = Err NotEligible /\
  claimCreator (run (Return true)) (local_env host 7000) 0 debug_settled
    = Ok (apply_tx (tx_by host 7000 (ClaimCreator 0)) debug_settled) /\
  0 < creatorShare (game debug_settled 0) + creatorBonusRemainder (game debug_settled 0).
Proof.
  assert (Hj1 : _status joined = false) by (vm_compute; reflexivity).
  assert (Hj2 : 0 < nextGameId joined) by (vm_compute; reflexivity).
  assert (Hd1 : _status debug_settled = false) by (vm_compute; reflexivity).
  assert (Hd2 : 0 < nextGameId debug_settled) by (vm_compute; reflexivity).
  assert (Hrun : claimCreator (run (Return true)) (local_env host 7000) 0 debug_settled
                 = Ok (apply_tx (tx_by host 7000 (ClaimCreator 0)) debug_settled))
    by (vm_compute; reflexivity).
  pose proof (claim_preconditions joined (Return true) (local_env host 7000) 0 Hj1 Hj2)
    as [(_ & Hj_creator & _) (_ & Hj_winner & _)].
  pose proof (claim_preconditions debug_settled (Return true) (local_env bob 7000) 0 Hd1 Hd2)
    as [(_ & _ & Hbob_creator & _) (_ & _ & _ & Hbob_winner & _)].
  pose proof (claim_preconditions debug_settled (Return true) (local_env host 7000) 0 Hd1 Hd2)
    as [(Hhost_creator & _) (_ & _ & Hhost_winner & _)].
  split; [|split; [|split; [|split; [|split; [|split]]]]].
  - apply Hj_creator. vm_compute. reflexivity.
  - apply Hj_winner. vm_compute. reflexivity.
  - apply Hbob_creator; vm_compute; [reflexivity | discriminate].
  - apply Hhost_winner; vm_compute; reflexivity.
  - apply Hbob_winner; vm_compute; reflexivity.
  - exact Hrun.
  - destruct (Hhost_creator _ Hrun) as (_ & _ & _ & Hpos).
    apply Hpos. exists 6000. exact debug_settled_reachable.
Defined.
End ClaimExamples.

(** ** A claim succeeds at most once *)

(** The game [gid] of the state in which a transfer is made, seen after the
    call has returned and after any later transactions. *)
Lemma game_after_transfer `{External} (sc : Script) (env : Env) (to : address) (amount : N)
    (marked s2 s1 : Contract) (txs : list Tx) (gid : N) :
  run sc env to amount marked = Some s2 ->
  nextGameId s1 = nextGameId s2 -> _games s1 = _games s2 -> _status s1 = false ->
  gid < nextGameId marked ->
  game_extends (game marked gid) (game (run_txs txs s1) gid) /\
  gid < nextGameId (run_txs txs s1) /\ _status (run_txs txs s1) = false.
Proof.
  intros Hrun Hn Hg Hst Hlt.
  apply run_ok in Hrun as [[[Hn1 Hg1] _] _].
  destruct (run_txs_grows txs s1) as [[Hn2 Hg2] Hst2].
  assert (Hlt1 : gid < nextGameId s1) by (rewrite Hn; lia).
  split; [|split; [lia | congruence]].
  eapply game_extends_trans; [apply Hg1; assumption|].
  replace (game s2 gid) with (game s1 gid) by (unfold game; now rewrite Hg).
  now apply Hg2.
Qed.

(** C9: each claim succeeds at most once per identity.  When a claim
    succeeds, the transfer was made on a state in which the claimed flag
    ([creatorClaimed], or the caller's [claimed]) was already set; after it,
    whatever transactions follow, the flag stays set and every further
    claim by the same identity fails with [AlreadyClaimed]. *)
Theorem claims_happen_once `{External} (s : Contract) (sc : Script) (env : Env) (gid : N)
    (s1 : Contract) :
  (claimCreator (run sc) env gid s = Ok s1 ->
   let marked :=
     set_game gid (set_creatorClaimed true (game s gid)) (set_status true s) in
   creatorClaimed (game marked gid) = true /\
   (exists amount s2,
      run sc env (msg_sender env) amount marked = Some s2 /\
      s1 = set_status false (emit (CreatorClaimed gid (msg_sender env) amount) s2)) /\
   (forall txs,
      creatorClaimed (game (run_txs txs s1) gid) = true /\
      forall sc' env', msg_sender env' = msg_sender env ->
        claimCreator (run sc') env' gid (run_txs txs s1) = Err AlreadyClaimed)) /\
  (claimWinnings (run sc) env gid s = Ok s1 ->
   let p := participant (game s gid) (msg_sender env) in
   let marked :=
     set_game gid (set_participant (msg_sender env) (set_claimed true p) (game s gid))
       (set_status true s) in
   claimed (participant (game marked gid) (msg_sender env)) = true /\
   (exists s2,
      run sc env (msg_sender env) (payoutPerWinner (game s gid)) marked = Some s2 /\
      s1 = set_status false
             (emit (WinningsClaimed gid (msg_sender env) (payoutPerWinner (game s2 gid)))
                s2)) /\
   (forall txs,
      claimed (participant (game (run_txs txs s1) gid) (msg_sender env)) = true /\
      forall sc' env', msg_sender env' = msg_sender env ->
        claimWinnings (run sc') env' gid (run_txs txs s1) = Err AlreadyClaimed)).
Proof.
  split.
  - intros Hrun marked.
    destruct (claimCreator_entered _ _ _ _ _ Hrun) as [Hst Hlt].
    rewrite claimCreator_eq in Hrun by assumption.
    unfold claimCreator_body in Hrun. cbv zeta in Hrun. fold marked in Hrun.
    do 5 peel Hrun. injection Hrun as <-.
    apply N.eqb_eq in Hc0. apply of_option_Ok in Hx0.
    assert (Hmarked : game marked gid = set_creatorClaimed true (game s gid))
      by apply game_set_game_eq.
    split; [now rewrite Hmarked|]. split; [eauto|].
    intros txs.
    destruct (game_after_transfer sc env (msg_sender env) x marked x0
                (set_status false (emit (CreatorClaimed gid (msg_sender env) x) x0))
                txs gid Hx0 eq_refl eq_refl eq_refl Hlt) as ([] & Hlt' & Hst').
    rewrite Hmarked in *. fields.
    split; [auto|]. intros sc' env' Hsender.
    rewrite claimCreator_eq by assumption. unfold claimCreator_body. cbv zeta.
    rewrite ge_settled0, ge_creatorClaimed0, ge_creator0, Hsender, <- Hc0, N.eqb_refl
      by auto.
    reflexivity.
  - intros Hrun p marked.
    destruct (claimWinnings_entered _ _ _ _ _ Hrun) as [Hst Hlt].
    rewrite claimWinnings_eq in Hrun by assumption.
    unfold claimWinnings_body in Hrun. cbv zeta in Hrun. fold p in Hrun. fold marked in Hrun.
    do 6 peel Hrun. injection Hrun as <-. apply of_option_Ok in Hx.
    assert (Hmarked : game marked gid
                      = set_participant (msg_sender env) (set_claimed true p) (game s gid))
      by apply game_set_game_eq.
    assert (Hp : participant (game marked gid) (msg_sender env) = set_claimed true p)
      by (rewrite Hmarked; apply participant_set_participant_eq).
    split; [now rewrite Hp|]. split; [eauto|].
    intros txs.
    destruct (game_after_transfer sc env (msg_sender env) _ marked x
                (set_status false
                   (emit (WinningsClaimed gid (msg_sender env) (payoutPerWinner (game x gid)))
                      x))
                txs gid Hx eq_refl eq_refl eq_refl Hlt) as ([] & Hlt' & Hst').
    destruct (ge_participant0 (msg_sender env)) as [Hex Hwon Hcl].
    rewrite Hp in Hex, Hwon, Hcl. rewrite Hmarked in ge_settled0. fields.
    split; [auto|]. intros sc' env' Hsender.
    rewrite claimWinnings_eq by assumption. unfold claimWinnings_body. cbv zeta.
    rewrite Hsender, ge_settled0, Hex, Hwon, Hcl by auto. fold p. rewrite Hc1.
    reflexivity.
Qed.

Section OnceExamples.
#[local] Existing Instance plain_oracle.

Lemma claims_happen_once_witness :
  let s1 := apply_tx (tx_by host 7000 (ClaimCreator 0)) debug_settled in
  let s2 := apply_tx (tx_by alice 7000 (ClaimWinnings 0)) winner_recorded in
  (claimCreator (run (Return true)) (local_env host 7000) 0 debug_settled = Ok s1 /\
   creatorClaimed (game (run_txs [tx_by bob 7500 (ClaimWinnings 0)] s1) 0) = true /\
   claimCreator (run (Return true)) (local_env host 8000) 0
     (run_txs [tx_by bob 7500 (ClaimWinnings 0)] s1) = Err AlreadyClaimed) /\
  (claimWinnings (run (Return true)) (local_env alice 7000) 0 winner_recorded = Ok s2 /\
   claimWinnings (run (Return true)) (local_env alice 8000) 0
     (run_txs [tx_by host 7500 (ClaimCreator 0)] s2) = Err AlreadyClaimed).
Proof.
  intros s1 s2.
  assert (Hrun1 : claimCreator (run (Return true)) (local_env host 7000) 0 debug_settled
                  = Ok s1) by (vm_compute; reflexivity).
  assert (Hrun2 : claimWinnings (run (Return true)) (local_env alice 7000) 0 winner_recorded
                  = Ok s2) by (vm_compute; reflexivity).
  destruct (proj1 (claims_happen_once debug_settled (Return true) (local_env host 7000) 0 s1)
              Hrun1) as (_ & _ & Hlater1).
  destruct (proj2 (claims_happen_once winner_recorded (Return true) (local_env alice 7000)
                     0 s2) Hrun2) as (_ & _ & Hlater2).
  destruct (Hlater1 [tx_by bob 7500 (ClaimWinnings 0)]) as [Hflag Hagain1].
  destruct (Hlater2 [tx_by host 7500 (ClaimCreator 0)]) as [_ Hagain2].
  split; [split; [exact Hrun1 | split; [exact Hflag|]] | split; [exact Hrun2|]].
  - exact (Hagain1 (Return true) (local_env host 8000) eq_refl).
  - exact (Hagain2 (Return true) (local_env alice 8000) eq_refl).
Defined.
End OnceExamples.

(** ** Fair reveal assumes big *)

Lemma assume_big_replicate (remaining : nat) :
  forall i : nat,
    assume_big remaining i (replicate i true ++ replicate remaining false)
    = Ok (replicate (i + remaining) true).
Proof.
  induction remaining as [|remaining IH]; intros i; cbn [assume_big].
  - cbn [replicate]. now rewrite app_nil_r, Nat.add_0_r.
  - assert (Hlt : (i <? length (replicate i true ++ replicate (S remaining) false))%nat
                  = true).
    { apply Nat.ltb_lt. rewrite length_app, !length_replicate. lia. }
    rewrite Hlt.
    replace (<[i:=true]> (replicate i true ++ replicate (S remaining) false))
      with (replicate (S i) true ++ replicate remaining false).
    + rewrite IH. do 2 f_equal. lia.
    + pose proof (insert_app_r (replicate i true) (replicate (S remaining) false) 0 true)
        as Hins.
      rewrite length_replicate, Nat.add_0_r in Hins.
      rewrite Hins, replicate_S_end, <- app_assoc. reflexivity.
Qed.

(** The guesses of [fairReveal]: all big, and the loop never panics. *)
Lemma assume_big_all (n : nat) :
  assume_big n 0 (replicate n false) = Ok (replicate n true).
Proof. exact (assume_big_replicate n 0). Qed.

(** What settlement leaves in a listed participant: the guess at one of the
    indices where the participant is listed. *)
Lemma completeSettlement_guesses (g : Game) (n : N) (guesses : list bool)
    (w c p : N) (g' : Game) :
  _completeSettlement g n guesses = Ok (w, c, p, g') ->
  forall a, a ∈ participantList g ->
    exists j b, participantList g !! j = Some a /\ guesses !! j = Some b /\
                participant g' a = reveal b (participant g a).
Proof.
  unfold _completeSettlement. cbv zeta.
  change (participantList (set_numberIsBig _ _)) with (participantList g).
  destruct (length (participantList g) =? 0)%nat eqn:Hlen.
  - intros _ a Ha. apply Nat.eqb_eq in Hlen.
    destruct (participantList g); [now apply elem_of_nil in Ha | discriminate].
  - intros Hrun a Ha. do 2 peel Hrun. injection Hrun as _ _ _ <-.
    apply reveal_loop_spec in Hx as [_ Hpart].
    apply list_elem_of_lookup in Ha as [j Hj].
    destruct (Hpart a) as [[_ Hnot] | (j' & b & _ & Hat & Hb & Heq)].
    + exfalso. apply (Hnot j); [|exact Hj].
      apply lookup_lt_Some in Hj. lia.
    + exists j', b. split; [exact Hat|]. split; [exact Hb|].
      change (participant (set_creatorBonusRemainder _ _) a) with (participant x a).
      rewrite Heq. reflexivity.
Qed.

(** A fair reveal by the creator, after the end time, of the committed
    pair, on a game that is not settled, goes through. *)
Lemma fairReveal_succeeds `{External} (env : Env) (gid n salt : N) (s : Contract) :
  gid < nextGameId s -> settled (game s gid) = false ->
  endTime (game s gid) <= block_timestamp env -> msg_sender env = creator (game s gid) ->
  keccak256_packed n salt = secretNumberHash (game s gid) ->
  exists s', fairReveal env gid n salt s = Ok (true, s').
Proof.
  intros Hlt Hs Hend Hsender Hhash.
  apply N.ltb_lt in Hlt. apply N.leb_le in Hend.
  unfold fairReveal, gameExists. rewrite Hlt. cbv zeta.
  rewrite Hs, Hend, Hsender, Hhash, !N.eqb_refl. cbn [negb].
  rewrite assume_big_all. cbn [bind].
  destruct (completeSettlement_total (game s gid) n
              (replicate (length (participantList (game s gid))) true))
    as [g' Hg']; [right; apply length_replicate|].
  rewrite Hg'. cbn [bind]. eauto.
Qed.

(** C10: a successful [fairReveal] settles with a guesses array that is
    [true] at every index, whatever the participants submitted: the list of
    participants and their stored choices are as before, and every listed
    participant ends with [choiceRevealed] and [guessedBig] set. *)
Theorem fairReveal_assumes_big `{External} (env : Env) (gid n salt : N) (s : Contract)
    (b : bool) (s' : Contract) :
  fairReveal env gid n salt s = Ok (b, s') ->
  (exists w c p,
     _completeSettlement (game s gid) n
       (replicate (length (participantList (game s gid))) true)
     = Ok (w, c, p, game s' gid)) /\
  participantList (game s' gid) = participantList (game s gid) /\
  forall a, a ∈ participantList (game s gid) ->
    guessedBig (participant (game s' gid) a) = true /\
    choiceRevealed (participant (game s' gid) a) = true /\
    choice (participant (game s' gid) a) = choice (participant (game s gid) a).
Proof.
  unfold fairReveal, gameExists. intros Hrun. cbv zeta in Hrun.
  do 5 peel Hrun. rewrite assume_big_all in Hrun. cbn [bind] in Hrun.
  peel Hrun. destruct x as [[[w c] p] g1]. injection Hrun as <- <-.
  change (game (emit ?e ?x) gid) with (game x gid). rewrite game_set_game_eq.
  split; [eauto|]. split.
  - apply completeSettlement_spec in Hx as (_ & _ & _ & -> & _). reflexivity.
  - intros a Ha.
    destruct (completeSettlement_guesses _ _ _ _ _ _ _ Hx a Ha) as (j & g & _ & Hg & ->).
    apply lookup_replicate in Hg as [-> _]. repeat split.
Qed.

Section AssumeBigExamples.
#[local] Existing Instance plain_oracle.

(** Bob submitted small (handle 0); the creator's fair reveal records him as
    having guessed big. *)
Lemma fairReveal_assumes_big_witness :
  let s' := apply_tx (tx_by host 6000 (FairReveal 0 8 42)) joined in
  fairReveal (local_env host 6000) 0 8 42 joined = Ok (true, s') /\
  bob ∈ participantList (game joined 0) /\
  choice (participant (game s' 0) bob) = 0 /\
  guessedBig (participant (game s' 0) bob) = true.
Proof.
  intros s'.
  assert (Hrun : fairReveal (local_env host 6000) 0 8 42 joined = Ok (true, s'))
    by (vm_compute; reflexivity).
  assert (Hbob : bob ∈ participantList (game joined 0)).
  { replace (participantList (game joined 0)) with [alice; bob]
      by (vm_compute; reflexivity).
    apply list_elem_of_further, list_elem_of_here. }
  destruct (fairReveal_assumes_big _ _ _ _ _ _ _ Hrun) as (_ & _ & Hall).
  destruct (Hall bob Hbob) as (Hbig & _ & Hchoice).
  split; [exact Hrun|]. split; [exact Hbob|]. split; [|exact Hbig].
  rewrite Hchoice. vm_compute. reflexivity.
Defined.
End AssumeBigExamples.

(** * Further properties of the ledger *)

(** ** Rosters, records and the log in reachable states *)

(** Settlement leaves the record of an address that is not listed alone. *)
Lemma completeSettlement_others (g : Game) (n : N) (guesses : list bool)
    (w c p : N) (g' : Game) :
  _completeSettlement g n guesses = Ok (w, c, p, g') ->
  forall a, a ∉ participantList g -> participant g' a = participant g a.
Proof.
  unfold _completeSettlement. cbv zeta.
  change (participantList (set_numberIsBig _ _)) with (participantList g).
  destruct (length (participantList g) =? 0)%nat eqn:Hlen.
  - intros [= _ _ _ <-] a _. reflexivity.
  - intros Hrun a Ha. do 2 peel Hrun. injection Hrun as _ _ _ <-.
    apply reveal_loop_spec in Hx as [_ Hpart].
    change (participant (set_creatorBonusRemainder _ _) a) with (participant x a).
    destruct (Hpart a) as [[-> _] | (j & b & _ & Hat & _)]; [reflexivity|].
    exfalso. apply Ha. eapply list_elem_of_lookup_2. exact Hat.
Qed.

Lemma participant_empty_game (a : address) : participant empty_game a = empty_participant.
Proof. unfold participant. cbn. now rewrite lookup_total_empty. Qed.

Lemma game_facts_empty : game_facts empty_game.
Proof.
  constructor; intros; rewrite ?participant_empty_game; cbn; auto.
  - split; [discriminate | intros Ha; now apply elem_of_nil in Ha].
  - apply not_elem_of_nil.
  - repeat split. all: rewrite participant_empty_game; reflexivity.
  - apply N.le_0_l.
Qed.

Lemma Facts_initial : Facts initial.
Proof.
  intros gid. unfold game, initial. cbn. rewrite lookup_total_empty.
  apply game_facts_empty.
Qed.

Lemma Facts_set_game (s : Contract) (gid : N) (g' : Game) :
  Facts s -> game_facts g' -> Facts (set_game gid g' s).
Proof.
  intros HF Hg gid'. destruct (decide (gid = gid')) as [<-|Hne].
  - now rewrite game_set_game_eq.
  - rewrite game_set_game_ne by assumption. apply HF.
Qed.

Lemma game_facts_create (c : address) (ms et t rp : N) (hh h : bytes32) (auto : bool) :
  game_facts (create_write c ms et t rp hh h auto empty_game).
Proof.
  pose proof game_facts_empty as [].
  constructor; unfold create_write; fields; try assumption.
  - apply not_elem_of_nil.
  - discriminate.
  - intros Hne. now elim Hne.
Qed.

Lemma game_facts_join (g : Game) (a : address) (v : N) (h : bytes32) :
  game_facts g ->
  settled g = false -> a <> creator g -> exists_ (participant g a) = false ->
  totalPot g + v <= MAX_UINT256 ->
  game_facts (join_write a v h g).
Proof.
  intros [] Hs Hcr Hex Hmax.
  assert (Hnot : a ∉ participantList g) by (intros Hin; apply gf_listed0 in Hin; congruence).
  pose proof (gf_absent0 a Hex) as Hempty.
  set (g2 := join_write a v h g).
  assert (Hsame : forall b, b <> a -> participant g2 b = participant g b).
  { intros b Hb. unfold g2, join_write.
    change (participant (set_participantList ?l ?x) b) with (participant x b).
    rewrite participant_set_participant_ne by congruence. reflexivity. }
  assert (Hnew : participant g2 a = Build_Participant h v true false false false false).
  { unfold g2, join_write.
    change (participant (set_participantList ?l ?x) a) with (participant x a).
    rewrite participant_set_participant_eq, Hempty. reflexivity. }
  assert (Hlist : participantList g2 = participantList g ++ [a]) by reflexivity.
  assert (Hcreator : creator g2 = creator g) by reflexivity.
  assert (Hset : settled g2 = settled g) by reflexivity.
  assert (Hpot : totalPot g2 = totalPot g + v) by reflexivity.
  assert (Hpost : (revealedNumber g2, numberIsBig g2, creatorShare g2, creatorClaimed g2,
                   winnersCount g2, payoutPerWinner g2, creatorBonusRemainder g2)
                  = (revealedNumber g, numberIsBig g, creatorShare g, creatorClaimed g,
                     winnersCount g, payoutPerWinner g, creatorBonusRemainder g))
    by reflexivity.
  clearbody g2.
  injection Hpost as E1 E2 E3 E4 E5 E6 E7.
  destruct (gf_open0 Hs) as (Hn & Hb & Hcs & Hcc & Hrev).
  constructor; rewrite ?Hlist, ?Hcreator, ?Hset, ?Hs, ?E1, ?E2, ?E3, ?E4, ?E5, ?E6, ?E7;
    try assumption; try discriminate.
  - intros b. rewrite elem_of_app, list_elem_of_singleton.
    destruct (decide (b = a)) as [->|Hne].
    + rewrite Hnew. cbn. tauto.
    + rewrite Hsame by assumption. rewrite gf_listed0. tauto.
  - rewrite elem_of_app, list_elem_of_singleton. intros [?|?]; [contradiction | congruence].
  - intros b. destruct (decide (b = a)) as [->|Hne].
    + rewrite Hnew. discriminate.
    + rewrite Hsame by assumption. apply gf_absent0.
  - intros b. destruct (decide (b = a)) as [->|Hne].
    + rewrite Hnew. auto.
    + rewrite Hsame by assumption. apply gf_nobody_won0.
  - intros _. do 4 (split; [assumption|]).
    intros b. destruct (decide (b = a)) as [->|Hne].
    + rewrite Hnew. auto.
    + rewrite Hsame by assumption. apply Hrev.
  - intros _. now rewrite Hpot.
Qed.

Lemma game_facts_settle (g : Game) (n : N) (guesses : list bool) (w c p : N) (g1 : Game) :
  game_facts g ->
  _completeSettlement g n guesses = Ok (w, c, p, g1) ->
  game_facts g1.
Proof.
  intros [] Hrun.
  pose proof (completeSettlement_others _ _ _ _ _ _ _ Hrun) as Hothers.
  pose proof (completeSettlement_guesses _ _ _ _ _ _ _ Hrun) as Hlisted.
  apply completeSettlement_spec in Hrun as (_ & _ & _ & Hg1 & Hrev & _).
  assert (Hlist : participantList g1 = participantList g) by (rewrite Hg1; reflexivity).
  assert (Hcreator : creator g1 = creator g) by (rewrite Hg1; reflexivity).
  assert (Hset : settled g1 = true) by (rewrite Hg1; reflexivity).
  assert (Hpost : (revealedNumber g1, numberIsBig g1, creatorShare g1,
                   winnersCount g1, payoutPerWinner g1, creatorBonusRemainder g1)
                  = (n, 5 <? n, totalPot g, 0, 0, 0)) by (rewrite Hg1; reflexivity).
  assert (Hpot : totalPot g1 = totalPot g) by (rewrite Hg1; reflexivity).
  injection Hpost as E1 E2 E3 E4 E5 E6. clear Hg1.
  constructor; rewrite ?Hlist, ?Hcreator, ?Hset, ?Hpot, ?E1, ?E2, ?E3, ?E4, ?E5, ?E6;
    try assumption; try discriminate; auto.
  - intros a. destruct (Hrev a) as (_ & _ & -> & _). apply gf_listed0.
  - intros a Ha. destruct (Hrev a) as (_ & _ & Hex & _). rewrite Hex in Ha.
    rewrite Hothers; [now apply gf_absent0|].
    intros Hin. apply gf_listed0 in Hin. congruence.
  - intros a. destruct (Hrev a) as (_ & _ & _ & -> & ->). apply gf_nobody_won0.
  - intros _. split; [reflexivity|]. split; [reflexivity|].
    intros a Ha. destruct (Hlisted a Ha) as (j & b & _ & _ & ->). reflexivity.
Qed.

(** A game that differs from [g] in its pending flag, request id or
    creator-claimed flag only. *)
Lemma game_facts_flags (g g' : Game) :
  game_facts g ->
  participants g' = participants g -> participantList g' = participantList g ->
  creator g' = creator g -> settled g' = settled g ->
  (revealedNumber g', numberIsBig g', creatorShare g', totalPot g',
   winnersCount g', payoutPerWinner g', creatorBonusRemainder g')
  = (revealedNumber g, numberIsBig g, creatorShare g, totalPot g,
     winnersCount g, payoutPerWinner g, creatorBonusRemainder g) ->
  (settled g = false -> creatorClaimed g' = false) ->
  game_facts g'.
Proof.
  intros [] Hps Hl Hc Hs Hpost Hcc.
  assert (Hp : forall a, participant g' a = participant g a)
    by (intros a; unfold participant; now rewrite Hps).
  injection Hpost as Hn Hb Hcs Hpot Hw Hpp Hr.
  constructor; rewrite ?Hl, ?Hc, ?Hs, ?Hn, ?Hb, ?Hcs, ?Hpot, ?Hw, ?Hpp, ?Hr;
    try assumption.
  - intros a. rewrite Hp. apply gf_listed0.
  - intros a. rewrite Hp. apply gf_absent0.
  - intros a. rewrite Hp. apply gf_nobody_won0.
  - intros Hopen. destruct (gf_open0 Hopen) as (? & ? & ? & ? & Hrev).
    do 4 (split; [auto|]). intros a. rewrite Hp. apply Hrev.
  - intros Hset. destruct (gf_settled0 Hset) as (? & ? & Hrev).
    do 2 (split; [auto|]). intros a. rewrite Hp. apply Hrev.
Qed.

Lemma move_Facts (now : N) (s s' : Contract) :
  Inv now s -> Facts s -> move now s s' -> Facts s'.
Proof.
  intros HI HF Hm. destruct Hm.
  - (* create *)
    intros gid. rewrite game_emit.
    destruct (decide (nextGameId s = gid)) as [<-|Hne].
    + rewrite game_set_game_eq.
      rewrite (game_fresh s (nextGameId s)) by (apply HI; lia).
      apply game_facts_create.
    + rewrite game_set_game_ne by assumption. apply (HF gid).
  - (* join *)
    apply (Facts_set_game s gid _ HF).
    apply game_facts_join; auto.
  - (* request *)
    apply (Facts_set_game s gid _ HF).
    apply (game_facts_flags (game s gid)); auto. intros _.
    destruct (HF gid). now apply gf_open0.
  - (* settle *)
    apply (Facts_set_game s gid _ HF).
    eapply game_facts_settle; [apply HF | eassumption].
  - (* pay creator *)
    apply (Facts_set_game s gid _ HF).
    apply (game_facts_flags (game s gid)); auto. congruence.
  - (* pay winner: nobody has won *)
    destruct (HF gid). destruct (gf_nobody_won0 a). congruence.
  - exact HF.
  - exact HF.
Qed.

Lemma reachable_Facts `{External} (now : N) (s : Contract) : reachable now s -> Facts s.
Proof.
  apply (reachable_moves_ind (fun _ s => Facts s)).
  - apply Facts_initial.
  - auto.
  - apply move_Facts.
Qed.

Lemma log_inv_initial : log_inv initial.
Proof.
  assert (Hg : forall gid, game initial gid = empty_game).
  { intros gid. unfold game, initial. cbn. now rewrite lookup_total_empty. }
  constructor; intros; rewrite Hg; cbn; rewrite elem_of_nil.
  - split; [tauto | intros [Hlt _]; lia].
  - split; [tauto | intros [Hin _]; now apply elem_of_nil in Hin].
  - split; [tauto | intros [Hs _]; discriminate].
Qed.

(** A step that logs no ledger event and leaves what the ledger events
    report as it was. *)
Lemma log_inv_same (s s' : Contract) (new : list Event) :
  log_inv s ->
  nextGameId s' = nextGameId s ->
  events s' = new ++ events s -> (forall e, e ∈ new -> ledger_event e = false) ->
  (forall gid,
     created_data (game s' gid) = created_data (game s gid) /\
     participantList (game s' gid) = participantList (game s gid) /\
     (forall a, stake (participant (game s' gid) a) = stake (participant (game s gid) a)) /\
     settled (game s' gid) = settled (game s gid) /\
     settled_data (game s' gid) = settled_data (game s gid)) ->
  log_inv s'.
Proof.
  intros [] Hn He Hnew Hsame.
  assert (Hin : forall e, ledger_event e = true -> e ∈ events s' <-> e ∈ events s).
  { intros e Hl. rewrite He, elem_of_app. split; [|auto].
    intros [Hin|?]; [|assumption]. apply Hnew in Hin. congruence. }
  constructor; intros; rewrite Hin by reflexivity;
    destruct (Hsame gid) as (Hc & Hl & Hst & Hs & Hd).
  - rewrite Hn, Hc. apply li_created0.
  - rewrite Hl, Hst. apply li_joined0.
  - rewrite Hs, Hd. apply li_settled0.
Qed.

Lemma move_log_inv (now : N) (s s' : Contract) :
  Inv now s -> log_inv s -> move now s s' -> log_inv s'.
Proof.
  intros HI HL Hm. destruct Hm.
  - (* create *)
    destruct HL. destruct HI as [_ Hfresh].
    pose proof (game_fresh s (nextGameId s) (Hfresh _ (N.le_refl _))) as Hempty.
    set (s' := emit _ _).
    assert (Hnext : nextGameId s' = nextGameId s + 1) by reflexivity.
    assert (Hev : events s' = GameCreated (nextGameId s) c ms et rp :: events s)
      by reflexivity.
    assert (Hother : forall gid, gid <> nextGameId s -> game s' gid = game s gid).
    { intros gid Hne. unfold s'. rewrite game_emit, game_set_game_ne by congruence.
      reflexivity. }
    assert (Hnew : game s' (nextGameId s)
                   = create_write c ms et now rp hh h auto empty_game).
    { unfold s'. rewrite game_emit, game_set_game_eq, Hempty. reflexivity. }
    clearbody s'.
    constructor; intros; rewrite Hev, elem_of_cons.
    + rewrite li_created0, Hnext.
      destruct (decide (gid = nextGameId s)) as [->|Hne].
      * rewrite Hnew. unfold created_data, create_write. fields.
        split; [intros [[= -> -> -> ->] | [Hlt _]]; [split; [lia | reflexivity] | lia]|].
        intros [_ [= -> -> -> ->]]. now left.
      * rewrite Hother by assumption.
        split; [intros [[= -> _ _ _ _] | [Hlt Hd]]; [contradiction | split; [lia | assumption]]|].
        intros [Hlt Hd]. right. split; [lia | assumption].
    + rewrite li_joined0.
      destruct (decide (gid = nextGameId s)) as [->|Hne].
      * rewrite Hnew, Hempty. unfold create_write. fields. cbn.
        split; [intros [? | [Hin _]]; [discriminate | now apply elem_of_nil in Hin]|].
        intros [Hin _]. now apply elem_of_nil in Hin.
      * rewrite Hother by assumption.
        split; [intros [?|?]; [discriminate | assumption] | auto].
    + rewrite li_settled0.
      destruct (decide (gid = nextGameId s)) as [->|Hne].
      * rewrite Hnew, Hempty. unfold create_write. fields. cbn.
        split; [intros [? | [? _]]; discriminate | intros [? _]; discriminate].
      * rewrite Hother by assumption.
        split; [intros [?|?]; [discriminate | assumption] | auto].
  - (* join *)
    assert (Hnot : a ∉ participantList (game s gid)).
    { intros Hin. destruct HI as [Hgames _].
      destruct (Hgames gid H) as [_ _ Hj _ _ _ _ _ _].
      destruct (Hj a Hin). congruence. }
    destruct HL.
    set (g' := join_write a v h (game s gid)).
    set (s' := emit _ _).
    assert (Hnext : nextGameId s' = nextGameId s) by reflexivity.
    assert (Hev : events s' = GameJoined gid a v :: events s) by reflexivity.
    assert (Hother : forall gid', gid' <> gid -> game s' gid' = game s gid').
    { intros gid' Hne. unfold s'. rewrite game_emit, game_set_game_ne by congruence.
      reflexivity. }
    assert (Hnew : game s' gid = g') by (unfold s'; now rewrite game_emit, game_set_game_eq).
    assert (Hdata : created_data g' = created_data (game s gid) /\
                    settled g' = settled (game s gid) /\
                    settled_data g' = settled_data (game s gid) /\
                    participantList g' = participantList (game s gid) ++ [a])
      by (repeat split).
    destruct Hdata as (Hc & Hs & Hd & Hl).
    assert (Hstake_a : stake (participant g' a) = v).
    { unfold g', join_write.
      change (participant (set_participantList ?l ?x) a) with (participant x a).
      now rewrite participant_set_participant_eq. }
    assert (Hstake_b : forall b, b <> a ->
              stake (participant g' b) = stake (participant (game s gid) b)).
    { intros b Hb. unfold g', join_write.
      change (participant (set_participantList ?l ?x) b) with (participant x b).
      now rewrite participant_set_participant_ne by congruence. }
    clearbody s' g'.
    constructor.
    + intros gid' c' ms' et' rp'. rewrite Hev, elem_of_cons, li_created0, Hnext.
      assert (Hsame : created_data (game s' gid') = created_data (game s gid')).
      { destruct (decide (gid' = gid)) as [->|Hne]; [now rewrite Hnew | now rewrite Hother]. }
      rewrite Hsame. split; [intros [?|?]; [discriminate | assumption] | auto].
    + intros gid' a' v'. rewrite Hev, elem_of_cons, li_joined0.
      destruct (decide (gid' = gid)) as [->|Hne].
      * rewrite Hnew, Hl, elem_of_app, list_elem_of_singleton.
        destruct (decide (a' = a)) as [->|Hna].
        -- rewrite Hstake_a.
           split; [intros [[= ->] | [Hin _]]; [auto | contradiction]|].
           intros [_ ->]. now left.
        -- rewrite Hstake_b by assumption.
           split; [intros [[= -> ->] | [Hin Hv]]; [contradiction | auto]|].
           intros [[Hin|?] Hv]; [auto | contradiction].
      * rewrite Hother by assumption.
        split; [intros [[= -> _ _]|?]; [contradiction | assumption] | auto].
    + intros gid' n b w c p. rewrite Hev, elem_of_cons, li_settled0.
      assert (Hsame : settled (game s' gid') = settled (game s gid') /\
                      settled_data (game s' gid') = settled_data (game s gid')).
      { destruct (decide (gid' = gid)) as [->|Hne]; [now rewrite Hnew | now rewrite Hother]. }
      destruct Hsame as [-> ->].
      split; [intros [?|?]; [discriminate | assumption] | auto].
  - (* request *)
    apply (log_inv_same s _ [RevealRequested gid rid] HL); [reflexivity | reflexivity | |].
    + intros e He. apply list_elem_of_singleton in He as ->. reflexivity.
    + intros gid'. change (game (emit ?e (set_requestToGame ?m ?x)) gid') with (game x gid').
      destruct (decide (gid = gid')) as [<-|Hne].
      * rewrite game_set_game_eq. repeat split.
      * rewrite game_set_game_ne by assumption. repeat split.
  - (* settle *)
    assert (Hopen : settled (game s gid) = false).
    { destruct H0 as [Hp | (_ & ? & _)]; [|assumption].
      now destruct (Inv_pending now s gid HI Hp) as (_ & ? & _). }
    apply completeSettlement_spec in H as (-> & -> & -> & Hg1 & Hrev & _).
    assert (Hdata : created_data g1 = created_data (game s gid) /\
                    participantList g1 = participantList (game s gid) /\
                    settled g1 = true /\
                    settled_data g1 = (n, 5 <? n, 0, totalPot (game s gid), 0))
      by (rewrite Hg1; repeat split).
    destruct Hdata as (Hc & Hl & Hs & Hd). clear Hg1.
    destruct HL.
    set (s' := emit _ _).
    assert (Hnext : nextGameId s' = nextGameId s) by reflexivity.
    assert (Hev : events s'
                  = GameSettled gid n (5 <? n) 0 (totalPot (game s gid)) 0 :: events s)
      by reflexivity.
    assert (Hother : forall gid', gid' <> gid -> game s' gid' = game s gid').
    { intros gid' Hne. unfold s'. rewrite game_emit, game_set_game_ne by congruence.
      reflexivity. }
    assert (Hnew : game s' gid = g1) by (unfold s'; now rewrite game_emit, game_set_game_eq).
    clearbody s'.
    constructor.
    + intros gid' c' ms' et' rp'. rewrite Hev, elem_of_cons, li_created0, Hnext.
      assert (Hsame : created_data (game s' gid') = created_data (game s gid')).
      { destruct (decide (gid' = gid)) as [->|Hne]; [now rewrite Hnew | now rewrite Hother]. }
      rewrite Hsame. split; [intros [?|?]; [discriminate | assumption] | auto].
    + intros gid' a' v'. rewrite Hev, elem_of_cons, li_joined0.
      assert (Hsame : participantList (game s' gid') = participantList (game s gid') /\
                      stake (participant (game s' gid') a')
                      = stake (participant (game s gid') a')).
      { destruct (decide (gid' = gid)) as [->|Hne]; [|now rewrite Hother].
        rewrite Hnew. split; [assumption|]. apply (Hrev a'). }
      destruct Hsame as [-> ->].
      split; [intros [?|?]; [discriminate | assumption] | auto].
    + intros gid' n' b' w' c' p'. rewrite Hev, elem_of_cons, li_settled0.
      destruct (decide (gid' = gid)) as [->|Hne].
      * rewrite Hnew, Hs, Hd, Hopen.
        split; [intros [[= -> -> -> -> ->] | [? _]]; [auto | discriminate]|].
        intros [_ [= -> -> -> -> ->]]. now left.
      * rewrite Hother by assumption.
        split; [intros [[= -> _ _ _ _ _]|?]; [contradiction | assumption] | auto].
  - (* pay creator *)
    apply (log_inv_same s _ [] HL); [reflexivity | reflexivity | |].
    + intros e He. now apply elem_of_nil in He.
    + intros gid'. destruct (decide (gid = gid')) as [<-|Hne].
      * rewrite game_set_game_eq. repeat split.
      * rewrite game_set_game_ne by assumption. repeat split.
  - (* pay winner *)
    apply (log_inv_same s _ [] HL); [reflexivity | reflexivity | |].
    + intros e He. now apply elem_of_nil in He.
    + intros gid'. destruct (decide (gid = gid')) as [<-|Hne].
      * rewrite game_set_game_eq. repeat split.
        intros b. destruct (decide (a = b)) as [<-|Hb].
        -- now rewrite participant_set_participant_eq.
        -- now rewrite participant_set_participant_ne.
      * rewrite game_set_game_ne by assumption. repeat split.
  - (* a claim is logged *)
    apply (log_inv_same s _ [e] HL); [reflexivity | reflexivity | | repeat split].
    intros e' He. apply list_elem_of_singleton in He as ->. now destruct e.
  - (* the guard *)
    apply (log_inv_same s _ [] HL); [reflexivity | reflexivity | | repeat split].
    intros e He. now apply elem_of_nil in He.
Qed.

Lemma reachable_log_inv `{External} (now : N) (s : Contract) : reachable now s -> log_inv s.
Proof.
  apply (reachable_moves_ind (fun _ s => log_inv s)).
  - apply log_inv_initial.
  - auto.
  - apply move_log_inv.
Qed.

Lemma move_registry (now : N) (s s' : Contract) :
  move now s s' ->
  _requestToGame s' = _requestToGame s \/
  exists gid rid, _requestToGame s' = <[rid := gid]> (_requestToGame s) /\
                  gid < nextGameId s /\ revealPending (game s' gid) = true.
Proof.
  intros Hm. destruct Hm; try (left; reflexivity).
  right. exists gid, rid. split; [reflexivity|]. split; [assumption|].
  change (game (emit ?e (set_requestToGame ?m ?x)) gid) with (game x gid).
  now rewrite game_set_game_eq.
Qed.

Lemma move_registry_inv (now : N) (s s' : Contract) :
  Inv now s -> registry_inv s -> move now s s' -> registry_inv s'.
Proof.
  intros HI HR Hm. pose proof (move_kept now s s' HI Hm) as [Hn Hk].
  assert (Hold : forall rid gid, _requestToGame s !! rid = Some gid ->
            gid < nextGameId s' /\
            (revealPending (game s' gid) = true \/ settled (game s' gid) = true)).
  { intros rid gid Hlook. destruct (HR rid gid Hlook) as [Hlt Hflag].
    split; [lia|]. exact (proj2 (gk_request _ _ _ (Hk gid Hlt) Hflag)). }
  intros rid gid Hlook.
  destruct (move_registry now s s' Hm) as [Hsame | (gid0 & rid0 & Hins & Hlt & Hpen)].
  - rewrite Hsame in Hlook. eauto.
  - rewrite Hins in Hlook. destruct (decide (rid0 = rid)) as [->|Hne].
    + rewrite lookup_insert_eq in Hlook. injection Hlook as <-.
      split; [lia | now left].
    + rewrite lookup_insert_ne in Hlook by assumption. eauto.
Qed.

Lemma reachable_registry `{External} (now : N) (s : Contract) :
  reachable now s -> registry_inv s.
Proof.
  apply (reachable_moves_ind (fun _ s => registry_inv s)).
  - intros rid gid Hlook. cbn in Hlook. now rewrite lookup_empty in Hlook.
  - auto.
  - apply move_registry_inv.
Qed.


(** What a reachable state gives. *)
Lemma reachable_all `{External} (now : N) (s : Contract) :
  reachable now s ->
  Inv now s /\ Facts s /\ log_inv s /\ registry_inv s /\ _status s = false.
Proof.
  intros Hr. destruct (reachable_inv now s Hr) as [HI Hst].
  split; [assumption|]. split; [eapply reachable_Facts; eauto|].
  split; [eapply reachable_log_inv; eauto|].
  split; [eapply reachable_registry; eauto | assumption].
Qed.

(** A slot beyond the counter is the zero game. *)
Lemma Inv_fresh (now : N) (s : Contract) (gid : N) :
  Inv now s -> nextGameId s <= gid -> game s gid = empty_game.
Proof. intros [_ Hf] Hge. apply game_fresh. auto. Qed.

Lemma listed_created (now : N) (s : Contract) (gid : N) (a : address) :
  Inv now s -> a ∈ participantList (game s gid) -> gid < nextGameId s.
Proof.
  intros HI Ha. destruct (N.lt_ge_cases gid (nextGameId s)) as [|Hge]; [assumption|].
  rewrite (Inv_fresh now s gid HI Hge) in Ha. now apply elem_of_nil in Ha.
Qed.

Lemma later_reachable `{External} (txs : list Tx) (now : N) (s : Contract) :
  reachable now s -> ordered now txs = true ->
  reachable (final_time now txs) (run_txs txs s).
Proof. apply reachable_run_txs. Qed.

(** A successful call, seen as a transaction. *)
Lemma exec_reachable `{External} (now : N) (s : Contract) (tx : Tx) (s' : Contract) :
  reachable now s -> now <= block_timestamp (tx_env tx) -> exec tx s = Ok s' ->
  reachable (block_timestamp (tx_env tx)) s'.
Proof.
  intros Hr Hle Hok. replace s' with (apply_tx tx s).
  - now apply (reachable_tx now).
  - unfold apply_tx, apply_call. unfold exec in Hok. now rewrite Hok.
Qed.

Lemma stakes_at_least (g : Game) (m : N) (l : list address) :
  (forall a, a ∈ l -> m <= stake (participant g a)) ->
  N.of_nat (length l) * m <= stakes_of g l.
Proof.
  unfold stakes_of. induction l as [|a l IH]; intros Hall; cbn [length foldr]; [lia|].
  assert (Ha : m <= stake (participant g a)) by (apply Hall, list_elem_of_here).
  assert (Hl : N.of_nat (length l) * m <= foldr (fun a acc => stake (participant g a) + acc) 0 l).
  { apply IH. intros b Hb. apply Hall. now apply list_elem_of_further. }
  lia.
Qed.

(** The number of handles of a decryption request fits a [uint256]. *)
Lemma handle_count_fits (now : N) (s : Contract) (gid : N) :
  Inv now s -> Facts s ->
  N.of_nat (length (participantList (game s gid))) + 1 <= MAX_UINT256.
Proof.
  intros HI HF.
  destruct (participantList (game s gid)) as [|a l] eqn:Hl.
  - cbn. unfold MAX_UINT256. lia.
  - assert (Ha : a ∈ participantList (game s gid)) by (rewrite Hl; apply list_elem_of_here).
    pose proof (listed_created now s gid a HI Ha) as Hlt.
    destruct (HF gid) as [_ _ _ _ _ _ _ Hpot].
    destruct HI as [Hgames _]. destruct (Hgames gid Hlt) as [_ Hmin Hj _ Hsum _ _ _ _].
    assert (Hbound : totalPot (game s gid) <= MAX_UINT256)
      by (apply Hpot; rewrite Hl; discriminate).
    pose proof (stakes_at_least (game s gid) MIN_STAKE (participantList (game s gid))) as Hst.
    rewrite <- Hl.
    assert (Hlen : (1 <= length (participantList (game s gid)))%nat)
      by (rewrite Hl; cbn; lia).
    unfold MIN_STAKE in *.
    assert (Hall : N.of_nat (length (participantList (game s gid))) * 1000000000000000
                   <= sum_stakes (game s gid)).
    { apply Hst. intros b Hb. destruct (Hj b Hb). lia. }
    lia.
Qed.

Lemma completeSettlement_settled_on (g : Game) (n : N) (guesses : list bool)
    (w c p : N) (g' : Game) :
  NoDup (participantList g) ->
  _completeSettlement g n guesses = Ok (w, c, p, g') ->
  settled_on n guesses g g' /\ (w, c, p) = (0, totalPot g, 0).
Proof.
  intros Hnd Hrun.
  pose proof (completeSettlement_guesses _ _ _ _ _ _ _ Hrun) as Hlisted.
  apply completeSettlement_spec in Hrun as (-> & -> & -> & Hg' & _).
  split; [|reflexivity].
  unfold settled_on. rewrite Hg' at 1 2 3 4 5 6 7 8 9 10.
  do 10 (split; [reflexivity|]).
  intros j a Hj.
  destruct (Hlisted a (list_elem_of_lookup_2 _ _ _ Hj)) as (j' & b & Hj' & Hb & Hp).
  assert (j' = j) by (eapply NoDup_lookup; eauto). subst j'.
  exists b. rewrite Hp. repeat split. exact Hb.
Qed.

Lemma callback_reachable `{External} (now : N) (s : Contract) (sc : Script) (env : Env)
    (rid : N) (ct pr : bytes) (b : bool) (s' : Contract) :
  reachable now s -> now <= block_timestamp env ->
  revealCallback (run sc) env rid ct pr s = Ok (b, s') ->
  reachable (block_timestamp env) s' /\ grows s s'.
Proof.
  intros Hr Hle Hok. split.
  - apply (exec_reachable now s
             {| tx_env := env; tx_call := RevealCallback rid ct pr; tx_recipient := sc |});
      [assumption | assumption |].
    unfold exec. cbn [tx_env tx_call tx_recipient dispatch]. now rewrite Hok.
  - apply (revealCallback_ok (run sc) (run_ok sc)) in Hok. apply Hok.
Qed.

(** What a successful callback has done. *)
Lemma callback_settled `{External}
    (call_value : Env -> address -> N -> Contract -> option Contract)
    (env : Env) (rid : N) (ct pr : bytes) (s : Contract) (b : bool) (s' : Contract) :
  revealCallback call_value env rid ct pr s = Ok (b, s') ->
  let gid := requestToGame s rid in
  b = true /\ revealPending (game s gid) = true /\
  exists n guesses g1 mid,
    _completeSettlement (game s gid) n guesses = Ok (0, totalPot (game s gid), 0, g1) /\
    mid = emit (GameSettled gid n (5 <? n) 0 (totalPot (game s gid)) 0) (set_game gid g1 s) /\
    (if autoSettleEnabled (game s gid)
     then _autoDistributeRewards call_value env gid mid = Ok s'
     else s' = mid).
Proof.
  intros Hok gid. unfold revealCallback in Hok. cbv zeta in Hok. fold gid in Hok.
  do 3 peel Hok. destruct x as [[[w c] p] g1]. peel Hok. injection Hok as <- <-.
  split; [reflexivity|]. split; [assumption|].
  assert (Hex : exists n guesses,
            _completeSettlement (game s gid) n guesses = Ok (w, c, p, g1)).
  { destruct (_ =? _)%nat; peel Hx; eauto. }
  destruct Hex as (n & guesses & Hex). exists n, guesses, g1.
  pose proof Hex as Hspec.
  apply completeSettlement_spec in Hspec as (-> & -> & -> & Hg1 & _).
  assert (Hfields : autoSettleEnabled g1 = autoSettleEnabled (game s gid) /\
                    revealedNumber g1 = n /\ numberIsBig g1 = (5 <? n))
    by (rewrite Hg1; repeat split).
  destruct Hfields as (Hauto & Hn & Hb). rewrite Hauto, Hn, Hb in Hx0.
  eexists. split; [exact Hex|]. split; [reflexivity|].
  destruct (autoSettleEnabled (game s gid)); [exact Hx0 | now injection Hx0].
Qed.

Lemma move_duration (now : N) (s s' : Contract) :
  Inv now s ->
  (forall gid, gid < nextGameId s ->
     createdAt (game s gid) <= now /\
     createdAt (game s gid) + MIN_DURATION < endTime (game s gid)) ->
  move now s s' ->
  forall gid, gid < nextGameId s' ->
    createdAt (game s' gid) <= now /\
    createdAt (game s' gid) + MIN_DURATION < endTime (game s' gid).
Proof.
  intros HI HJ Hm gid Hlt.
  destruct (move_kept now s s' HI Hm) as [_ Hk].
  destruct (N.lt_ge_cases gid (nextGameId s)) as [Hold|Hnew].
  - destruct (Hk gid Hold) as [Hpar _ _ _ _ _ _].
    injection Hpar as _ _ -> -> _ _ _ _. now apply HJ.
  - destruct Hm; try (cbn in Hlt; lia).
    cbn [nextGameId emit set_events set_game set_games set_nextGameId] in Hlt.
    assert (gid = nextGameId s) by lia. subst gid.
    rewrite game_emit, game_set_game_eq. unfold create_write. fields. lia.
Qed.

(** The example rounds with a reveal requested. *)
Section PendingRounds.
#[local] Existing Instance plain_oracle.

Lemma pending_reachable : reachable 6000 pending.
Proof. exact (reachable_run_txs pending_txs 0 initial reachable_initial eq_refl). Qed.

Lemma auto_pending_reachable : reachable 6000 auto_pending.
Proof. exact (reachable_run_txs auto_pending_txs 0 initial reachable_initial eq_refl). Qed.

Lemma joined_roster : participantList (game joined 0) = [alice; bob].
Proof. vm_compute. reflexivity. Qed.

Lemma debug_settled_roster : participantList (game debug_settled 0) = [alice; bob].
Proof. vm_compute. reflexivity. Qed.
End PendingRounds.

(** ** Creating games *)

(** X1: [createGame] accepts a call exactly when [block.timestamp + 60]
    fits a [uint256], the end time is more than [MIN_DURATION] seconds
    after the time of the block (an end time of exactly
    [block.timestamp + 60] is refused), the minimum stake is at
    least [MIN_STAKE], the reward is at least one wei and equals the value
    sent, the game counter does not overflow and the input proof is
    accepted.  It fails with the error of the first of the four checks
    that fails, in the order of the source.  A successful call returns the
    old [totalGames] as the id, adds one to [totalGames], logs one
    [GameCreated] event and leaves every other game, the request registry
    and the guard flag as they were. *)
Theorem createGame_accepts `{External} (env : Env) (v : N) (h : bytes32) (pr : bytes)
    (hh : bytes32) (ms et rp : N) (auto : bool) (s : Contract) :
  let run := createGame env v h pr hh ms et rp auto s in
  let limit := block_timestamp env + MIN_DURATION in
  ((exists gid s', run = Ok (gid, s')) <->
   limit <= MAX_UINT256 /\ limit < et /\ MIN_STAKE <= ms /\ MIN_CREATOR_REWARD <= rp /\
   v = rp /\ nextGameId s + 1 <= MAX_UINT256 /\
   is_Some (FHE_fromExternal_euint8 h pr (msg_sender env))) /\
  (limit <= MAX_UINT256 -> et <= limit -> run = Err EndTimeTooSoon) /\
  (limit <= MAX_UINT256 -> limit < et -> ms < MIN_STAKE -> run = Err MinStakeTooLow) /\
  (limit <= MAX_UINT256 -> limit < et -> MIN_STAKE <= ms -> rp = 0 ->
   run = Err RewardTooSmall) /\
  (limit <= MAX_UINT256 -> limit < et -> MIN_STAKE <= ms -> 0 < rp -> v <> rp ->
   run = Err RewardFundingMismatch) /\
  (forall gid s', run = Ok (gid, s') ->
     gid = totalGames s /\ totalGames s' = totalGames s + 1 /\
     (forall gid', gid' <> gid -> game s' gid' = game s gid') /\
     _requestToGame s' = _requestToGame s /\ _status s' = _status s /\
     events s' = GameCreated gid (msg_sender env) ms et rp :: events s).
Proof.
  intros run limit. unfold run, createGame. cbv zeta. fold limit.
  unfold MIN_CREATOR_REWARD.
  split; [|split; [|split; [|split; [|split]]]].
  - split.
    + intros (gid & s' & Hok). do 5 peel Hok. do 2 peel Hok.
      apply checked_add_Ok in Hx as [-> Hmax]. apply checked_add_Ok in Hx0 as [_ Hctr].
      apply N.ltb_lt in Hc. apply N.leb_le in Hc0, Hc1. apply N.eqb_eq in Hc2.
      apply of_option_Ok in Hx1. repeat split; try assumption. now exists x1.
    + intros (Hmax & Hlim & Hms & Hrp & -> & Hctr & [hd Hhd]).
      rewrite (checked_add_small _ _ Hmax), (checked_add_small _ _ Hctr), Hhd.
      cbn [bind of_option]. fold limit.
      apply N.ltb_lt in Hlim. apply N.leb_le in Hms, Hrp.
      rewrite Hlim, Hms, Hrp, N.eqb_refl. eauto.
  - intros Hmax Het. rewrite (checked_add_small _ _ Hmax). cbn [bind]. fold limit.
    apply N.ltb_ge in Het. now rewrite Het.
  - intros Hmax Hlim Hms. rewrite (checked_add_small _ _ Hmax). cbn [bind]. fold limit.
    apply N.ltb_lt in Hlim. apply N.leb_gt in Hms. now rewrite Hlim, Hms.
  - intros Hmax Hlim Hms ->. rewrite (checked_add_small _ _ Hmax). cbn [bind]. fold limit.
    apply N.ltb_lt in Hlim. apply N.leb_le in Hms. now rewrite Hlim, Hms.
  - intros Hmax Hlim Hms Hrp Hv. rewrite (checked_add_small _ _ Hmax). cbn [bind].
    fold limit. apply N.ltb_lt in Hlim. apply N.leb_le in Hms.
    assert (Hrp' : (1 <=? rp) = true) by (apply N.leb_le; lia).
    apply N.eqb_neq in Hv. now rewrite Hlim, Hms, Hrp', Hv.
  - intros gid s' Hok. do 5 peel Hok. do 2 peel Hok.
    apply checked_add_Ok in Hx0 as [-> _]. injection Hok as <- <-.
    unfold totalGames. split; [reflexivity|]. split; [reflexivity|].
    split; [|repeat split].
    intros gid' Hne. rewrite game_emit, game_set_game_ne by congruence. reflexivity.
Qed.

(** X2: what is created can be read back.  In a reachable state, after a
    successful [createGame] the id that was unknown to [getGame] before
    reads back, through [getGame], the caller as creator, the parameters of
    the call, the time of the block as [createdAt], a pot equal to the value
    sent, and a game that is open, unsettled, unclaimed and without
    participants; [listParticipants] is empty, every address has the zero
    view, [getEncryptedSecret] is the handle [FHE.fromExternal] returned,
    [totalGames] is the new id plus one, and the views of every earlier game
    are unchanged. *)
Theorem createGame_then_views `{External} (now : N) (s : Contract) (env : Env) (v : N)
    (h : bytes32) (pr : bytes) (hh : bytes32) (ms et rp : N) (auto : bool)
    (gid : N) (s' : Contract) :
  reachable now s ->
  createGame env v h pr hh ms et rp auto s = Ok (gid, s') ->
  getGame gid s = Err GameNotFound /\
  getGame gid s'
  = Ok {| gs_creator := msg_sender env; gs_minStake := ms;
          gs_createdAt := block_timestamp env; gs_endTime := et;
          gs_rewardPool := rp; gs_totalPot := v;
          gs_revealPending := false; gs_settled := false; gs_autoSettleEnabled := auto;
          gs_revealedNumber := 0; gs_numberIsBig := false; gs_winnersCount := 0;
          gs_creatorShare := 0; gs_payoutPerWinner := 0; gs_participantCount := 0;
          gs_creatorClaimed := false |} /\
  listParticipants gid s' = Ok [] /\
  (forall a, getParticipant gid a s' = Ok zero_view) /\
  FHE_fromExternal_euint8 h pr (msg_sender env) = Some (secretNumber (game s' gid)) /\
  getEncryptedSecret gid s' = Ok (secretNumber (game s' gid)) /\
  secretNumberHash (game s' gid) = hh /\
  totalGames s' = gid + 1 /\
  (forall gid', gid' < gid ->
     getGame gid' s' = getGame gid' s /\
     listParticipants gid' s' = listParticipants gid' s /\
     getEncryptedSecret gid' s' = getEncryptedSecret gid' s /\
     forall a, getParticipant gid' a s' = getParticipant gid' a s).
Proof.
  intros Hr Hok. destruct (reachable_all now s Hr) as (HI & _).
  unfold createGame in Hok. cbv zeta in Hok. do 5 peel Hok. do 2 peel Hok.
  apply checked_add_Ok in Hx0 as [-> _]. apply N.eqb_eq in Hc2. subst v.
  apply of_option_Ok in Hx1. injection Hok as <- <-.
  change (game (set_nextGameId _ s) (nextGameId s)) with (game s (nextGameId s)).
  rewrite (Inv_fresh now s (nextGameId s) HI) by lia.
  set (g' := set_autoSettleEnabled _ _).
  set (s' := emit _ _).
  assert (Hnext : nextGameId s' = nextGameId s + 1) by reflexivity.
  assert (Hnew : game s' (nextGameId s) = g').
  { unfold s'. now rewrite game_emit, game_set_game_eq. }
  assert (Hother : forall gid', gid' < nextGameId s -> game s' gid' = game s gid').
  { intros gid' Hlt. unfold s'. rewrite game_emit, game_set_game_ne by lia. reflexivity. }
  assert (Hp : forall a, participant g' a = empty_participant).
  { intros a. exact (participant_empty_game a). }
  clearbody s'.
  assert (Hin : (nextGameId s <? nextGameId s') = true) by (apply N.ltb_lt; lia).
  split; [|split; [|split; [|split; [|split; [|split; [|split; [|split]]]]]]].
  - unfold getGame, gameExists. now rewrite N.ltb_irrefl.
  - unfold getGame, gameExists. rewrite Hin. cbv zeta. rewrite Hnew. reflexivity.
  - unfold listParticipants, gameExists. rewrite Hin, Hnew. reflexivity.
  - intros a. unfold getParticipant, gameExists. rewrite Hin. cbv zeta.
    rewrite Hnew, Hp. reflexivity.
  - rewrite Hnew. exact Hx1.
  - unfold getEncryptedSecret, gameExists. now rewrite Hin.
  - rewrite Hnew. reflexivity.
  - exact Hnext.
  - intros gid' Hlt.
    assert (Hlt1 : (gid' <? nextGameId s) = true) by (apply N.ltb_lt; lia).
    assert (Hlt2 : (gid' <? nextGameId s') = true) by (apply N.ltb_lt; lia).
    unfold getGame, listParticipants, getEncryptedSecret, getParticipant, gameExists.
    rewrite Hlt1, Hlt2. cbv zeta. rewrite (Hother gid' Hlt). auto.
Qed.

(** X3: in every reachable state every created game was created no later
    than the latest block and ends more than [MIN_DURATION] seconds after
    its creation: there is always a window for joining. *)
Theorem games_outlast_min_duration `{External} (now : N) (s : Contract) (gid : N) :
  reachable now s -> gid < totalGames s ->
  createdAt (game s gid) <= now /\
  createdAt (game s gid) + MIN_DURATION < endTime (game s gid).
Proof.
  intros Hr. revert gid. unfold totalGames.
  apply (reachable_moves_ind
           (fun now s => forall gid, gid < nextGameId s ->
              createdAt (game s gid) <= now /\
              createdAt (game s gid) + MIN_DURATION < endTime (game s gid)));
    [| | |exact Hr].
  - intros gid Hlt. cbn in Hlt. lia.
  - intros t t' s0 Hle _ HJ gid Hlt. destruct (HJ gid Hlt). split; [lia | assumption].
  - intros t s0 s1 HI HJ Hm. now apply (move_duration t s0 s1).
Qed.

(** X4: the parameters of a game never change.  Whatever transactions
    follow a reachable state, a game that exists in it keeps its creator,
    minimum stake, end time, creation time, reward pool, encrypted secret,
    hash commitment and auto-settle flag, and [getEncryptedSecret] keeps
    returning the same handle. *)
Theorem game_parameters_are_fixed `{External} (now : N) (s : Contract) (txs : list Tx)
    (gid : N) :
  reachable now s -> ordered now txs = true -> gid < totalGames s ->
  let g := game s gid in
  let g' := game (run_txs txs s) gid in
  gid < totalGames (run_txs txs s) /\
  creator g' = creator g /\ minStake g' = minStake g /\ endTime g' = endTime g /\
  createdAt g' = createdAt g /\ rewardPool g' = rewardPool g /\
  secretNumber g' = secretNumber g /\ secretNumberHash g' = secretNumberHash g /\
  autoSettleEnabled g' = autoSettleEnabled g /\
  getEncryptedSecret gid (run_txs txs s) = getEncryptedSecret gid s.
Proof.
  intros Hr Ho Hlt g g'. destruct (later_kept txs now s Hr Ho) as [Hn Hk].
  destruct (Hk gid Hlt) as [Hpar _ _ _ _ _ _]. fold g g' in Hpar.
  injection Hpar as Hc Hms Het Hca Hrp Hsn Hh Hau.
  unfold totalGames in *.
  assert (Hlt' : gid < nextGameId (run_txs txs s)) by lia.
  split; [assumption|]. do 8 (split; [assumption|]).
  unfold getEncryptedSecret, gameExists.
  apply N.ltb_lt in Hlt, Hlt'. rewrite Hlt, Hlt'. fold g g'. now rewrite Hsn.
Qed.

Section CreatingExamples.
#[local] Existing Instance plain_oracle.

Lemma createGame_accepts_witness :
  createGame (local_env host 1000) 100 8 [] 0 MIN_STAKE 1060 100 false initial
  = Err EndTimeTooSoon /\
  exists gid s',
    createGame (local_env host 1000) 100 8 [] 0 MIN_STAKE 1061 100 false initial
    = Ok (gid, s').
Proof.
  pose proof (createGame_accepts (local_env host 1000) 100 8 [] 0 MIN_STAKE 1060 100 false
                initial) as (_ & Hsoon & _).
  pose proof (createGame_accepts (local_env host 1000) 100 8 [] 0 MIN_STAKE 1061 100 false
                initial) as (Hiff & _).
  split.
  - apply Hsoon; vm_compute; discriminate.
  - apply (proj2 Hiff).
    repeat split; try (vm_compute; discriminate); try reflexivity.
    exists 8. reflexivity.
Defined.

Lemma createGame_then_views_witness :
  exists s',
    createGame (local_env bob 3000) 5 3 [] 9 MIN_STAKE 9000 5 true joined = Ok (1, s') /\
    getGame 1 joined = Err GameNotFound /\
    listParticipants 1 s' = Ok [] /\
    getEncryptedSecret 1 s' = Ok 3 /\
    totalGames s' = 2 /\
    listParticipants 0 s' = listParticipants 0 joined.
Proof.
  set (s' := apply_tx (tx_by bob 3000 (CreateGame 5 3 [] 9 MIN_STAKE 9000 5 true)) joined).
  assert (Hok : createGame (local_env bob 3000) 5 3 [] 9 MIN_STAKE 9000 5 true joined
                = Ok (1, s')) by (vm_compute; reflexivity).
  pose proof (createGame_then_views 2000 joined (local_env bob 3000) 5 3 [] 9 MIN_STAKE
                9000 5 true 1 s' joined_reachable Hok)
    as (Hbefore & _ & Hlist & _ & Hhandle & Hsecret & _ & Htotal & Hold).
  exists s'.
  split; [exact Hok|]. split; [exact Hbefore|]. split; [exact Hlist|].
  split; [|split; [exact Htotal|]].
  - rewrite Hsecret. apply f_equal. symmetry.
    assert (Hh : forall x y : N, Some x = Some y -> x = y) by congruence.
    exact (Hh _ _ Hhandle).
  - apply (Hold 0). vm_compute. reflexivity.
Defined.

Lemma games_outlast_min_duration_witness :
  createdAt (game joined 0) <= 2000 /\
  createdAt (game joined 0) + MIN_DURATION < endTime (game joined 0).
Proof.
  assert (Hlt : 0 < totalGames joined) by (vm_compute; reflexivity).
  exact (games_outlast_min_duration 2000 joined 0 joined_reachable Hlt).
Defined.

Lemma game_parameters_are_fixed_witness :
  settled (game debug_settled 0) = true /\
  endTime (game debug_settled 0) = endTime (game joined 0) /\
  secretNumberHash (game debug_settled 0) = secretNumberHash (game joined 0).
Proof.
  assert (Hord : ordered 2000 [tx_by host 6000 (DebugReveal 0 8 [true; false])] = true)
    by (vm_compute; reflexivity).
  assert (Hlt : 0 < totalGames joined) by (vm_compute; reflexivity).
  assert (Hrun : run_txs [tx_by host 6000 (DebugReveal 0 8 [true; false])] joined
                 = debug_settled) by (vm_compute; reflexivity).
  pose proof (game_parameters_are_fixed 2000 joined
                [tx_by host 6000 (DebugReveal 0 8 [true; false])] 0
                joined_reachable Hord Hlt)
    as (_ & _ & _ & Hend & _ & _ & _ & Hhash & _).
  rewrite Hrun in Hend, Hhash.
  split; [vm_compute; reflexivity|]. split; [exact Hend | exact Hhash].
Defined.
End CreatingExamples.

(** ** Joining *)

(** X5: in a reachable state, [joinGame] accepts a call exactly when the
    game exists, the time of the block is before the end time, the caller
    is not the creator and is not on the roster, the value sent is at least
    the minimum stake, the pot does not overflow and the input proof is
    accepted.  The check of [revealPending] and [settled] never decides: a
    pending or settled game is past its end time, so the call has failed
    with [MatchAlreadyClosed] before, and [joinGame] never fails with
    [SettlementInProgress].  The other failures come in the order of the
    source: [GameNotFound], [MatchAlreadyClosed], [CreatorCannotJoin],
    [AlreadyJoined], [InsufficientStake]. *)
Theorem joinGame_accepts `{External} (now : N) (s : Contract) (env : Env) (v gid : N)
    (h : bytes32) (pr : bytes) :
  reachable now s -> now <= block_timestamp env ->
  let g := game s gid in
  ((exists s', joinGame env v gid h pr s = Ok s') <->
   gid < totalGames s /\ block_timestamp env < endTime g /\
   msg_sender env <> creator g /\ (msg_sender env ∉ participantList g) /\
   minStake g <= v /\ totalPot g + v <= MAX_UINT256 /\
   is_Some (FHE_fromExternal_ebool h pr (msg_sender env))) /\
  joinGame env v gid h pr s <> Err SettlementInProgress /\
  (totalGames s <= gid -> joinGame env v gid h pr s = Err GameNotFound) /\
  (gid < totalGames s -> endTime g <= block_timestamp env ->
   joinGame env v gid h pr s = Err MatchAlreadyClosed) /\
  (gid < totalGames s -> block_timestamp env < endTime g -> msg_sender env = creator g ->
   joinGame env v gid h pr s = Err CreatorCannotJoin) /\
  (gid < totalGames s -> block_timestamp env < endTime g -> msg_sender env <> creator g ->
   msg_sender env ∈ participantList g ->
   joinGame env v gid h pr s = Err AlreadyJoined) /\
  (gid < totalGames s -> block_timestamp env < endTime g -> msg_sender env <> creator g ->
   msg_sender env ∉ participantList g -> v < minStake g ->
   joinGame env v gid h pr s = Err InsufficientStake).
Proof.
  intros Hr Hle g. destruct (reachable_all now s Hr) as (HI & HF & _).
  destruct (HF gid) as [Hl _ _ _ _ _ _ _]. fold g in Hl.
  assert (Hopen : block_timestamp env < endTime g ->
                  revealPending g = false /\ settled g = false).
  { intros Htime. split.
    - destruct (revealPending g) eqn:Hp; [|reflexivity].
      destruct (Inv_pending _ _ gid HI Hp) as (_ & _ & Hend). fold g in Hend. lia.
    - destruct (settled g) eqn:Hs; [|reflexivity].
      destruct (Inv_settled _ _ gid HI Hs) as (_ & _ & Hend & _). fold g in Hend. lia. }
  assert (Hrun : joinGame env v gid h pr s
    = (require (gid <? nextGameId s) orelse GameNotFound ;;
       require (block_timestamp env <? endTime g) orelse MatchAlreadyClosed ;;
       require (negb (msg_sender env =? creator g)) orelse CreatorCannotJoin ;;
       require (negb (exists_ (participant g (msg_sender env)))) orelse AlreadyJoined ;;
       require (minStake g <=? v) orelse InsufficientStake ;;
       pot <- checked_add (totalPot g) v ;;
       handle <- of_option (FHE_fromExternal_ebool h pr (msg_sender env))
                   InvalidInputProof ;;
       Ok (emit (GameJoined gid (msg_sender env) v)
             (set_game gid
                (set_participantList (participantList g ++ [msg_sender env])
                   (set_participant (msg_sender env)
                      (set_exists true (set_stake v (set_choice handle
                         (participant g (msg_sender env)))))
                      (set_totalPot pot g))) s)))).
  { unfold joinGame, gameExists. cbv zeta. fold g.
    destruct (gid <? nextGameId s); [|reflexivity].
    destruct (block_timestamp env <? endTime g) eqn:Htime; [|reflexivity].
    apply N.ltb_lt in Htime. destruct (Hopen Htime) as [-> ->]. reflexivity. }
  assert (Hex : forall a, exists_ (participant g a) = false <-> a ∉ participantList g).
  { intros a. rewrite <- Hl. destruct (exists_ (participant g a)); split; congruence. }
  unfold totalGames. rewrite Hrun. clear Hrun.
  split; [|split; [|split; [|split; [|split; [|split]]]]].
  - split.
    + intros [s' Hok]. do 5 peel Hok. do 2 peel Hok.
      apply N.ltb_lt in Hc, Hc0. apply negb_true_iff in Hc1, Hc2.
      apply N.eqb_neq in Hc1. apply Hex in Hc2. apply N.leb_le in Hc3.
      apply checked_add_Ok in Hx as [_ Hmax]. apply of_option_Ok in Hx0.
      repeat split; try assumption. now exists x0.
    + intros (Hlt & Htime & Hne & Hnot & Hmin & Hmax & [hd Hhd]).
      apply N.ltb_lt in Hlt, Htime. apply N.eqb_neq in Hne. apply Hex in Hnot.
      apply N.leb_le in Hmin.
      rewrite Hlt, Htime, Hne, Hnot, Hmin, (checked_add_small _ _ Hmax), Hhd.
      cbn. eauto.
  - destruct (gid <? nextGameId s); [|discriminate].
    destruct (block_timestamp env <? endTime g); [|discriminate].
    destruct (negb (msg_sender env =? creator g)); [|discriminate].
    destruct (negb (exists_ (participant g (msg_sender env)))); [|discriminate].
    destruct (minStake g <=? v); [|discriminate].
    destruct (checked_add (totalPot g) v) as [pot|e] eqn:Hadd; cbn [bind].
    + destruct (FHE_fromExternal_ebool h pr (msg_sender env)); discriminate.
    + unfold checked_add in Hadd. destruct (_ <=? _); [discriminate|].
      injection Hadd as <-. discriminate.
  - intros Hge. apply N.ltb_ge in Hge. now rewrite Hge.
  - intros Hlt Hend. apply N.ltb_lt in Hlt. apply N.ltb_ge in Hend.
    now rewrite Hlt, Hend.
  - intros Hlt Htime ->. apply N.ltb_lt in Hlt, Htime.
    now rewrite Hlt, Htime, N.eqb_refl.
  - intros Hlt Htime Hne Ha. apply N.ltb_lt in Hlt, Htime. apply N.eqb_neq in Hne.
    apply Hl in Ha. now rewrite Hlt, Htime, Hne, Ha.
  - intros Hlt Htime Hne Hnot Hv. apply N.ltb_lt in Hlt, Htime. apply N.eqb_neq in Hne.
    apply Hex in Hnot. apply N.leb_gt in Hv.
    now rewrite Hlt, Htime, Hne, Hnot, Hv.
Qed.

(** X6: what has joined can be read back.  In a reachable state, after a
    successful [joinGame] the caller, whose view was the zero view, is last
    in [listParticipants] and has the view [stake = msg.value],
    [exists = true] and nothing else set; the views of the other addresses
    and of the other games are unchanged; [getGame] shows the pot grown by
    the stake and one participant more, in a game still open; one
    [GameJoined] event is logged. *)
Theorem joinGame_then_views `{External} (now : N) (s : Contract) (env : Env) (v gid : N)
    (h : bytes32) (pr : bytes) (s' : Contract) :
  reachable now s ->
  joinGame env v gid h pr s = Ok s' ->
  listParticipants gid s' = Ok (participantList (game s gid) ++ [msg_sender env]) /\
  getParticipant gid (msg_sender env) s = Ok zero_view /\
  getParticipant gid (msg_sender env) s'
  = Ok {| pv_stake := v; pv_exists := true; pv_won := false; pv_claimed := false;
          pv_choiceRevealed := false; pv_guessedBig := false |} /\
  (forall a, a <> msg_sender env -> getParticipant gid a s' = getParticipant gid a s) /\
  (exists sm sm',
     getGame gid s = Ok sm /\ getGame gid s' = Ok sm' /\
     gs_totalPot sm' = gs_totalPot sm + v /\
     gs_participantCount sm' = gs_participantCount sm + 1 /\
     gs_settled sm' = false /\ gs_revealPending sm' = false /\ gs_creatorShare sm' = 0) /\
  (forall gid', gid' <> gid ->
     getGame gid' s' = getGame gid' s /\
     listParticipants gid' s' = listParticipants gid' s /\
     forall a, getParticipant gid' a s' = getParticipant gid' a s) /\
  events s' = GameJoined gid (msg_sender env) v :: events s /\
  totalGames s' = totalGames s.
Proof.
  intros Hr Hok. destruct (reachable_all now s Hr) as (HI & HF & _).
  unfold joinGame, gameExists in Hok. cbv zeta in Hok.
  do 6 peel Hok. do 2 peel Hok. injection Hok as <-.
  apply andb_true_iff in Hc1 as [Hpen Hset]. apply negb_true_iff in Hpen, Hset, Hc3.
  apply checked_add_Ok in Hx as [-> _].
  destruct (HF gid) as [_ _ Habs _ [_ [_ Hrem]] Hopen _ _].
  destruct (Hopen Hset) as (_ & _ & Hcs & _).
  pose proof (Habs _ Hc3) as Hempty.
  set (g := game s gid) in *. set (a := msg_sender env) in *.
  set (g' := set_participantList _ _).
  set (s' := emit _ _).
  assert (Hnext : nextGameId s' = nextGameId s) by reflexivity.
  assert (Hnew : game s' gid = g').
  { unfold s'. now rewrite game_emit, game_set_game_eq. }
  assert (Hother : forall gid', gid' <> gid -> game s' gid' = game s gid').
  { intros gid' Hne. unfold s'. rewrite game_emit, game_set_game_ne by congruence.
    reflexivity. }
  assert (Hev : events s' = GameJoined gid a v :: events s) by reflexivity.
  assert (Hpa : participant g' a = Build_Participant x0 v true false false false false).
  { unfold g'.
    change (participant (set_participantList ?l ?y) a) with (participant y a).
    rewrite participant_set_participant_eq, Hempty. reflexivity. }
  assert (Hpb : forall b, b <> a -> participant g' b = participant g b).
  { intros b Hb. unfold g'.
    change (participant (set_participantList ?l ?y) b) with (participant y b).
    now rewrite participant_set_participant_ne by congruence. }
  assert (Hfields : participantList g' = participantList g ++ [a] /\
                    totalPot g' = totalPot g + v /\ settled g' = settled g /\
                    revealPending g' = revealPending g /\
                    creatorShare g' = creatorShare g /\
                    creatorBonusRemainder g' = creatorBonusRemainder g)
    by (repeat split).
  destruct Hfields as (Hl & Hpot & Hs & Hp & Hcs' & Hrem').
  clearbody s' g'.
  assert (Hin : (gid <? nextGameId s') = true) by (rewrite Hnext; exact Hc).
  split; [|split; [|split; [|split; [|split; [|split; [|split]]]]]].
  - unfold listParticipants, gameExists. now rewrite Hin, Hnew, Hl.
  - unfold getParticipant, gameExists. rewrite Hc. cbv zeta. fold g. now rewrite Hempty.
  - unfold getParticipant, gameExists. rewrite Hin. cbv zeta. now rewrite Hnew, Hpa.
  - intros b Hb. unfold getParticipant, gameExists. rewrite Hin, Hc. cbv zeta.
    fold g. now rewrite Hnew, Hpb.
  - unfold getGame, gameExists. rewrite Hin, Hc. cbv zeta. fold g.
    rewrite Hnew, Hcs', Hrem', Hcs, Hrem. cbn [checked_add N.add N.leb N.compare bind].
    eexists; eexists. split; [reflexivity|]. split; [reflexivity|].
    cbn [gs_totalPot gs_participantCount gs_settled gs_revealPending gs_creatorShare].
    rewrite Hpot, Hl, Hs, Hp, length_app, Nat2N.inj_add. cbn [length].
    repeat split; assumption.
  - intros gid' Hne. unfold getGame, listParticipants, getParticipant, gameExists.
    rewrite Hnext. rewrite (Hother gid' Hne). auto.
  - exact Hev.
  - exact Hnext.
Qed.

(** X7: nobody joins a game twice.  Once an address is on the roster of a
    game, whatever transactions follow, a [joinGame] of that address for
    that game fails: with [AlreadyJoined] while the game is open, and with
    [MatchAlreadyClosed] from the end time on. *)
Theorem no_second_join `{External} (now : N) (s : Contract) (txs : list Tx) (gid : N)
    (env : Env) (v : N) (h : bytes32) (pr : bytes) :
  reachable now s -> ordered now txs = true ->
  msg_sender env ∈ participantList (game s gid) ->
  final_time now txs <= block_timestamp env ->
  joinGame env v gid h pr (run_txs txs s)
  = Err (if block_timestamp env <? endTime (game s gid)
         then AlreadyJoined else MatchAlreadyClosed).
Proof.
  intros Hr Ho Ha Hle.
  destruct (reachable_all now s Hr) as (HI & HF & _).
  pose proof (listed_created now s gid _ HI Ha) as Hlt.
  destruct (later_kept txs now s Hr Ho) as [Hn Hk].
  destruct (Hk gid Hlt) as [Hpar _ _ _ Hj _ _].
  injection Hpar as Hc _ Het _ _ _ _ _.
  apply (HF gid) in Ha as Hex. destruct (Hj _ Hex) as (Hex' & _).
  pose proof (later_reachable txs now s Hr Ho) as Hr'.
  destruct (reachable_all _ _ Hr') as (HI' & HF' & _).
  set (s' := run_txs txs s) in *.
  assert (Hlt' : (gid <? nextGameId s') = true) by (apply N.ltb_lt; lia).
  unfold joinGame, gameExists. rewrite Hlt'. cbv zeta. rewrite Het.
  destruct (block_timestamp env <? endTime (game s gid)) eqn:Htime; [|reflexivity].
  apply N.ltb_lt in Htime.
  assert (Hopen : revealPending (game s' gid) = false /\ settled (game s' gid) = false).
  { split.
    - destruct (revealPending (game s' gid)) eqn:Hp; [|reflexivity].
      destruct (Inv_pending _ _ gid HI' Hp) as (_ & _ & Hend). lia.
    - destruct (settled (game s' gid)) eqn:Hs; [|reflexivity].
      destruct (Inv_settled _ _ gid HI' Hs) as (_ & _ & Hend & _). lia. }
  destruct Hopen as [-> ->]. cbn [negb andb].
  assert (Hne : (msg_sender env =? creator (game s' gid)) = false).
  { apply N.eqb_neq. intros Heq. destruct (HF gid) as [_ Hcr _ _ _ _ _ _].
    apply Hcr. rewrite <- Hc, <- Heq. exact Ha. }
  rewrite Hne, Hex'. reflexivity.
Qed.

(** X8: the roster and the participant records agree.  In every reachable
    state the roster of a game has no duplicates; an address is on it
    exactly when its record has [exists] set; the creator is not on it;
    every listed address has a stake of at least the game's minimum stake,
    itself at least [MIN_STAKE]; the record of an address that is not listed
    is the zero record; so [listParticipants] returns the roster and
    [getParticipant] the zero view for everybody else. *)
Theorem roster_matches_records `{External} (now : N) (s : Contract) (gid : N) :
  reachable now s ->
  let g := game s gid in
  NoDup (participantList g) /\
  (forall a, a ∈ participantList g <-> exists_ (participant g a) = true) /\
  (creator g ∉ participantList g) /\
  (forall a, a ∈ participantList g ->
     MIN_STAKE <= minStake g /\ minStake g <= stake (participant g a)) /\
  (forall a, a ∉ participantList g -> participant g a = empty_participant) /\
  (gid < totalGames s ->
   listParticipants gid s = Ok (participantList g) /\
   forall a, a ∉ participantList g ->
     getParticipant gid a s
     = Ok {| pv_stake := 0; pv_exists := false; pv_won := false; pv_claimed := false;
             pv_choiceRevealed := false; pv_guessedBig := false |}).
Proof.
  intros Hr g. destruct (reachable_all now s Hr) as (HI & HF & _).
  destruct (HF gid) as [Hl Hc Habs _ _ _ _ _]. fold g in Hl, Hc, Habs.
  assert (Habsent : forall a, a ∉ participantList g -> participant g a = empty_participant).
  { intros a Ha. apply Habs. destruct (exists_ (participant g a)) eqn:He; [|reflexivity].
    apply Hl in He. contradiction. }
  split; [|split; [|split; [|split; [|split]]]].
  - destruct (N.lt_ge_cases gid (nextGameId s)) as [Hlt|Hge].
    + destruct HI as [Hgames _]. now destruct (Hgames gid Hlt).
    + unfold g. rewrite (Inv_fresh now s gid HI Hge). apply NoDup_nil_2.
  - intros a. symmetry. apply Hl.
  - assumption.
  - intros a Ha. pose proof (listed_created now s gid _ HI Ha) as Hlt.
    destruct HI as [Hgames _]. pose proof (Hgames gid Hlt) as Hg.
    split; [exact (gi_minStake _ _ Hg)|]. now apply (gi_joined _ _ Hg).
  - assumption.
  - intros Hlt. unfold totalGames in Hlt. apply N.ltb_lt in Hlt.
    unfold listParticipants, getParticipant, gameExists. rewrite Hlt. fold g.
    split; [reflexivity|]. intros a Ha. cbv zeta. now rewrite (Habsent a Ha).
Qed.

(** X9: the roster only grows, and it is closed from the end time on.
    Whatever transactions follow a reachable state, the roster of a game is
    extended at its end only, the pot does not shrink, and the stake and the
    encrypted choice of a listed address stay as they are; once the end time
    has come, or a reveal is pending, or the game is settled, the roster and
    the pot do not change any more, so that the guesses the oracle returns
    line up with the roster at the time of the callback. *)
Theorem roster_closes_at_end_time `{External} (now : N) (s : Contract) (txs : list Tx)
    (gid : N) :
  reachable now s -> ordered now txs = true -> gid < totalGames s ->
  let g := game s gid in
  let g' := game (run_txs txs s) gid in
  participantList g `prefix_of` participantList g' /\
  totalPot g <= totalPot g' /\
  (forall a, a ∈ participantList g ->
     stake (participant g' a) = stake (participant g a) /\
     choice (participant g' a) = choice (participant g a)) /\
  (endTime g <= now \/ revealPending g = true \/ settled g = true ->
   participantList g' = participantList g /\ totalPot g' = totalPot g /\
   listParticipants gid (run_txs txs s) = listParticipants gid s).
Proof.
  intros Hr Ho Hlt g g'. destruct (later_kept txs now s Hr Ho) as [Hn Hk].
  destruct (reachable_all now s Hr) as (HI & HF & _).
  destruct (Hk gid Hlt) as [_ Hl Hp Hcl Hj _ _]. fold g g' in Hl, Hp, Hcl, Hj.
  split; [assumption|]. split; [assumption|]. split.
  - intros a Ha. apply (HF gid) in Ha. now destruct (Hj a Ha) as (_ & ? & ?).
  - intros Hclosed.
    assert (Hend : endTime g <= now).
    { destruct Hclosed as [?|Hflag]; [assumption|].
      destruct HI as [Hgames _]. apply (gi_deadline _ _ (Hgames gid Hlt)). tauto. }
    destruct (Hcl Hend) as [Hl' Hp']. split; [assumption|]. split; [assumption|].
    unfold listParticipants, gameExists, totalGames in *.
    assert (Hlt' : gid < nextGameId (run_txs txs s)) by lia.
    apply N.ltb_lt in Hlt, Hlt'. rewrite Hlt, Hlt'. fold g g'. now rewrite Hl'.
Qed.

Section JoiningExamples.
#[local] Existing Instance plain_oracle.

Lemma joinGame_accepts_witness :
  joinGame (local_env host 3000) MIN_STAKE 0 1 [] joined = Err CreatorCannotJoin /\
  joinGame (local_env alice 3000) MIN_STAKE 0 1 [] joined = Err AlreadyJoined /\
  joinGame (local_env 103 5000) MIN_STAKE 0 1 [] joined = Err MatchAlreadyClosed /\
  exists s', joinGame (local_env 103 3000) MIN_STAKE 0 1 [] joined = Ok s'.
Proof.
  assert (Hle : forall a t, 3000 <= t -> 2000 <= block_timestamp (local_env a t))
    by (intros a t Ht; cbn; lia).
  pose proof (joinGame_accepts 2000 joined (local_env host 3000) MIN_STAKE 0 1 []
                joined_reachable (Hle host 3000 ltac:(lia)))
    as (_ & _ & _ & _ & Hcreator & _).
  pose proof (joinGame_accepts 2000 joined (local_env alice 3000) MIN_STAKE 0 1 []
                joined_reachable (Hle alice 3000 ltac:(lia)))
    as (_ & _ & _ & _ & _ & Halice & _).
  pose proof (joinGame_accepts 2000 joined (local_env 103 5000) MIN_STAKE 0 1 []
                joined_reachable (Hle 103 5000 ltac:(lia)))
    as (_ & _ & _ & Hclosed & _).
  pose proof (joinGame_accepts 2000 joined (local_env 103 3000) MIN_STAKE 0 1 []
                joined_reachable (Hle 103 3000 ltac:(lia)))
    as (Hiff & _).
  split; [|split; [|split]].
  - apply Hcreator; vm_compute; reflexivity.
  - apply Halice; [vm_compute; reflexivity | vm_compute; reflexivity
                  | vm_compute; discriminate |].
    rewrite joined_roster. apply list_elem_of_here.
  - apply Hclosed; [vm_compute; reflexivity | vm_compute; discriminate].
  - apply (proj2 Hiff).
    split; [vm_compute; reflexivity|]. split; [vm_compute; reflexivity|].
    split; [vm_compute; discriminate|].
    split; [|split; [vm_compute; discriminate | split; [vm_compute; discriminate|]]].
    + rewrite joined_roster. intros Hin.
      apply elem_of_cons in Hin as [Heq|Hin]; [discriminate|].
      apply list_elem_of_singleton in Hin. discriminate.
    + exists 1. reflexivity.
Defined.

Lemma joinGame_then_views_witness :
  exists s',
    joinGame (local_env 103 3000) MIN_STAKE 0 1 [] joined = Ok s' /\
    listParticipants 0 s' = Ok [alice; bob; 103] /\
    getParticipant 0 103 joined = Ok zero_view /\
    getParticipant 0 103 s'
    = Ok {| pv_stake := MIN_STAKE; pv_exists := true; pv_won := false;
            pv_claimed := false; pv_choiceRevealed := false; pv_guessedBig := false |}.
Proof.
  set (s' := apply_tx (tx_by 103 3000 (JoinGame MIN_STAKE 0 1 [])) joined).
  assert (Hok : joinGame (local_env 103 3000) MIN_STAKE 0 1 [] joined = Ok s')
    by (vm_compute; reflexivity).
  pose proof (joinGame_then_views 2000 joined (local_env 103 3000) MIN_STAKE 0 1 [] s'
                joined_reachable Hok) as (Hlist & Hbefore & Hafter & _).
  exists s'.
  split; [exact Hok|]. split; [|split; [exact Hbefore | exact Hafter]].
  rewrite Hlist, joined_roster. reflexivity.
Defined.

Lemma no_second_join_witness :
  joinGame (local_env alice 4000) MIN_STAKE 0 1 []
    (run_txs [tx_by 103 3000 (JoinGame MIN_STAKE 0 1 [])] joined)
  = Err AlreadyJoined.
Proof.
  assert (Hord : ordered 2000 [tx_by 103 3000 (JoinGame MIN_STAKE 0 1 [])] = true)
    by (vm_compute; reflexivity).
  assert (Hin : msg_sender (local_env alice 4000) ∈ participantList (game joined 0)).
  { rewrite joined_roster. apply list_elem_of_here. }
  assert (Hle : final_time 2000 [tx_by 103 3000 (JoinGame MIN_STAKE 0 1 [])]
                <= block_timestamp (local_env alice 4000))
    by (vm_compute; discriminate).
  pose proof (no_second_join 2000 joined [tx_by 103 3000 (JoinGame MIN_STAKE 0 1 [])] 0
                (local_env alice 4000) MIN_STAKE 1 [] joined_reachable Hord Hin Hle)
    as Hjoin.
  assert (Hopen : (block_timestamp (local_env alice 4000) <? endTime (game joined 0)) = true)
    by (vm_compute; reflexivity).
  rewrite Hopen in Hjoin. exact Hjoin.
Defined.

Lemma roster_matches_records_witness :
  NoDup (participantList (game joined 0)) /\
  exists_ (participant (game joined 0) bob) = true /\
  getParticipant 0 host joined = Ok zero_view.
Proof.
  assert (Hlt : 0 < totalGames joined) by (vm_compute; reflexivity).
  pose proof (roster_matches_records 2000 joined 0 joined_reachable)
    as (Hnd & Hlisted & Hcreator & _ & _ & Hviews).
  split; [exact Hnd|]. split.
  - apply Hlisted. rewrite joined_roster.
    apply list_elem_of_further, list_elem_of_here.
  - apply (proj2 (Hviews Hlt)). exact Hcreator.
Defined.

Lemma roster_closes_at_end_time_witness :
  revealPending (game pending 0) = true /\
  participantList (game (run_txs [tx_by 103 6001 (JoinGame MIN_STAKE 0 1 [])] pending) 0)
  = participantList (game pending 0) /\
  totalPot (game (run_txs [tx_by 103 6001 (JoinGame MIN_STAKE 0 1 [])] pending) 0)
  = totalPot (game pending 0).
Proof.
  assert (Hp : revealPending (game pending 0) = true) by (vm_compute; reflexivity).
  assert (Hord : ordered 6000 [tx_by 103 6001 (JoinGame MIN_STAKE 0 1 [])] = true)
    by (vm_compute; reflexivity).
  assert (Hlt : 0 < totalGames pending) by (vm_compute; reflexivity).
  pose proof (roster_closes_at_end_time 6000 pending
                [tx_by 103 6001 (JoinGame MIN_STAKE 0 1 [])] 0 pending_reachable
                Hord Hlt) as (_ & _ & _ & Hclosed).
  destruct (Hclosed (or_intror (or_introl Hp))) as (Hl & Hpot & _).
  split; [exact Hp|]. split; [exact Hl | exact Hpot].
Defined.
End JoiningExamples.

(** ** Requesting and delivering the reveal *)

(** X10: [autoSettle] is [requestReveal] that tolerates a pending request.
    In a reachable state [requestReveal] accepts a call exactly when the
    game exists, its end time has come, and it is neither settled nor
    pending (the handle count cannot overflow); it then marks the game
    pending under the request id, registers the id for the game, logs one
    [RevealRequested] event and touches no other game; and [autoSettle]
    succeeds with the very same state.  On a game with a request pending
    [autoSettle] returns [true] and changes nothing where [requestReveal]
    fails with [RevealAlreadyPending]; on an unsettled game before the end
    time both fail with [RoundStillActive]; and the result of [autoSettle]
    does not depend on the chain id, its two branches being the same. *)
Theorem autoSettle_requests_reveal `{External} (now : N) (s : Contract) (env : Env)
    (gid : N) :
  reachable now s ->
  let g := game s gid in
  let rid := oracle_requestId env in
  ((exists s', requestReveal env gid s = Ok s') <->
   gid < totalGames s /\ endTime g <= block_timestamp env /\
   settled g = false /\ revealPending g = false) /\
  (forall s', requestReveal env gid s = Ok s' ->
     game s' gid = set_requestId rid (set_revealPending true g) /\
     (forall gid', gid' <> gid -> game s' gid' = game s gid') /\
     requestToGame s' rid = gid /\
     events s' = RevealRequested gid rid :: events s /\
     autoSettle env gid s = Ok (true, s')) /\
  (gid < totalGames s -> endTime g <= block_timestamp env -> revealPending g = true ->
   autoSettle env gid s = Ok (true, s) /\
   requestReveal env gid s = Err RevealAlreadyPending) /\
  (gid < totalGames s -> settled g = false -> block_timestamp env < endTime g ->
   autoSettle env gid s = Err RoundStillActive /\
   requestReveal env gid s = Err RoundStillActive) /\
  (forall chain,
     autoSettle {| msg_sender := msg_sender env; block_timestamp := block_timestamp env;
                   block_chainid := chain; oracle_requestId := rid |} gid s
     = autoSettle env gid s).
Proof.
  intros Hr g rid. destruct (reachable_all now s Hr) as (HI & HF & _).
  pose proof (handle_count_fits now s gid HI HF) as Hcount. fold g in Hcount.
  assert (Hreq : requestReveal env gid s
    = (require (gid <? nextGameId s) orelse GameNotFound ;;
       require (endTime g <=? block_timestamp env) orelse RoundStillActive ;;
       require (negb (settled g)) orelse AlreadySettled ;;
       require (negb (revealPending g)) orelse RevealAlreadyPending ;;
       Ok (emit (RevealRequested gid rid)
             (set_requestToGame (<[rid := gid]> (_requestToGame s))
                (set_game gid (set_requestId rid (set_revealPending true g)) s))))).
  { unfold requestReveal, gameExists. cbv zeta. fold g rid.
    change (participantList (set_revealPending true g)) with (participantList g).
    now rewrite (checked_add_small _ _ Hcount). }
  assert (Hauto : forall chain,
    autoSettle {| msg_sender := msg_sender env; block_timestamp := block_timestamp env;
                  block_chainid := chain; oracle_requestId := rid |} gid s
    = (require (gid <? nextGameId s) orelse GameNotFound ;;
       require (negb (settled g)) orelse AlreadySettled ;;
       require (endTime g <=? block_timestamp env) orelse RoundStillActive ;;
       if negb (revealPending g) then
         Ok (true, emit (RevealRequested gid rid)
                     (set_requestToGame (<[rid := gid]> (_requestToGame s))
                        (set_game gid (set_requestId rid (set_revealPending true g)) s)))
       else Ok (true, s))).
  { intros chain. unfold autoSettle, autoSettle_request, gameExists. cbv zeta.
    cbn [msg_sender block_timestamp block_chainid oracle_requestId]. fold g.
    rewrite (checked_add_small _ _ Hcount). cbn [bind].
    destruct (gid <? nextGameId s); [|reflexivity].
    destruct (negb (settled g)); [|reflexivity].
    destruct (endTime g <=? block_timestamp env); [|reflexivity].
    destruct (_ || _); destruct (negb (revealPending g)); reflexivity. }
  assert (Hauto' : autoSettle env gid s
    = autoSettle {| msg_sender := msg_sender env; block_timestamp := block_timestamp env;
                    block_chainid := block_chainid env; oracle_requestId := rid |} gid s)
    by (now destruct env).
  unfold totalGames.
  split; [|split; [|split; [|split]]].
  - rewrite Hreq. split.
    + intros [s' Hok]. do 4 peel Hok.
      apply N.ltb_lt in Hc. apply N.leb_le in Hc0. apply negb_true_iff in Hc1, Hc2. auto.
    + intros (Hlt & Hend & Hs & Hp). apply N.ltb_lt in Hlt. apply N.leb_le in Hend.
      rewrite Hlt, Hend, Hs, Hp. cbn. eauto.
  - intros s' Hok. rewrite Hreq in Hok. do 4 peel Hok. injection Hok as <-.
    split; [|split; [|split; [|split]]].
    + change (game (emit ?e (set_requestToGame ?m ?x)) gid) with (game x gid).
      apply game_set_game_eq.
    + intros gid' Hne.
      change (game (emit ?e (set_requestToGame ?m ?x)) gid') with (game x gid').
      now rewrite game_set_game_ne by congruence.
    + unfold requestToGame. cbn. now rewrite lookup_insert_eq.
    + reflexivity.
    + rewrite Hauto', Hauto, Hc, Hc0, Hc1, Hc2. reflexivity.
  - intros Hlt Hend Hp. apply N.ltb_lt in Hlt. apply N.leb_le in Hend.
    destruct (Inv_pending now s gid HI Hp) as (_ & Hs & _). fold g in Hs.
    rewrite Hauto', Hauto, Hreq, Hlt, Hend, Hs, Hp. split; reflexivity.
  - intros Hlt Hs Htime. apply N.ltb_lt in Hlt. apply N.leb_gt in Htime.
    rewrite Hauto', Hauto, Hreq, Hlt, Htime, Hs. split; reflexivity.
  - intros chain. now rewrite Hauto', !Hauto.
Qed.

(** X11: no reveal before the end time.  In every reachable state a game
    with a reveal pending or settled exists and is past its end time; a
    pending game is not settled; a game whose creator has been paid is
    settled; an unsettled game has none of the reveal fields written (of the
    game or of any participant); a settled game has [numberIsBig] equal to
    [revealedNumber > 5] and every listed participant revealed; and a
    pending request keeps its id and stays pending until the game is
    settled. *)
Theorem reveal_only_after_end_time `{External} (now : N) (s : Contract) (gid : N) :
  reachable now s ->
  let g := game s gid in
  (revealPending g = true \/ settled g = true -> gid < totalGames s /\ endTime g <= now) /\
  (revealPending g = true -> settled g = false) /\
  (creatorClaimed g = true -> settled g = true) /\
  (settled g = false ->
   revealedNumber g = 0 /\ numberIsBig g = false /\ creatorShare g = 0 /\
   forall a, choiceRevealed (participant g a) = false /\
             guessedBig (participant g a) = false) /\
  (settled g = true ->
   numberIsBig g = (5 <? revealedNumber g) /\
   forall a, a ∈ participantList g -> choiceRevealed (participant g a) = true) /\
  (forall txs, ordered now txs = true ->
     revealPending g = true ->
     let g' := game (run_txs txs s) gid in
     requestId g' = requestId g /\ (revealPending g' = true \/ settled g' = true)).
Proof.
  intros Hr g. destruct (reachable_all now s Hr) as (HI & HF & _).
  assert (Hflag : revealPending g = true \/ settled g = true ->
                  gid < nextGameId s /\ endTime g <= now).
  { intros [Hp|Hs].
    - now destruct (Inv_pending now s gid HI Hp) as (? & _ & ?).
    - now destruct (Inv_settled now s gid HI Hs) as (? & _ & ? & _). }
  destruct (HF gid) as [_ _ _ _ _ Hopen Hset _]. fold g in Hopen, Hset.
  split; [exact Hflag|]. split; [|split; [|split; [|split]]].
  - intros Hp. now destruct (Inv_pending now s gid HI Hp) as (_ & ? & _).
  - intros Hc. destruct (settled g) eqn:Hs; [reflexivity|].
    destruct (Hopen eq_refl) as (_ & _ & _ & Hcc & _). congruence.
  - intros Hs. destruct (Hopen Hs) as (? & ? & ? & _ & ?). auto.
  - intros Hs. destruct (Hset Hs) as (? & _ & ?). auto.
  - intros txs Ho Hp g'. destruct (Hflag (or_introl Hp)) as [Hlt _].
    destruct (later_kept txs now s Hr Ho) as [_ Hk].
    destruct (Hk gid Hlt) as [_ _ _ _ _ Hreq _]. apply Hreq. now left.
Qed.

(** X12: the oracle callback on a game with a reveal pending, in a
    reachable state.  It fails with [InvalidKMSSignatures] when the
    signatures are refused, with [AbiDecodeFailure] when the cleartexts do
    not decode (as a [uint8] for a game without participants, as a [uint8]
    and a [bool] array otherwise), and with [MismatchGuesses] when the
    array is not as long as the roster.  Otherwise, on a game without
    auto-settle, it returns [true], settles the game on the decoded number
    with the decoded guesses, participant by participant in roster order,
    logs one [GameSettled] event and touches no other game, whatever the
    recipients of value would do. *)
Theorem revealCallback_settles `{External} (now : N) (s : Contract)
    (call_value : Env -> address -> N -> Contract -> option Contract)
    (env : Env) (rid : N) (ct pr : bytes) :
  reachable now s ->
  let gid := requestToGame s rid in
  let g := game s gid in
  revealPending g = true ->
  (FHE_checkSignatures rid ct pr = false ->
   revealCallback call_value env rid ct pr s = Err InvalidKMSSignatures) /\
  (FHE_checkSignatures rid ct pr = true ->
   (participantList g = [] -> abi_decode_uint8 ct = None ->
    revealCallback call_value env rid ct pr s = Err AbiDecodeFailure) /\
   (participantList g <> [] -> abi_decode_uint8_bools ct = None ->
    revealCallback call_value env rid ct pr s = Err AbiDecodeFailure) /\
   (forall n guesses,
      participantList g <> [] -> abi_decode_uint8_bools ct = Some (n, guesses) ->
      length guesses <> length (participantList g) ->
      revealCallback call_value env rid ct pr s = Err MismatchGuesses) /\
   (forall n guesses,
      (participantList g = [] /\ abi_decode_uint8 ct = Some n /\ guesses = []) \/
      (participantList g <> [] /\ abi_decode_uint8_bools ct = Some (n, guesses) /\
       length guesses = length (participantList g)) ->
      autoSettleEnabled g = false ->
      exists s',
        revealCallback call_value env rid ct pr s = Ok (true, s') /\
        settled_on n guesses g (game s' gid) /\
        (forall gid', gid' <> gid -> game s' gid' = game s gid') /\
        events s' = GameSettled gid n (5 <? n) 0 (totalPot g) 0 :: events s)).
Proof.
  intros Hr gid g Hp. destruct (reachable_all now s Hr) as (HI & HF & _).
  destruct (Inv_pending now s gid HI Hp) as (Hlt & Hs & Hend).
  assert (Hnd : NoDup (participantList g)).
  { destruct HI as [Hgames _]. now destruct (Hgames gid Hlt). }
  unfold revealCallback. cbv zeta. fold gid. fold g. rewrite Hp.
  split; [intros ->; reflexivity|]. intros ->.
  split; [|split; [|split]].
  - intros Hnil ->. now rewrite Hnil.
  - intros Hne ->. destruct (participantList g); [contradiction | reflexivity].
  - intros n guesses Hne -> Hlen.
    destruct (length (participantList g) =? 0)%nat eqn:Hz.
    { apply Nat.eqb_eq in Hz. destruct (participantList g); [contradiction | discriminate]. }
    cbn [of_option bind fst snd]. unfold _completeSettlement. cbv zeta.
    change (participantList (set_numberIsBig _ _)) with (participantList g).
    rewrite Hz. apply Nat.eqb_neq in Hlen. now rewrite Hlen.
  - intros n guesses Hcase Hauto.
    assert (Hsettle : exists g1,
              (if (length (participantList g) =? 0)%nat
               then revealed <- of_option (abi_decode_uint8 ct) AbiDecodeFailure ;;
                    _completeSettlement g revealed []
               else d <- of_option (abi_decode_uint8_bools ct) AbiDecodeFailure ;;
                    _completeSettlement g (fst d) (snd d))
              = Ok (0, totalPot g, 0, g1) /\
              _completeSettlement g n guesses = Ok (0, totalPot g, 0, g1)).
    { destruct Hcase as [(Hnil & -> & ->) | (Hne & -> & Hlen)].
      - destruct (completeSettlement_total g n [] (or_introl Hnil)) as [g1 Hg1].
        exists g1. rewrite Hnil. cbn [length Nat.eqb of_option bind]. auto.
      - destruct (completeSettlement_total g n guesses (or_intror Hlen)) as [g1 Hg1].
        exists g1. destruct (length (participantList g) =? 0)%nat eqn:Hz.
        + apply Nat.eqb_eq in Hz.
          destruct (participantList g); [contradiction | discriminate].
        + cbn [of_option bind fst snd]. auto. }
    destruct Hsettle as (g1 & -> & Hg1). cbn [bind].
    destruct (completeSettlement_settled_on g n guesses _ _ _ g1 Hnd Hg1) as [Hon _].
    assert (Hfields : autoSettleEnabled g1 = autoSettleEnabled g /\
                      revealedNumber g1 = n /\ numberIsBig g1 = (5 <? n)).
    { apply completeSettlement_spec in Hg1 as (_ & _ & _ & -> & _). repeat split. }
    destruct Hfields as (-> & -> & ->). rewrite Hauto. cbn [bind].
    eexists. split; [reflexivity|].
    rewrite game_emit, game_set_game_eq. split; [exact Hon|]. split; [|reflexivity].
    intros gid' Hne. now rewrite game_emit, game_set_game_ne by congruence.
Qed.

(** X13: request ids.  In every reachable state a registered request id
    names an existing game that is past its end time and pending or settled.
    An id that was never registered reads as game 0 in [_requestToGame]: the
    callback for it fails with [NoPendingReveal] unless game 0 has a reveal
    pending.  And a callback that succeeds returns [true], was for a game
    that existed, was pending, unsettled and past its end time, and leaves
    it settled and no longer pending. *)
Theorem callback_request_ids `{External} (now : N) (s : Contract) :
  reachable now s ->
  (forall rid gid, _requestToGame s !! rid = Some gid ->
     gid < totalGames s /\ endTime (game s gid) <= now /\
     (revealPending (game s gid) = true \/ settled (game s gid) = true)) /\
  (forall rid, _requestToGame s !! rid = None ->
     requestToGame s rid = 0 /\
     (revealPending (game s 0) = false ->
      forall sc env ct pr, revealCallback (run sc) env rid ct pr s = Err NoPendingReveal)) /\
  (forall sc env rid ct pr b s',
     now <= block_timestamp env ->
     revealCallback (run sc) env rid ct pr s = Ok (b, s') ->
     let gid := requestToGame s rid in
     b = true /\ gid < totalGames s /\ endTime (game s gid) <= now /\
     revealPending (game s gid) = true /\ settled (game s gid) = false /\
     settled (game s' gid) = true /\ revealPending (game s' gid) = false).
Proof.
  intros Hr. destruct (reachable_all now s Hr) as (HI & HF & _ & HR & _).
  split; [|split].
  - intros rid gid Hlook. destruct (HR rid gid Hlook) as [Hlt Hflag].
    split; [assumption|]. split; [|assumption].
    destruct HI as [Hgames _]. destruct (Hgames gid Hlt) as [_ _ _ _ _ _ Hdl _ _].
    apply Hdl. tauto.
  - intros rid Hnone. unfold requestToGame. rewrite Hnone. split; [reflexivity|].
    intros Hp sc env ct pr. unfold revealCallback, requestToGame. cbv zeta.
    rewrite Hnone. cbn [default]. now rewrite Hp.
  - intros sc env rid ct pr b s' Hle Hok gid.
    destruct (callback_reachable now s sc env rid ct pr b s' Hr Hle Hok) as [Hr' [_ Hg]].
    destruct (callback_settled (run sc) env rid ct pr s b s' Hok)
      as (-> & Hp & n & guesses & g1 & mid & Hsettle & -> & Hrest).
    fold gid in Hp, Hsettle, Hrest.
    destruct (Inv_pending now s gid HI Hp) as (Hlt & Hs & Hend).
    split; [reflexivity|]. do 4 (split; [assumption|]).
    assert (Hset : settled (game s' gid) = true).
    { apply completeSettlement_spec in Hsettle as (_ & _ & _ & Hg1 & _).
      destruct (autoSettleEnabled (game s gid)).
      - apply (autoDistributeRewards_ok (run sc) (run_ok sc)) in Hrest;
          [|intros _; exact Hlt].
        destruct Hrest as [[[_ Hgr] _] _].
        destruct (Hgr gid Hlt) as [_ Hsettled _ _]. apply Hsettled.
        rewrite game_emit, game_set_game_eq, Hg1. reflexivity.
      - subst s'. rewrite game_emit, game_set_game_eq, Hg1. reflexivity. }
    split; [assumption|].
    destruct (reachable_all _ _ Hr') as (HI' & _).
    now destruct (Inv_settled _ _ gid HI' Hset) as (_ & ? & _).
Qed.

(** X14: auto-settle pays the creator in the callback.  In a reachable
    state, when the callback of a game with auto-settle succeeds, then the
    creator had not been paid, and after the settlement one low-level call
    was made, to the creator with the whole pot as value, on a state in which
    [creatorClaimed] was already set, and it succeeded (so a creator that
    refuses the payment makes the callback fail); one [CreatorClaimed]
    event for the pot is logged.  If the recipient does nothing but call
    the contract, the game ends settled with [creatorClaimed] set, and every
    later [claimCreator] of the creator fails with [AlreadyClaimed]. *)
Theorem callback_pays_creator `{External} (now : N) (s : Contract)
    (call_value : Env -> address -> N -> Contract -> option Contract)
    (env : Env) (rid : N) (ct pr : bytes) (b : bool) (s' : Contract) :
  reachable now s ->
  revealCallback call_value env rid ct pr s = Ok (b, s') ->
  let gid := requestToGame s rid in
  let g := game s gid in
  autoSettleEnabled g = true ->
  creatorClaimed g = false /\
  (exists n guesses g1 s2,
     _completeSettlement g n guesses = Ok (0, totalPot g, 0, g1) /\
     call_value env (creator g) (totalPot g)
       (set_game gid (set_creatorClaimed true g1)
          (emit (GameSettled gid n (5 <? n) 0 (totalPot g) 0) (set_game gid g1 s)))
     = Some s2 /\
     s' = emit (CreatorClaimed gid (creator (game s2 gid)) (totalPot g)) s2) /\
  ((forall env1 to amount s1 s2,
      call_value env1 to amount s1 = Some s2 -> step_ok (block_timestamp env1) s1 s2) ->
   settled (game s' gid) = true /\ creatorClaimed (game s' gid) = true /\
   creator (game s' gid) = creator g /\
   forall call_value' env', msg_sender env' = creator g ->
     claimCreator call_value' env' gid s' = Err AlreadyClaimed).
Proof.
  intros Hr Hok gid g Hauto.
  destruct (reachable_all now s Hr) as (HI & HF & _ & _ & Hstatus).
  destruct (callback_settled call_value env rid ct pr s b s' Hok)
    as (-> & Hp & n & guesses & g1 & mid & Hsettle & Hmid & Hrest).
  fold gid in Hp, Hsettle, Hrest, Hmid. fold g in Hp, Hsettle, Hrest, Hmid.
  rewrite Hauto in Hrest.
  destruct (Inv_pending now s gid HI Hp) as (Hlt & Hs & Hend). fold g in Hs, Hend.
  destruct (HF gid) as [_ _ _ _ _ Hopen _ _]. fold g in Hopen.
  destruct (Hopen Hs) as (_ & _ & _ & Hcc & _).
  assert (Hpos : 0 < totalPot g).
  { destruct HI as [Hgames _]. destruct (Hgames gid Hlt) as [Hrew _ _ _ Hpot _ _ _ _].
    fold g in Hrew, Hpot. unfold MIN_CREATOR_REWARD in Hrew. lia. }
  pose proof Hsettle as Hspec.
  apply completeSettlement_spec in Hspec as (_ & _ & _ & Hg1 & _).
  assert (Hfields : creatorShare g1 = totalPot g /\ creatorBonusRemainder g1 = 0 /\
                    creatorClaimed g1 = creatorClaimed g /\ creator g1 = creator g /\
                    settled g1 = true)
    by (rewrite Hg1; repeat split).
  destruct Hfields as (Hcs & Hrem & Hcc1 & Hcr & Hset). clear Hg1.
  assert (Hgmid : game mid gid = g1) by (subst mid; now rewrite game_emit, game_set_game_eq).
  unfold _autoDistributeRewards in Hrest. cbv zeta in Hrest.
  rewrite Hgmid, Hcs, Hrem, Hcc1, Hcc, Hcr in Hrest. peel Hrest.
  apply checked_add_Ok in Hx as [-> _]. rewrite N.add_0_r in Hrest.
  apply N.ltb_lt in Hpos. rewrite Hpos in Hrest. cbn [negb andb] in Hrest.
  peel Hrest. injection Hrest as <-. apply of_option_Ok in Hx.
  subst mid.
  set (marked := set_game gid (set_creatorClaimed true g1) _) in *.
  assert (Hmarked : game marked gid = set_creatorClaimed true g1)
    by apply game_set_game_eq.
  split; [assumption|]. split; [exists n, guesses, g1, x; auto|].
  intros Hcv. destruct (Hcv _ _ _ _ _ Hx) as [[[_ Hg] _] Hst].
  destruct (Hg gid) as [Hcreator Hsettled Hclaimed _]; [cbn; lia|].
  rewrite Hmarked in Hcreator, Hsettled, Hclaimed. fields.
  rewrite Hcr in Hcreator. rewrite game_emit.
  split; [auto|]. split; [auto|]. split; [assumption|].
  intros cv' env' Hsender.
  assert (Hst' : _status (emit (CreatorClaimed gid (creator (game x gid)) (totalPot g)) x)
                 = false).
  { change (_status x = false). rewrite Hst. exact Hstatus. }
  assert (Hlt' : gid < nextGameId
                   (emit (CreatorClaimed gid (creator (game x gid)) (totalPot g)) x)).
  { destruct (Hcv _ _ _ _ _ Hx) as [[[Hn _] _] _]. cbn in Hn |- *. lia. }
  rewrite claimCreator_eq by assumption. unfold claimCreator_body. cbv zeta.
  rewrite game_emit, Hsettled, Hclaimed, Hcreator, Hsender, N.eqb_refl by auto.
  reflexivity.
Qed.

Section RevealExamples.
#[local] Existing Instance plain_oracle.

Lemma autoSettle_requests_reveal_witness :
  autoSettle (local_env bob 6000) 0 joined = Ok (true, pending) /\
  autoSettle (local_env alice 6001) 0 pending = Ok (true, pending) /\
  requestReveal (local_env alice 6001) 0 pending = Err RevealAlreadyPending.
Proof.
  assert (Hok : requestReveal (local_env bob 6000) 0 joined = Ok pending)
    by (vm_compute; reflexivity).
  pose proof (autoSettle_requests_reveal 2000 joined (local_env bob 6000) 0
                joined_reachable) as (_ & Hreq & _).
  destruct (Hreq pending Hok) as (_ & _ & _ & _ & Hauto).
  pose proof (autoSettle_requests_reveal 6000 pending (local_env alice 6001) 0
                pending_reachable) as (_ & _ & Hpending & _).
  split; [exact Hauto|].
  apply Hpending; vm_compute; try reflexivity; discriminate.
Defined.

Lemma reveal_only_after_end_time_witness :
  revealPending (game pending 0) = true /\
  endTime (game pending 0) <= 6000 /\ settled (game pending 0) = false.
Proof.
  assert (Hp : revealPending (game pending 0) = true) by (vm_compute; reflexivity).
  pose proof (reveal_only_after_end_time 6000 pending 0 pending_reachable)
    as (Hflag & Hopen & _).
  split; [exact Hp|]. split; [exact (proj2 (Hflag (or_introl Hp))) | exact (Hopen Hp)].
Defined.

Lemma revealCallback_settles_witness :
  revealCallback (fun _ _ _ _ => None) (local_env 999 6001) 7 [Byte.x08; Byte.x01] [] pending
  = Err MismatchGuesses /\
  exists s',
    revealCallback (fun _ _ _ _ => None) (local_env 999 6001) 7
      [Byte.x08; Byte.x01; Byte.x00] [] pending = Ok (true, s') /\
    settled_on 8 [true; false] (game pending 0) (game s' 0).
Proof.
  assert (Hgid : requestToGame pending 7 = 0) by (vm_compute; reflexivity).
  assert (Hp : revealPending (game pending (requestToGame pending 7)) = true)
    by (vm_compute; reflexivity).
  assert (Hlist : participantList (game pending 0) = [alice; bob])
    by (vm_compute; reflexivity).
  assert (Hne : participantList (game pending 0) <> [])
    by (rewrite Hlist; discriminate).
  assert (Hauto : autoSettleEnabled (game pending 0) = false)
    by (vm_compute; reflexivity).
  pose proof (revealCallback_settles 6000 pending (fun _ _ _ _ => None)
                (local_env 999 6001) 7 [Byte.x08; Byte.x01] [] pending_reachable Hp)
    as (_ & Hshort).
  pose proof (revealCallback_settles 6000 pending (fun _ _ _ _ => None)
                (local_env 999 6001) 7 [Byte.x08; Byte.x01; Byte.x00] []
                pending_reachable Hp)
    as (_ & Hfull).
  rewrite Hgid in Hshort, Hfull.
  destruct (Hshort eq_refl) as (_ & _ & Hmis & _).
  destruct (Hfull eq_refl) as (_ & _ & _ & Hsettle).
  split.
  - apply (Hmis 8 [true]); [exact Hne | reflexivity | rewrite Hlist; discriminate].
  - destruct (Hsettle 8 [true; false]) as (s' & Hok & Hon & _).
    + right. split; [exact Hne|]. split; [reflexivity | rewrite Hlist; reflexivity].
    + exact Hauto.
    + exists s'. split; [exact Hok | exact Hon].
Defined.

Lemma callback_request_ids_witness :
  0 < totalGames pending /\ endTime (game pending 0) <= 6000 /\
  (revealPending (game pending 0) = true \/ settled (game pending 0) = true).
Proof.
  assert (Hreg : _requestToGame pending !! 7 = Some 0) by (vm_compute; reflexivity).
  pose proof (callback_request_ids 6000 pending pending_reachable) as (Hids & _).
  exact (Hids 7 0 Hreg).
Defined.

Lemma callback_pays_creator_witness :
  exists s',
    revealCallback (pays_exactly host (100 + MIN_STAKE)) (local_env 999 6001) 7
      [Byte.x08; Byte.x01] [] auto_pending = Ok (true, s') /\
    creatorClaimed (game auto_pending 0) = false /\
    settled (game s' 0) = true /\ creatorClaimed (game s' 0) = true /\
    claimCreator (pays_exactly host (100 + MIN_STAKE)) (local_env host 7000) 0 s'
    = Err AlreadyClaimed.
Proof.
  set (s' := apply_tx (tx_by 999 6001 (RevealCallback 7 [Byte.x08; Byte.x01] []))
               auto_pending).
  assert (Hok : revealCallback (pays_exactly host (100 + MIN_STAKE)) (local_env 999 6001) 7
                  [Byte.x08; Byte.x01] [] auto_pending = Ok (true, s'))
    by (vm_compute; reflexivity).
  assert (Hgid : requestToGame auto_pending 7 = 0) by (vm_compute; reflexivity).
  assert (Hauto : autoSettleEnabled (game auto_pending (requestToGame auto_pending 7))
                  = true) by (vm_compute; reflexivity).
  assert (Hhost : creator (game auto_pending 0) = host) by (vm_compute; reflexivity).
  pose proof (callback_pays_creator 6000 auto_pending (pays_exactly host (100 + MIN_STAKE))
                (local_env 999 6001) 7 [Byte.x08; Byte.x01] [] true s'
                auto_pending_reachable Hok Hauto) as (Hunpaid & _ & Hafter).
  rewrite Hgid in Hunpaid, Hafter.
  destruct Hafter as (Hs & Hc & _ & Hclaim).
  { intros env1 to amount s1 s2 Hcall. unfold pays_exactly in Hcall.
    destruct ((to =? host) && (amount =? 100 + MIN_STAKE)); [|discriminate].
    injection Hcall as <-. apply step_ok_refl. }
  exists s'. split; [exact Hok|]. split; [exact Hunpaid|].
  split; [exact Hs|]. split; [exact Hc|].
  apply Hclaim. rewrite Hhost. reflexivity.
Defined.
End RevealExamples.

(** ** The reveals without the oracle *)

(** X15: [debugReveal] in a reachable state.  It accepts a call, from
    anybody and also on a game with a reveal pending, exactly when the game
    exists, the chain id is 31337 or 1337, the game is not settled, its end
    time has come and there is one guess per participant; it then returns
    [true], settles the game on the given number with the given guesses,
    logs one [GameSettled] event and touches no other game.  On any other
    chain it fails with [DebugDisabled]; on a local chain and an unsettled
    game, before the end time with [RoundActive], and from the end time on
    with a guesses array of another length with [MismatchGuesses].  On a
    local chain, a [fairReveal] of the creator with
    the committed pair is the [debugReveal] with every guess set to big. *)
Theorem debugReveal_accepts `{External} (now : N) (s : Contract) (env : Env) (gid n : N)
    (guesses : list bool) :
  reachable now s ->
  let g := game s gid in
  let local_chain := (block_chainid env =? 31337) || (block_chainid env =? 1337) in
  ((exists s', debugReveal env gid n guesses s = Ok (true, s')) <->
   gid < totalGames s /\ local_chain = true /\ settled g = false /\
   endTime g <= block_timestamp env /\ length guesses = length (participantList g)) /\
  (forall b s', debugReveal env gid n guesses s = Ok (b, s') ->
     b = true /\ settled_on n guesses g (game s' gid) /\
     (forall gid', gid' <> gid -> game s' gid' = game s gid') /\
     events s' = GameSettled gid n (5 <? n) 0 (totalPot g) 0 :: events s) /\
  (gid < totalGames s -> local_chain = false ->
   debugReveal env gid n guesses s = Err DebugDisabled) /\
  (gid < totalGames s -> local_chain = true -> settled g = false ->
   block_timestamp env < endTime g ->
   debugReveal env gid n guesses s = Err RoundActive) /\
  (gid < totalGames s -> local_chain = true -> settled g = false ->
   endTime g <= block_timestamp env -> length guesses <> length (participantList g) ->
   debugReveal env gid n guesses s = Err MismatchGuesses) /\
  (forall salt,
     local_chain = true -> msg_sender env = creator g ->
     keccak256_packed n salt = secretNumberHash g ->
     fairReveal env gid n salt s
     = debugReveal env gid n (replicate (length (participantList g)) true) s).
Proof.
  intros Hr g local_chain. destruct (reachable_all now s Hr) as (HI & HF & _).
  unfold totalGames, debugReveal, gameExists. cbv zeta. fold g. fold local_chain.
  split; [|split; [|split; [|split; [|split]]]].
  - split.
    + intros [s' Hok]. do 5 peel Hok.
      apply N.ltb_lt in Hc. apply negb_true_iff in Hc1. apply N.leb_le in Hc2.
      apply Nat.eqb_eq in Hc3. auto.
    + intros (Hlt & -> & -> & Hend & Hlen).
      apply N.ltb_lt in Hlt. apply N.leb_le in Hend.
      rewrite Hlt, Hend, Hlen, Nat.eqb_refl. cbn [negb].
      destruct (completeSettlement_total g n guesses (or_intror Hlen)) as [g1 ->].
      cbn. eauto.
  - intros b s' Hok. do 5 peel Hok. peel Hok. destruct x as [[[w c] p] g1].
    injection Hok as <- <-. apply N.ltb_lt in Hc.
    assert (Hnd : NoDup (participantList g)).
    { destruct HI as [Hgames _]. now destruct (Hgames gid Hc). }
    destruct (completeSettlement_settled_on g n guesses w c p g1 Hnd Hx)
      as [Hon [= -> -> ->]].
    split; [reflexivity|]. rewrite game_emit, game_set_game_eq.
    split; [assumption|]. split; [|reflexivity].
    intros gid' Hne. now rewrite game_emit, game_set_game_ne by congruence.
  - intros Hlt ->. apply N.ltb_lt in Hlt. now rewrite Hlt.
  - intros Hlt -> -> Htime. apply N.ltb_lt in Hlt. apply N.leb_gt in Htime.
    now rewrite Hlt, Htime.
  - intros Hlt -> -> Hend Hlen. apply N.ltb_lt in Hlt. apply N.leb_le in Hend.
    assert (Hne : (length (participantList g) =? length guesses)%nat = false)
      by (apply Nat.eqb_neq; congruence).
    now rewrite Hlt, Hend, Hne.
  - intros salt -> Hsender Hhash. unfold fairReveal, gameExists. cbv zeta. fold g.
    rewrite Hsender, Hhash, !N.eqb_refl, assume_big_all, length_replicate, Nat.eqb_refl.
    reflexivity.
Qed.

(** X16: [fairReveal] in a reachable state.  It accepts a call, on any
    chain and also on a game with a reveal pending, exactly when the game
    exists, is not settled, its end time has come, the caller is the creator
    and the pair hashes to the commitment; it then returns [true], settles
    the game on the revealed number with every participant recorded as
    having guessed big, logs one [GameSettled] event and touches no other
    game.  On an unsettled game it fails before the end time with
    [RoundActive], and from the end time on, for a caller who is not the
    creator, with [OnlyCreatorCanReveal]. *)
Theorem fairReveal_accepts `{External} (now : N) (s : Contract) (env : Env)
    (gid n : N) (salt : bytes32) :
  reachable now s ->
  let g := game s gid in
  let all_big := replicate (length (participantList g)) true in
  ((exists s', fairReveal env gid n salt s = Ok (true, s')) <->
   gid < totalGames s /\ settled g = false /\ endTime g <= block_timestamp env /\
   msg_sender env = creator g /\ keccak256_packed n salt = secretNumberHash g) /\
  (forall b s', fairReveal env gid n salt s = Ok (b, s') ->
     b = true /\ settled_on n all_big g (game s' gid) /\
     (forall gid', gid' <> gid -> game s' gid' = game s gid') /\
     events s' = GameSettled gid n (5 <? n) 0 (totalPot g) 0 :: events s) /\
  (gid < totalGames s -> settled g = false -> block_timestamp env < endTime g ->
   fairReveal env gid n salt s = Err RoundActive) /\
  (gid < totalGames s -> settled g = false -> endTime g <= block_timestamp env ->
   msg_sender env <> creator g ->
   fairReveal env gid n salt s = Err OnlyCreatorCanReveal).
Proof.
  intros Hr g all_big. destruct (reachable_all now s Hr) as (HI & HF & _).
  unfold totalGames, fairReveal, gameExists. cbv zeta. fold g.
  rewrite assume_big_all. cbn [bind]. fold all_big.
  split; [|split; [|split]].
  - split.
    + intros [s' Hok]. do 5 peel Hok.
      apply N.ltb_lt in Hc. apply negb_true_iff in Hc0. apply N.leb_le in Hc1.
      apply N.eqb_eq in Hc2, Hc3. auto.
    + intros (Hlt & -> & Hend & -> & ->).
      apply N.ltb_lt in Hlt. apply N.leb_le in Hend.
      rewrite Hlt, Hend, !N.eqb_refl. cbn [negb].
      destruct (completeSettlement_total g n all_big) as [g1 ->].
      { right. apply length_replicate. }
      cbn. eauto.
  - intros b s' Hok. do 5 peel Hok. peel Hok. destruct x as [[[w c] p] g1].
    injection Hok as <- <-. apply N.ltb_lt in Hc.
    assert (Hnd : NoDup (participantList g)).
    { destruct HI as [Hgames _]. now destruct (Hgames gid Hc). }
    destruct (completeSettlement_settled_on g n all_big w c p g1 Hnd Hx)
      as [Hon [= -> -> ->]].
    split; [reflexivity|]. rewrite game_emit, game_set_game_eq.
    split; [assumption|]. split; [|reflexivity].
    intros gid' Hne. now rewrite game_emit, game_set_game_ne by congruence.
  - intros Hlt -> Htime. apply N.ltb_lt in Hlt. apply N.leb_gt in Htime.
    now rewrite Hlt, Htime.
  - intros Hlt -> Hend Hne. apply N.ltb_lt in Hlt. apply N.leb_le in Hend.
    apply N.eqb_neq in Hne. now rewrite Hlt, Hend, Hne.
Qed.

Section LocalRevealExamples.
#[local] Existing Instance plain_oracle.

Lemma debugReveal_accepts_witness :
  (exists s', debugReveal (local_env bob 6000) 0 8 [true; false] joined = Ok (true, s')) /\
  debugReveal {| msg_sender := host; block_timestamp := 6000; block_chainid := 1;
                 oracle_requestId := 7 |} 0 8 [true; false] joined
  = Err DebugDisabled /\
  debugReveal (local_env host 6000) 0 8 [true] joined = Err MismatchGuesses.
Proof.
  assert (Hlt : 0 < totalGames joined) by (vm_compute; reflexivity).
  assert (Hopen : settled (game joined 0) = false) by (vm_compute; reflexivity).
  assert (Hend : endTime (game joined 0) <= 6000) by (vm_compute; discriminate).
  pose proof (debugReveal_accepts 2000 joined (local_env bob 6000) 0 8 [true; false]
                joined_reachable) as (Hiff & _).
  pose proof (debugReveal_accepts 2000 joined
                {| msg_sender := host; block_timestamp := 6000; block_chainid := 1;
                   oracle_requestId := 7 |} 0 8 [true; false] joined_reachable)
    as (_ & _ & Hchain & _).
  pose proof (debugReveal_accepts 2000 joined (local_env host 6000) 0 8 [true]
                joined_reachable) as (_ & _ & _ & _ & Hmis & _).
  split; [|split].
  - apply (proj2 Hiff). split; [exact Hlt|]. split; [reflexivity|].
    split; [exact Hopen|]. split; [exact Hend|]. rewrite joined_roster. reflexivity.
  - apply Hchain; [exact Hlt | reflexivity].
  - apply Hmis; [exact Hlt | reflexivity | exact Hopen | exact Hend |].
    rewrite joined_roster. discriminate.
Defined.

Lemma fairReveal_accepts_witness :
  (exists s', fairReveal (local_env host 6000) 0 8 42 joined = Ok (true, s')) /\
  fairReveal (local_env alice 6000) 0 8 42 joined = Err OnlyCreatorCanReveal /\
  fairReveal (local_env host 4999) 0 8 42 joined = Err RoundActive.
Proof.
  assert (Hlt : 0 < totalGames joined) by (vm_compute; reflexivity).
  assert (Hopen : settled (game joined 0) = false) by (vm_compute; reflexivity).
  assert (Hend : endTime (game joined 0) <= 6000) by (vm_compute; discriminate).
  assert (Hearly : 4999 < endTime (game joined 0)) by (vm_compute; reflexivity).
  assert (Hhost : creator (game joined 0) = host) by (vm_compute; reflexivity).
  assert (Hhash : keccak256_packed 8 42 = secretNumberHash (game joined 0))
    by (vm_compute; reflexivity).
  pose proof (fairReveal_accepts 2000 joined (local_env host 6000) 0 8 42
                joined_reachable) as (Hiff & _).
  pose proof (fairReveal_accepts 2000 joined (local_env alice 6000) 0 8 42
                joined_reachable) as (_ & _ & _ & Hother).
  pose proof (fairReveal_accepts 2000 joined (local_env host 4999) 0 8 42
                joined_reachable) as (_ & _ & Hactive & _).
  split; [|split].
  - apply (proj2 Hiff). split; [exact Hlt|]. split; [exact Hopen|].
    split; [exact Hend|]. split; [rewrite Hhost; reflexivity | exact Hhash].
  - apply Hother; [exact Hlt | exact Hopen | exact Hend |].
    rewrite Hhost. discriminate.
  - apply Hactive; [exact Hlt | exact Hopen | exact Hearly].
Defined.
End LocalRevealExamples.

(** ** Winnings *)

(** X17: no call writes [won].  In every reachable state the [won] and
    [claimed] flags of every participant of every game are unset, and
    [winnersCount], [payoutPerWinner] and [creatorBonusRemainder] are 0; so
    [claimWinnings] fails for every caller, game and recipient, and for a
    participant of a settled game it fails with [NotEligible]. *)
Theorem claimWinnings_never_succeeds `{External} (now : N) (s : Contract) :
  reachable now s ->
  (forall gid a,
     won (participant (game s gid) a) = false /\
     claimed (participant (game s gid) a) = false) /\
  (forall gid,
     winnersCount (game s gid) = 0 /\ payoutPerWinner (game s gid) = 0 /\
     creatorBonusRemainder (game s gid) = 0) /\
  (forall call_value env gid, exists e, claimWinnings call_value env gid s = Err e) /\
  (forall call_value env gid,
     settled (game s gid) = true -> msg_sender env ∈ participantList (game s gid) ->
     claimWinnings call_value env gid s = Err NotEligible).
Proof.
  intros Hr. destruct (reachable_all now s Hr) as (HI & HF & _ & _ & Hst).
  split; [intros gid a; now destruct (HF gid)|].
  split; [intros gid; now destruct (HF gid)|].
  assert (Hwon : forall gid a, won (participant (game s gid) a) = false).
  { intros gid a. destruct (HF gid) as [_ _ _ Hw _ _ _ _]. apply Hw. }
  split.
  - intros cv env gid. unfold claimWinnings, nonReentrant, gameExists.
    rewrite Hst. fields. cbn [negb].
    destruct (gid <? nextGameId s); [|cbn; eauto]. cbv zeta.
    change (game (set_status true s) gid) with (game s gid).
    destruct (settled (game s gid)); [|cbn; eauto].
    destruct (exists_ _); [|cbn; eauto].
    rewrite Hwon. cbn. eauto.
  - intros cv env gid Hs Ha.
    pose proof (listed_created now s gid _ HI Ha) as Hlt. apply N.ltb_lt in Hlt.
    apply (HF gid) in Ha.
    unfold claimWinnings, nonReentrant, gameExists.
    rewrite Hst. fields. cbn [negb]. rewrite Hlt. cbv zeta.
    change (game (set_status true s) gid) with (game s gid).
    rewrite Hs, Ha, Hwon. reflexivity.
Qed.

Section WinningsExamples.
#[local] Existing Instance plain_oracle.

Lemma claimWinnings_never_succeeds_witness :
  guessedBig (participant (game debug_settled 0) alice) = true /\
  numberIsBig (game debug_settled 0) = true /\
  won (participant (game debug_settled 0) alice) = false /\
  claimWinnings (pays_exactly alice 0) (local_env alice 7000) 0 debug_settled
  = Err NotEligible.
Proof.
  pose proof (claimWinnings_never_succeeds 6000 debug_settled debug_settled_reachable)
    as (Hwon & _ & _ & Hclaim).
  split; [vm_compute; reflexivity|]. split; [vm_compute; reflexivity|].
  split; [exact (proj1 (Hwon 0 alice))|].
  apply Hclaim; [vm_compute; reflexivity|].
  rewrite debug_settled_roster. apply list_elem_of_here.
Defined.
End WinningsExamples.

(** ** Views and the log *)

(** X18: the views of a reachable state.  Every view fails with
    [GameNotFound] for an id that is not below [totalGames].  For a created
    game whose reward pool fits a [uint256], [getGame] succeeds (its
    addition does not overflow) and reports the number of participants, a
    pot equal to the reward pool plus the stakes, no winner and no payout
    per winner; for an unsettled game a creator share of 0, unclaimed; for a
    settled game a creator share equal to the pot, no reveal pending, and
    [numberIsBig] equal to [revealedNumber > 5]. *)
Theorem views_of_games `{External} (now : N) (s : Contract) (gid : N) :
  reachable now s ->
  let g := game s gid in
  (totalGames s <= gid ->
   getGame gid s = Err GameNotFound /\ listParticipants gid s = Err GameNotFound /\
   getEncryptedSecret gid s = Err GameNotFound /\
   forall a, getParticipant gid a s = Err GameNotFound) /\
  (gid < totalGames s -> rewardPool g <= MAX_UINT256 ->
   exists sm,
     getGame gid s = Ok sm /\
     gs_participantCount sm = N.of_nat (length (participantList g)) /\
     gs_totalPot sm = gs_rewardPool sm + sum_stakes g /\
     gs_winnersCount sm = 0 /\ gs_payoutPerWinner sm = 0 /\
     (gs_settled sm = false -> gs_creatorShare sm = 0 /\ gs_creatorClaimed sm = false) /\
     (gs_settled sm = true ->
      gs_creatorShare sm = gs_totalPot sm /\ gs_revealPending sm = false /\
      gs_numberIsBig sm = (5 <? gs_revealedNumber sm))).
Proof.
  intros Hr g. destruct (reachable_all now s Hr) as (HI & HF & _).
  unfold totalGames, getGame, listParticipants, getEncryptedSecret, getParticipant,
    gameExists.
  split.
  - intros Hge. apply N.ltb_ge in Hge. rewrite Hge. auto.
  - intros Hlt Hrp. pose proof Hlt as Hlt'. apply N.ltb_lt in Hlt'. rewrite Hlt'.
    cbv zeta. fold g.
    destruct (HF gid) as [_ _ _ _ (Hw & Hpp & Hrem) Hopen Hset Hbound].
    fold g in Hw, Hpp, Hrem, Hopen, Hset, Hbound.
    destruct HI as [Hgames _].
    destruct (Hgames gid Hlt) as [_ _ _ _ Hpot Hpen _ _ _]. fold g in Hpot, Hpen.
    assert (Hmax : totalPot g <= MAX_UINT256).
    { destruct (participantList g) eqn:Hl; [|apply Hbound; discriminate].
      rewrite Hpot. cbn. lia. }
    assert (Hshare : creatorShare g + creatorBonusRemainder g <= MAX_UINT256).
    { rewrite Hrem, N.add_0_r. destruct (settled g) eqn:Hs.
      - destruct (Hset eq_refl) as (_ & -> & _). assumption.
      - destruct (Hopen eq_refl) as (_ & _ & -> & _). lia. }
    rewrite (checked_add_small _ _ Hshare). cbn [bind].
    eexists. split; [reflexivity|].
    cbn [gs_participantCount gs_totalPot gs_rewardPool gs_winnersCount gs_payoutPerWinner
         gs_settled gs_creatorShare gs_creatorClaimed gs_revealPending gs_numberIsBig
         gs_revealedNumber].
    rewrite Hrem, N.add_0_r.
    split; [reflexivity|]. split; [assumption|]. split; [assumption|].
    split; [assumption|]. split.
    + intros Hs. destruct (Hopen Hs) as (_ & _ & ? & ? & _). auto.
    + intros Hs. destruct (Hset Hs) as (? & ? & _). auto.
Qed.

(** X19: the log lists the games.  In every reachable state a
    [GameCreated] event is in the log exactly when its id is below
    [totalGames] and its fields are the creator, minimum stake, end time and
    reward pool of that game. *)
Theorem log_lists_every_game `{External} (now : N) (s : Contract) :
  reachable now s ->
  forall gid c ms et rp,
    GameCreated gid c ms et rp ∈ events s <->
    gid < totalGames s /\ c = creator (game s gid) /\ ms = minStake (game s gid) /\
    et = endTime (game s gid) /\ rp = rewardPool (game s gid).
Proof.
  intros Hr gid c ms et rp. destruct (reachable_all now s Hr) as (_ & _ & [Hc _ _] & _).
  rewrite Hc. unfold created_data, totalGames.
  split; [intros [? [= -> -> -> ->]]; auto|].
  intros (? & -> & -> & -> & ->). auto.
Qed.

(** X20: the log lists the stakes.  In every reachable state a
    [GameJoined] event is in the log exactly when its player is on the
    roster of its game and its amount is the stake recorded for the
    player. *)
Theorem log_lists_every_stake `{External} (now : N) (s : Contract) :
  reachable now s ->
  forall gid a v,
    GameJoined gid a v ∈ events s <->
    a ∈ participantList (game s gid) /\ v = stake (participant (game s gid) a).
Proof.
  intros Hr gid a v. destruct (reachable_all now s Hr) as (_ & _ & [_ Hj _] & _).
  apply Hj.
Qed.

(** X21: the log reports the settlements.  In every reachable state a
    [GameSettled] event is in the log exactly when its game is settled and
    its fields are the revealed number, [numberIsBig], [winnersCount],
    [creatorShare] and [payoutPerWinner] recorded for the game, whichever of
    the three reveal paths settled it. *)
Theorem log_reports_every_settlement `{External} (now : N) (s : Contract) :
  reachable now s ->
  forall gid n b w c p,
    GameSettled gid n b w c p ∈ events s <->
    settled (game s gid) = true /\
    n = revealedNumber (game s gid) /\ b = numberIsBig (game s gid) /\
    w = winnersCount (game s gid) /\ c = creatorShare (game s gid) /\
    p = payoutPerWinner (game s gid).
Proof.
  intros Hr gid n b w c p. destruct (reachable_all now s Hr) as (_ & _ & [_ _ Hs] & _).
  rewrite Hs. unfold settled_data.
  split; [intros [? [= -> -> -> -> ->]]; auto 10|].
  intros (? & -> & -> & -> & -> & ->). auto.
Qed.

Section ViewsExamples.
#[local] Existing Instance plain_oracle.

Lemma views_of_games_witness :
  getGame 1 joined = Err GameNotFound /\
  exists sm,
    getGame 0 joined = Ok sm /\ gs_participantCount sm = 2 /\
    gs_totalPot sm = gs_rewardPool sm + sum_stakes (game joined 0) /\
    gs_winnersCount sm = 0.
Proof.
  assert (Hlt : 0 < totalGames joined) by (vm_compute; reflexivity).
  assert (Hge : totalGames joined <= 1) by (vm_compute; discriminate).
  assert (Hfit : rewardPool (game joined 0) <= MAX_UINT256) by (vm_compute; discriminate).
  pose proof (views_of_games 2000 joined 1 joined_reachable) as (Hnone & _).
  pose proof (views_of_games 2000 joined 0 joined_reachable) as (_ & Hsome).
  split; [exact (proj1 (Hnone Hge))|].
  destruct (Hsome Hlt Hfit) as (sm & Hget & Hcount & Hpot & Hw & _).
  exists sm. split; [exact Hget|]. split; [|split; [exact Hpot | exact Hw]].
  rewrite Hcount, joined_roster. reflexivity.
Defined.

Lemma log_lists_every_game_witness :
  GameCreated 0 host MIN_STAKE 5000 100 ∈ events joined /\
  forall c ms et rp, GameCreated 1 c ms et rp ∉ events joined.
Proof.
  pose proof (log_lists_every_game 2000 joined joined_reachable) as Hlog.
  split.
  - apply Hlog. vm_compute. repeat split; reflexivity.
  - intros c ms et rp Hin. apply Hlog in Hin as [Hlt _]. vm_compute in Hlt. discriminate.
Defined.

Lemma log_lists_every_stake_witness :
  GameJoined 0 bob MIN_STAKE ∈ events joined /\
  forall v, GameJoined 0 host v ∉ events joined.
Proof.
  pose proof (log_lists_every_stake 2000 joined joined_reachable) as Hlog.
  split.
  - apply Hlog. rewrite joined_roster. split; [|vm_compute; reflexivity].
    apply list_elem_of_further, list_elem_of_here.
  - intros v Hin. apply Hlog in Hin as [Hin _]. rewrite joined_roster in Hin.
    apply elem_of_cons in Hin as [Heq|Hin]; [discriminate|].
    apply list_elem_of_singleton in Hin. discriminate.
Defined.

Lemma log_reports_every_settlement_witness :
  GameSettled 0 8 true 0 (100 + 2 * MIN_STAKE) 0 ∈ events debug_settled /\
  forall n b w c p, GameSettled 0 n b w c p ∉ events joined.
Proof.
  split.
  - apply (log_reports_every_settlement 6000 debug_settled debug_settled_reachable).
    vm_compute. repeat split; reflexivity.
  - intros n b w c p Hin.
    apply (log_reports_every_settlement 2000 joined joined_reachable) in Hin as [Hs _].
    vm_compute in Hs. discriminate.
Defined.
End ViewsExamples.

(** ** The settlement helper that is not called *)

(** X22: [_completeSettlementWithAutoPayout], which nothing calls, is
    [_completeSettlement] followed by [_autoDistributeRewards] on a game
    whose creator has not been paid and whose pot fits a [uint256]: the same
    results, the same state, the same call to the creator, the same
    failure. *)
Theorem autoPayout_is_settle_then_distribute `{External}
    (call_value : Env -> address -> N -> Contract -> option Contract)
    (env : Env) (gid n : N) (guesses : list bool) (s : Contract) :
  creatorClaimed (game s gid) = false -> totalPot (game s gid) <= MAX_UINT256 ->
  _completeSettlementWithAutoPayout call_value env gid n guesses s
  = (r <- _completeSettlement (game s gid) n guesses ;;
     s2 <- _autoDistributeRewards call_value env gid (set_game gid (snd r) s) ;;
     Ok (fst r, s2)).
Proof.
  intros Hcc Hmax. unfold _completeSettlementWithAutoPayout.
  destruct (_completeSettlement (game s gid) n guesses) as [[[[w c] p] g1]|e] eqn:Hrun;
    [|reflexivity].
  cbn [bind fst snd].
  apply completeSettlement_spec in Hrun as (-> & -> & -> & Hg1 & _).
  assert (Hfields : creatorShare g1 = totalPot (game s gid) /\
                    creatorBonusRemainder g1 = 0 /\
                    creatorClaimed g1 = creatorClaimed (game s gid))
    by (rewrite Hg1; repeat split).
  destruct Hfields as (Hcs & Hrem & Hcc1). clear Hg1.
  unfold _autoDistributeRewards. cbv zeta.
  rewrite !game_set_game_eq, Hcs, Hrem, Hcc1, Hcc.
  rewrite checked_add_small by (rewrite N.add_0_r; assumption).
  cbn [bind negb]. rewrite N.add_0_r, andb_true_r.
  destruct (0 <? totalPot (game s gid)); [|reflexivity].
  destruct (_safeTransfer _ _ _ _ _); reflexivity.
Qed.

Section AutoPayoutExamples.
#[local] Existing Instance plain_oracle.

Lemma autoPayout_is_settle_then_distribute_witness :
  _completeSettlementWithAutoPayout (pays_exactly host (100 + 2 * MIN_STAKE))
    (local_env bob 6000) 0 8 [true; false] joined
  = (r <- _completeSettlement (game joined 0) 8 [true; false] ;;
     s2 <- _autoDistributeRewards (pays_exactly host (100 + 2 * MIN_STAKE))
             (local_env bob 6000) 0 (set_game 0 (snd r) joined) ;;
     Ok (fst r, s2)).
Proof.
  assert (Hunpaid : creatorClaimed (game joined 0) = false) by (vm_compute; reflexivity).
  assert (Hfit : totalPot (game joined 0) <= MAX_UINT256) by (vm_compute; discriminate).
  exact (autoPayout_is_settle_then_distribute (pays_exactly host (100 + 2 * MIN_STAKE))
           (local_env bob 6000) 0 8 [true; false] joined Hunpaid Hfit).
Defined.
End AutoPayoutExamples.
